(** * The snapshot consensus kernel: rounds, the round graph, the verifier
      and the snapshot handler.

    A shallow embedding of [kernel/round.go] and of the snapshot handler of
    the same package, followed by the properties of the kernel that the
    specification states.

    Conventions.
    - A [uint64] is a [Z]; every addition and subtraction of the source is
      followed by [wrap64].
    - [crypto.Hash], [crypto.Signature] and keys are byte strings.
    - A Go [map] is a [gmap]; the order in which [range] visits a map is not
      fixed by the language and is a parameter of the model ([rangeFinal]).
    - A Go [panic] is the outcome [Panics]; a function that returns an
      [error] returns an [option error] next to its other results.
    - [time.Now()] pops the next reading from a finite trace of clock
      readings; when the trace is exhausted the outcome is [Starved]. *)

From Stdlib Require Import ZArith List Lia Strings.Byte String.
From stdpp Require Import base decidable countable option list gmap sorting.

Local Open Scope Z_scope.

(** ** Machine integers and bytes *)

Definition wrap64 (z : Z) : Z := z mod 2 ^ 64.

Definition u64 (z : Z) : Prop := 0 <= z < 2 ^ 64.

Definition add64 (a b : Z) : Z := wrap64 (a + b).

Definition sub64 (a b : Z) : Z := wrap64 (a - b).

Definition byte_of_Z (z : Z) : byte :=
  default "000"%byte (Byte.of_N (Z.to_N (Z.land z 255))).

(** [binary.BigEndian.PutUint64]. *)
Definition PutUint64 (v : Z) : list byte :=
  [ byte_of_Z (Z.shiftr v 56); byte_of_Z (Z.shiftr v 48);
    byte_of_Z (Z.shiftr v 40); byte_of_Z (Z.shiftr v 32);
    byte_of_Z (Z.shiftr v 24); byte_of_Z (Z.shiftr v 16);
    byte_of_Z (Z.shiftr v 8); byte_of_Z v ].

#[global] Instance byte_eq_decision : EqDecision byte := Byte.byte_eq_dec.

#[global] Instance byte_countable : Countable byte :=
  inj_countable Byte.to_N Byte.of_N Byte.of_to_N.

(** ** Data model *)

(** [crypto.Hash] is [[32]byte], [crypto.Signature] is [[64]byte]. *)
Abbreviation Hash := (list byte).
Abbreviation Signature := (list byte).
Abbreviation Key := (list byte).

(** The errors of the kernel. [fmt.Errorf] messages are kept as
    constructors; errors of the store and of the peer are opaque. *)
Inductive error : Type :=
| ExternalError (code : Z)
| InvalidReferenceCount (n : Z)
| SameReferences
| InvalidSelfReference
| InvalidSelfLink (stored proposed : Z)
| InvalidFinalLink (stored proposed : Z)
| InvalidReferences.

(** A pair [(value, error)] returned by the store. *)
Inductive result (A : Type) : Type :=
| Ok (a : A)
| Err (e : error).
Arguments Ok {A} a.
Arguments Err {A} e.

(** How a call ends: it returns, it panics, or the clock trace of the
    model is exhausted. *)
Inductive outcome (A : Type) : Type :=
| Returns (a : A)
| Panics
| Starved.
Arguments Returns {A} a.
Arguments Panics {A}.
Arguments Starved {A}.

#[global] Instance outcome_ret : MRet outcome := fun A a => Returns a.

#[global] Instance outcome_bind : MBind outcome := fun A B k m =>
  match m with
  | Returns a => k a
  | Panics => Panics
  | Starved => Starved
  end.

(** [common.Snapshot]. [References] is a [[2]crypto.Hash]: the second
    statement of [signSnapshot] assigns an array literal of that type. *)
Record Snapshot : Type := {
  sNodeId : Hash;
  sTransaction : list byte;
  sReferences : Hash * Hash;
  sRoundNumber : Z;
  sTimestamp : Z;
  sSignatures : list Signature
}.

Record CacheRound : Type := {
  cNodeId : Hash;
  cNumber : Z;
  cStart : Z;
  cEnd : Z;
  cSnapshots : list Snapshot
}.

Record FinalRound : Type := {
  fNodeId : Hash;
  fNumber : Z;
  fStart : Z;
  fEnd : Z;
  fHash : Hash
}.

Record RoundGraph : Type := {
  gNodes : list Hash;
  gCacheRound : gmap Hash CacheRound;
  gFinalRound : gmap Hash FinalRound;
  gFinalCache : list FinalRound
}.

(** ** [sort.Slice]

    [sort.Slice] belongs to the Go library. A slice of at most 12
    elements is sorted by [insertionSort_func]:
<<
    for i := a + 1; i < b; i++ {
        for j := i; j > a && less(j, j-1); j-- { swap(j, j-1) }
    }
>>
    [sift] is the inner loop: [x] is [data[i]] and [left] is
    [data[a..i)] read from right to left. The releases before Go 1.19
    run a pass over the elements six places apart first:
<<
    for i := a + 6; i < b; i++ {
        if less(i, i-6) { swap(i, i-6) }
    }
>>
    A longer slice goes through the quicksort of the library (a
    pattern-defeating quicksort since Go 1.19), which is not part of
    the kernel: the model takes it as a parameter. *)

Fixpoint sift {A} (less : A -> A -> bool) (x : A) (left : list A) : list A :=
  match left with
  | [] => [x]
  | y :: ys => if less x y then y :: sift less x ys else x :: left
  end.

Definition insertionSort_func {A} (less : A -> A -> bool) (data : list A)
  : list A :=
  rev (fold_left (fun left x => sift less x left) data []).

(** [less(i, j)] and [swap(i, j)] on the slice [data]; the indices of
    the pass above stay within the slice. *)
Definition lessAt {A} (less : A -> A -> bool) (data : list A) (i j : nat)
  : bool :=
  match data !! i, data !! j with
  | Some x, Some y => less x y
  | _, _ => false
  end.

Definition swap {A} (i j : nat) (data : list A) : list A :=
  match data !! i, data !! j with
  | Some x, Some y => <[i := y]> (<[j := x]> data)
  | _, _ => data
  end.

Definition gapPass {A} (less : A -> A -> bool) (a b : nat) (data : list A)
  : list A :=
  fold_left
    (fun data i => if lessAt less data i (i - 6) then swap i (i - 6) data
                   else data)
    (seq (a + 6) (b - (a + 6))) data.

(** The library as the kernel meets it: whether it is a release before
    Go 1.19, and what it does with a slice of more than 12 elements. *)
Record GoSort : Type := {
  beforeGo119 : bool;
  sortLong : forall A : Type, (A -> A -> bool) -> list A -> list A
}.

Definition sort_Slice {A} (lib : GoSort) (less : A -> A -> bool)
  (data : list A) : list A :=
  if (length data <=? 12)%nat then
    insertionSort_func less
      (if beforeGo119 lib then gapPass less 0 (length data) data else data)
  else sortLong lib A less data.

(** The order that a [less] function stands for. *)
Definition lessP {A} (less : A -> A -> bool) (a b : A) : Prop :=
  less a b = true.

(** ** Rounds ([kernel/round.go]) *)

Section Round.

(** [sort.Slice], [crypto.NewHash] and [Snapshot.Payload] are declared
    in other packages. *)
Variable lib : GoSort.
Variable NewHash : list byte -> Hash.
Variable Payload : Snapshot -> list byte.

Definition byTimestamp (a b : Snapshot) : bool :=
  sTimestamp a <=? sTimestamp b.

(** The loop [for _, s := range snapshots { hashes = append(hashes,
    NewHash(s.Payload())...) }]. *)
Definition appendPayloadHashes (hashes : list byte) (l : list Snapshot)
  : list byte :=
  fold_left (fun hs s => hs ++ NewHash (Payload s)) l hashes.

Definition snapshotAsCacheRound (s : Snapshot) : CacheRound :=
  {| cNodeId := sNodeId s; cNumber := sRoundNumber s;
     cStart := sTimestamp s; cEnd := sTimestamp s; cSnapshots := [s] |}.

(** [Copy] clones the struct and the snapshot slice; with values in
    place of pointers both are the identity. *)
Definition CacheRound_Copy (c : CacheRound) : CacheRound :=
  {| cNodeId := cNodeId c; cNumber := cNumber c; cStart := cStart c;
     cEnd := cEnd c; cSnapshots := [] ++ cSnapshots c |}.

Definition FinalRound_Copy (f : FinalRound) : FinalRound := f.

(** [asFinal] sorts the receiver's slice in place: the first component
    is the receiver after the call, the second the returned round. *)
Definition asFinal (c : CacheRound) : CacheRound * FinalRound :=
  let buf := PutUint64 (cNumber c) in
  let hashes := cNodeId c ++ buf in
  let sorted := sort_Slice lib byTimestamp (cSnapshots c) in
  let hashes := appendPayloadHashes hashes sorted in
  ({| cNodeId := cNodeId c; cNumber := cNumber c; cStart := cStart c;
      cEnd := cEnd c; cSnapshots := sorted |},
   {| fNodeId := cNodeId c; fNumber := cNumber c; fStart := cStart c;
      fEnd := cEnd c; fHash := NewHash hashes |}).

End Round.

(** ** The round graph ([LoadRoundGraph]) *)

(** [common.SnapshotWithTopologicalOrder]. *)
Record SnapshotWithTopologicalOrder : Type := {
  tSnapshot : Snapshot;
  tTopologicalOrder : Z;
  tRoundLinks : gmap Hash Z
}.

(** The part of [storage.Store] that the kernel calls. A read returns a
    value or an error; the write returns an error or nothing. *)
Record Store : Type := {
  SnapshotsReadNodesList : result (list Hash);
  SnapshotsReadRoundMeta : Hash -> result (Z * Z);
  SnapshotsReadSnapshotsForNodeRound : Hash -> Z -> result (list Snapshot);
  SnapshotsReadSnapshotByTransactionHash : Hash -> result (option Snapshot);
  SnapshotsReadRoundLink : Hash -> Hash -> result Z;
  SnapshotsWriteSnapshot : SnapshotWithTopologicalOrder -> option error
}.

(** The zero value of [crypto.Hash]. *)
Definition zeroHash : Hash := repeat "000"%byte 32.

Definition emptyCacheRound (id : Hash) : CacheRound :=
  {| cNodeId := id; cNumber := 1; cStart := 0; cEnd := 0; cSnapshots := [] |}.

Definition setNodes (g : RoundGraph) (l : list Hash) : RoundGraph :=
  {| gNodes := l; gCacheRound := gCacheRound g;
     gFinalRound := gFinalRound g; gFinalCache := gFinalCache g |}.

Definition setCacheRound (g : RoundGraph) (id : Hash) (c : CacheRound)
  : RoundGraph :=
  {| gNodes := gNodes g; gCacheRound := <[id := c]> (gCacheRound g);
     gFinalRound := gFinalRound g; gFinalCache := gFinalCache g |}.

Definition setFinalRound (g : RoundGraph) (id : Hash) (f : FinalRound)
  : RoundGraph :=
  {| gNodes := gNodes g; gCacheRound := gCacheRound g;
     gFinalRound := <[id := f]> (gFinalRound g);
     gFinalCache := gFinalCache g |}.

Section Graph.

Variable NewHash : list byte -> Hash.
Variable Payload : Snapshot -> list byte.
Variable store : Store.

(** The order in which [range g.FinalRound] yields the entries. *)
Variable rangeFinal : gmap Hash FinalRound -> list (Hash * FinalRound).

Definition UpdateFinalCache (g : RoundGraph) : RoundGraph :=
  let finals :=
    fold_left
      (fun finals kf =>
         finals ++ [ {| fNodeId := fNodeId kf.2; fNumber := fNumber kf.2;
                        fStart := fStart kf.2; fEnd := 0;
                        fHash := zeroHash |} ])
      (rangeFinal (gFinalRound g)) [] in
  {| gNodes := gNodes g; gCacheRound := gCacheRound g;
     gFinalRound := gFinalRound g; gFinalCache := finals |}.

(** The loop of [loadHeadRoundForNode]: the running [round.End]. *)
Fixpoint headRoundEnd (start : Z) (snapshots : list Snapshot) (end_ : Z)
  : outcome Z :=
  match snapshots with
  | [] => Returns end_
  | s :: rest =>
      if sTimestamp s <? start then Panics
      else headRoundEnd start rest
             (if end_ <? sTimestamp s then sTimestamp s else end_)
  end.

Definition loadHeadRoundForNode (nodeIdWithNetwork : Hash)
  : outcome (result CacheRound) :=
  match SnapshotsReadRoundMeta store nodeIdWithNetwork with
  | Err e => Returns (Err e)
  | Ok meta =>
      match SnapshotsReadSnapshotsForNodeRound store nodeIdWithNetwork
              meta.1 with
      | Err e => Returns (Err e)
      | Ok snapshots =>
          end_ ← headRoundEnd meta.2 snapshots 0;
          Returns (Ok {| cNodeId := nodeIdWithNetwork; cNumber := meta.1;
                         cStart := meta.2; cEnd := end_;
                         cSnapshots := snapshots |})
      end
  end.

(** The loop of [loadFinalRoundForNode]: the running [hashes]. *)
Fixpoint finalRoundHashes (start end_ : Z) (snapshots : list Snapshot)
  (hashes : list byte) : outcome (list byte) :=
  match snapshots with
  | [] => Returns hashes
  | s :: rest =>
      let hashes := hashes ++ NewHash (Payload s) in
      if sTimestamp s <? start then Panics
      else if end_ <? sTimestamp s then Panics
      else finalRoundHashes start end_ rest hashes
  end.

(** [snapshots[0]] and [snapshots[len(snapshots)-1]] panic on an empty
    slice. *)
Definition loadFinalRoundForNode (nodeIdWithNetwork : Hash) (number : Z)
  : outcome (result FinalRound) :=
  match SnapshotsReadSnapshotsForNodeRound store nodeIdWithNetwork
          number with
  | Err e => Returns (Err e)
  | Ok snapshots =>
      match snapshots with
      | [] => Panics
      | first :: _ =>
          let start := sTimestamp first in
          let end_ := sTimestamp (List.last snapshots first) in
          let buf := PutUint64 number in
          let hashes := nodeIdWithNetwork ++ buf in
          hashes ← finalRoundHashes start end_ snapshots hashes;
          Returns (Ok {| fNodeId := nodeIdWithNetwork; fNumber := number;
                         fStart := start; fEnd := end_;
                         fHash := NewHash hashes |})
      end
  end.

(** The loop [for _, id := range nodes] of [LoadRoundGraph]. *)
Fixpoint loadNodes (nodes : list Hash) (graph : RoundGraph)
  : outcome (result RoundGraph) :=
  match nodes with
  | [] => Returns (Ok graph)
  | id :: rest =>
      let graph := setNodes graph (gNodes graph ++ [id]) in
      rc ← loadHeadRoundForNode id;
      match rc with
      | Err e => Returns (Err e)
      | Ok cache =>
          let graph := setCacheRound graph (cNodeId cache) cache in
          let finalRoundNumber := sub64 (cNumber cache) 1 in
          let '(finalRoundNumber, graph) :=
            if cNumber cache =? 0
            then (cNumber cache, setCacheRound graph id (emptyCacheRound id))
            else (finalRoundNumber, graph) in
          rf ← loadFinalRoundForNode id finalRoundNumber;
          match rf with
          | Err e => Returns (Err e)
          | Ok final =>
              loadNodes rest (setFinalRound graph (fNodeId final) final)
          end
      end
  end.

Definition emptyGraph : RoundGraph :=
  {| gNodes := []; gCacheRound := ∅; gFinalRound := ∅; gFinalCache := [] |}.

(** [graph.Print()] reads the two maps at the ids just inserted and
    only feeds the logger. *)
Definition LoadRoundGraph : outcome (result RoundGraph) :=
  match SnapshotsReadNodesList store with
  | Err e => Returns (Err e)
  | Ok nodes =>
      r ← loadNodes nodes emptyGraph;
      match r with
      | Err e => Returns (Err e)
      | Ok graph => Returns (Ok (UpdateFinalCache graph))
      end
  end.

End Graph.

(** ** The node and what it depends on *)

(** A consensus node as the kernel sees it: the answer of [IsAccepted],
    the public spend key of its account, and its account hash for the
    network ([cn.Account.Hash().ForNetwork(node.networkId)]). *)
Record ConsensusNode : Type := {
  cnIsAccepted : bool;
  cnPublicSpendKey : Key;
  cnIdForNetwork : Hash
}.

Record Node : Type := {
  nIdForNetwork : Hash;
  nPrivateSpendKey : Key;
  nConsensusNodes : list ConsensusNode;
  nGraph : RoundGraph;
  nSnapshotsPool : gmap Hash (list Signature);
  nConsensusCache : gmap Hash Z;
  nTopoCounter : Z
}.

Definition setGraph (node : Node) (g : RoundGraph) : Node :=
  {| nIdForNetwork := nIdForNetwork node;
     nPrivateSpendKey := nPrivateSpendKey node;
     nConsensusNodes := nConsensusNodes node; nGraph := g;
     nSnapshotsPool := nSnapshotsPool node;
     nConsensusCache := nConsensusCache node;
     nTopoCounter := nTopoCounter node |}.

Definition setSnapshotsPool (node : Node) (p : gmap Hash (list Signature))
  : Node :=
  {| nIdForNetwork := nIdForNetwork node;
     nPrivateSpendKey := nPrivateSpendKey node;
     nConsensusNodes := nConsensusNodes node; nGraph := nGraph node;
     nSnapshotsPool := p; nConsensusCache := nConsensusCache node;
     nTopoCounter := nTopoCounter node |}.

Definition setConsensusCache (node : Node) (c : gmap Hash Z) : Node :=
  {| nIdForNetwork := nIdForNetwork node;
     nPrivateSpendKey := nPrivateSpendKey node;
     nConsensusNodes := nConsensusNodes node; nGraph := nGraph node;
     nSnapshotsPool := nSnapshotsPool node; nConsensusCache := c;
     nTopoCounter := nTopoCounter node |}.

Definition setTopoCounter (node : Node) (t : Z) : Node :=
  {| nIdForNetwork := nIdForNetwork node;
     nPrivateSpendKey := nPrivateSpendKey node;
     nConsensusNodes := nConsensusNodes node; nGraph := nGraph node;
     nSnapshotsPool := nSnapshotsPool node;
     nConsensusCache := nConsensusCache node; nTopoCounter := t |}.

Definition setSignatures (s : Snapshot) (sigs : list Signature) : Snapshot :=
  {| sNodeId := sNodeId s; sTransaction := sTransaction s;
     sReferences := sReferences s; sRoundNumber := sRoundNumber s;
     sTimestamp := sTimestamp s; sSignatures := sigs |}.

Definition setTimestamp (s : Snapshot) (t : Z) : Snapshot :=
  {| sNodeId := sNodeId s; sTransaction := sTransaction s;
     sReferences := sReferences s; sRoundNumber := sRoundNumber s;
     sTimestamp := t; sSignatures := sSignatures s |}.

Definition setRound (s : Snapshot) (number : Z) (refs : Hash * Hash)
  : Snapshot :=
  {| sNodeId := sNodeId s; sTransaction := sTransaction s;
     sReferences := refs; sRoundNumber := number;
     sTimestamp := sTimestamp s; sSignatures := sSignatures s |}.

Definition setStart (c : CacheRound) (t : Z) : CacheRound :=
  {| cNodeId := cNodeId c; cNumber := cNumber c; cStart := t;
     cEnd := cEnd c; cSnapshots := cSnapshots c |}.

Definition setEnd (c : CacheRound) (t : Z) : CacheRound :=
  {| cNodeId := cNodeId c; cNumber := cNumber c; cStart := cStart c;
     cEnd := t; cSnapshots := cSnapshots c |}.

Definition setSnapshots (c : CacheRound) (l : list Snapshot) : CacheRound :=
  {| cNodeId := cNodeId c; cNumber := cNumber c; cStart := cStart c;
     cEnd := cEnd c; cSnapshots := l |}.

(** The operations of the packages [sort], [common], [crypto], [config]
    and of the peer that the handler calls; none of them is defined in
    the kernel. *)
Record Deps : Type := {
  (** [sort.Slice] *)
  sortPackage : GoSort;
  (** [crypto.NewHash] *)
  NewHash : list byte -> Hash;
  (** [s.Payload()] and [s.PayloadHash()] *)
  Payload : Snapshot -> list byte;
  PayloadHash : Snapshot -> Hash;
  (** [s.Transaction.PayloadHash()], [s.Transaction.Validate(store)] and
      [s.LockInputs(store)] *)
  TransactionPayloadHash : list byte -> Hash;
  Validate : list byte -> option error;
  LockInputs : Snapshot -> option error;
  (** [key.Verify(msg, sig)] and [s.Sign(key)] *)
  Verify : Key -> list byte -> Signature -> bool;
  Sign : Snapshot -> Key -> Snapshot;
  (** [hash.ForNetwork(id)] *)
  ForNetwork : Hash -> Hash -> Hash;
  (** [node.Peer.SendSnapshotMessage(peerId, s)] *)
  SendSnapshotMessage : Hash -> Snapshot -> option error;
  (** [node.TopoCounter.Next()]: the order handed out and the counter
      after the call *)
  TopoNext : Z -> Z * Z;
  (** [config.SnapshotRoundGap] *)
  SnapshotRoundGap : Z;
  (** the zero [time.Time], in nanoseconds *)
  zeroTime : Z
}.

(** ** The verifier and the handler *)

Section Kernel.

Variable D : Deps.
Variable store : Store.
Variable rangeFinal : gmap Hash FinalRound -> list (Hash * FinalRound).

(** *** [clearConsensusSignatures] *)

(** The inner loop [for _, cn := range node.ConsensusNodes]. *)
Fixpoint appendVerified (cns : list ConsensusNode) (msg : list byte)
  (sig : Signature) (sigs : list Signature) : list Signature :=
  match cns with
  | [] => sigs
  | cn :: rest =>
      if negb (cnIsAccepted cn) then appendVerified rest msg sig sigs
      else if Verify D (cnPublicSpendKey cn) msg sig
           then appendVerified rest msg sig (sigs ++ [sig])
           else appendVerified rest msg sig sigs
  end.

(** The outer loop [for _, sig := range s.Signatures]; [filter] holds
    the keys that the map sends to [true]. *)
Fixpoint clearLoop (cns : list ConsensusNode) (msg : list byte)
  (input : list Signature) (filter : gset Signature)
  (sigs : list Signature) : list Signature :=
  match input with
  | [] => sigs
  | sig :: rest =>
      if decide (sig ∈ filter) then clearLoop cns msg rest filter sigs
      else clearLoop cns msg rest ({[sig]} ∪ filter)
             (appendVerified cns msg sig sigs)
  end.

Definition clearConsensusSignatures (node : Node) (s : Snapshot)
  : Snapshot :=
  let msg := Payload D s in
  setSignatures s
    (clearLoop (nConsensusNodes node) msg (sSignatures s) ∅ []).

(** *** [verifyFinalization] *)

Definition len {A} (l : list A) : Z := Z.of_nat (length l).

Definition verifyFinalization (node : Node) (s : Snapshot) : bool :=
  let consensusThreshold := len (nConsensusNodes node) * 2 / 3 in
  consensusThreshold <? len (sSignatures s).

(** *** [verifyReferences] *)

(** [len(s.References)] of an array of two hashes. *)
Definition lenReferences (refs : Hash * Hash) : Z := 2.

(** [links[k]]: a missing key reads as zero. *)
Definition linkAt (links : gmap Hash Z) (k : Hash) : Z :=
  default 0 (links !! k).

(** The body of the loop [for _, final := range node.Graph.FinalRound]
    for a final round that passes the test: every path returns. *)
Definition checkLinks (self : FinalRound) (s : Snapshot)
  (final : FinalRound) : gmap Hash Z * bool * option error :=
  let links := <[fNodeId self := fNumber self]> (∅ : gmap Hash Z) in
  let links := <[fNodeId final := fNumber final]> links in
  match SnapshotsReadRoundLink store (sNodeId s) (fNodeId self) with
  | Err e => (links, false, Some e)
  | Ok selfLink =>
      if linkAt links (fNodeId self) <? selfLink
      then (links, true,
            Some (InvalidSelfLink selfLink (linkAt links (fNodeId self))))
      else
        match SnapshotsReadRoundLink store (sNodeId s) (fNodeId final) with
        | Err e => (links, false, Some e)
        | Ok finalLink =>
            if linkAt links (fNodeId final) <? finalLink
            then (links, true,
                  Some (InvalidFinalLink finalLink
                          (linkAt links (fNodeId final))))
            else (links, true, None)
        end
  end.

(** The loop itself; the statement after the loop is the case of the
    empty list. *)
Fixpoint scanFinals (self : FinalRound) (s : Snapshot) (ref1 : Hash)
  (finals : list (Hash * FinalRound))
  : gmap Hash Z * bool * option error :=
  match finals with
  | [] => (∅, true, Some InvalidReferences)
  | kf :: rest =>
      let final := kf.2 in
      if bool_decide (fNodeId final = sNodeId s)
         || bool_decide (fHash final ≠ ref1)
      then scanFinals self s ref1 rest
      else checkLinks self s final
  end.

Definition verifyReferences (node : Node) (self : FinalRound)
  (s : Snapshot) : outcome (gmap Hash Z * bool * option error) :=
  let links : gmap Hash Z := ∅ in
  if negb (lenReferences (sReferences s) =? 2)
  then Returns (links, true,
                Some (InvalidReferenceCount
                        (lenReferences (sReferences s))))
  else
    let ref0 := (sReferences s).1 in
    let ref1 := (sReferences s).2 in
    if bool_decide (ref0 = ref1)
    then Returns (links, true, Some SameReferences)
    else if bool_decide (ref0 ≠ fHash self)
    then Returns (links, true, Some InvalidSelfReference)
    else if bool_decide (sNodeId s ≠ fNodeId self)
    then Panics
    else Returns (scanFinals self s ref1
                    (rangeFinal (gFinalRound (nGraph node)))).

(** *** The round advance shared by the verifier and the signer *)

(** [if s.Timestamp >= config.SnapshotRoundGap+cache.Start { ... }];
    [end_] is the [End] of the cache opened after a seal: the verifier
    writes [s.Timestamp], the signer leaves the zero value. *)
Definition advanceRound (node : Node) (s : Snapshot) (end_ : Z)
  (cache : CacheRound) (final : FinalRound)
  : outcome (CacheRound * FinalRound) :=
  if add64 (SnapshotRoundGap D) (cStart cache) <=? sTimestamp s then
    if len (cSnapshots cache) =? 0
    then Returns (setStart cache (sTimestamp s), final)
    else
      if forallb (verifyFinalization node) (cSnapshots cache)
      then
        let final :=
          (asFinal (sortPackage D) (NewHash D) (Payload D) cache).2 in
        Returns ({| cNodeId := sNodeId s;
                    cNumber := add64 (cNumber cache) 1;
                    cStart := sTimestamp s; cEnd := end_;
                    cSnapshots := [] |}, final)
      else Panics
  else Returns (cache, final).

(** *** [verifySnapshot] *)

(** The loop [for _, sig := range osigs] that merges the pool. *)
Fixpoint mergeSignatures (osigs : list Signature)
  (filter : gset Signature) (sigs : list Signature) : list Signature :=
  match osigs with
  | [] => sigs
  | sig :: rest =>
      if decide (sig ∈ filter) then mergeSignatures rest filter sigs
      else mergeSignatures rest ({[sig]} ∪ filter) (sigs ++ [sig])
  end.

(** What [verifySnapshot] does with the answer of [verifyReferences]
    on the round-advance path. *)
Definition dropHandled (err : option error) (handled : bool)
  : option error :=
  match err with
  | Some e => if negb handled then Some e else None
  | None => None
  end.

(** The results are [links, cache, final, err], then the node and the
    snapshot after the call. *)
Definition verifySnapshot (node : Node) (s : Snapshot)
  : outcome (gmap Hash Z * CacheRound * FinalRound * option error
             * Node * Snapshot) :=
  match gCacheRound (nGraph node) !! sNodeId s with
  | None => Panics
  | Some c =>
  match gFinalRound (nGraph node) !! sNodeId s with
  | None => Panics
  | Some f =>
      let cache := CacheRound_Copy c in
      let final := FinalRound_Copy f in
      let osigs := default [] (nSnapshotsPool node !! PayloadHash D s) in
      if (0 <? len osigs) || verifyFinalization node s then
        '(links, handled, err) ← verifyReferences node final s;
        match err with
        | Some e =>
            Returns (links, cache, final, dropHandled err handled, node, s)
        | None =>
            let filter : gset Signature := list_to_set (sSignatures s) in
            let s := setSignatures s
                       (mergeSignatures osigs filter (sSignatures s)) in
            let node := setSnapshotsPool node
                          (<[PayloadHash D s := [] ++ sSignatures s]>
                             (nSnapshotsPool node)) in
            Returns (links, cache, final, None, node, s)
        end
      else
        '(cache, final) ← advanceRound node s (sTimestamp s) cache final;
        if bool_decide (sRoundNumber s ≠ cNumber cache)
           || (sTimestamp s <? cEnd cache)
        then Returns (∅, cache, final, None, node, s)
        else
          '(links, handled, err) ← verifyReferences node final s;
          Returns (links, cache, final, dropHandled err handled, node, s)
  end
  end.

(** *** [signSnapshot] *)

(** [uint64(time.Now().UnixNano())]. *)
Definition nowNano (clock : list Z) : outcome (Z * list Z) :=
  match clock with
  | [] => Starved
  | t :: clock => Returns (wrap64 t, clock)
  end.

(** The loop that waits for a reading above [cache.End]. *)
Fixpoint waitTimestamp (end_ : Z) (clock : list Z) : outcome (Z * list Z) :=
  match clock with
  | [] => Starved
  | t :: clock =>
      if end_ <? wrap64 t then Returns (wrap64 t, clock)
      else waitTimestamp end_ clock
  end.

(** The loop [for _, r := range node.Graph.FinalRound] that picks
    [best]; the clock is read only when the first two tests pass. *)
Fixpoint chooseBest (id : Hash) (finals : list (Hash * FinalRound))
  (best : FinalRound) (clock : list Z) : outcome (FinalRound * list Z) :=
  match finals with
  | [] => Returns (best, clock)
  | kr :: rest =>
      let r := kr.2 in
      if bool_decide (fNodeId r ≠ id) && (fStart best <=? fStart r) then
        '(now, clock) ← nowNano clock;
        if fEnd r <? now then chooseBest id rest r clock
        else chooseBest id rest best clock
      else chooseBest id rest best clock
  end.

(** The results are [cache, final] (the error is always [nil]), then
    the snapshot and the clock after the call. *)
Definition signSnapshot (node : Node) (s : Snapshot) (clock : list Z)
  : outcome (CacheRound * FinalRound * Snapshot * list Z) :=
  match gCacheRound (nGraph node) !! sNodeId s with
  | None => Panics
  | Some c =>
  match gFinalRound (nGraph node) !! sNodeId s with
  | None => Panics
  | Some f =>
      let cache := CacheRound_Copy c in
      let final := FinalRound_Copy f in
      if bool_decide (sNodeId s ≠ nIdForNetwork node)
         || negb (len (sSignatures s) =? 0)
         || negb (sTimestamp s =? 0)
      then Returns (cache, final, s, clock)
      else
        '(t, clock) ← waitTimestamp (cEnd cache) clock;
        let s := setTimestamp s t in
        '(cache, final) ← advanceRound node s 0 cache final;
        let cache := setEnd cache (sTimestamp s) in
        let best := {| fNodeId := fNodeId final; fNumber := 0; fStart := 0;
                       fEnd := 0; fHash := zeroHash |} in
        '(best, clock) ← chooseBest (sNodeId s)
                           (rangeFinal (gFinalRound (nGraph node)))
                           best clock;
        if bool_decide (fNodeId best = fNodeId final) then Panics
        else
          Returns (cache, final,
                   setRound s (cNumber cache) (fHash final, fHash best),
                   clock)
  end
  end.

(** *** [sign] *)

Definition sign (node : Node) (s : Snapshot) : Node * Snapshot :=
  let s := Sign D s (nPrivateSpendKey node) in
  let s := clearConsensusSignatures node s in
  (setSnapshotsPool node
     (<[PayloadHash D s := [] ++ sSignatures s]> (nSnapshotsPool node)),
   s).

(** *** [handleSnapshotInput] *)

(** [time.Now()] as a [time.Time], in nanoseconds. *)
Definition now (clock : list Z) : outcome (Z * list Z) :=
  match clock with
  | [] => Starved
  | t :: clock => Returns (t, clock)
  end.

(** The loop [for _, cn := range node.ConsensusNodes] of the producer;
    the results are the error if a send failed, the consensus cache and
    the clock. *)
Fixpoint sendToConsensus (cns : list ConsensusNode) (s : Snapshot)
  (ccache : gmap Hash Z) (clock : list Z)
  : outcome (option error * gmap Hash Z * list Z) :=
  match cns with
  | [] => Returns (None, ccache, clock)
  | cn :: rest =>
      if negb (cnIsAccepted cn) then sendToConsensus rest s ccache clock
      else
        let peerId := cnIdForNetwork cn in
        let cacheId := ForNetwork D (PayloadHash D s) peerId in
        '(t, clock) ← now clock;
        if t <? default (zeroTime D) (ccache !! cacheId)
                + SnapshotRoundGap D
        then sendToConsensus rest s ccache clock
        else
          match SendSnapshotMessage D peerId s with
          | Some e => Returns (Some e, ccache, clock)
          | None =>
              '(t, clock) ← now clock;
              sendToConsensus rest s (<[cacheId := t]> ccache) clock
          end
  end.

(** The two assignments that commit the proposed rounds. *)
Definition commit (node : Node) (s : Snapshot) (cache : CacheRound)
  (final : FinalRound) : Node :=
  setGraph node
    (setFinalRound (setCacheRound (nGraph node) (sNodeId s) cache)
       (sNodeId s) final).

(** The statements from [node.clearConsensusSignatures(s)] up to the
    call of [verifySnapshot]: the results are [links, cache, final,
    err], then the node, the snapshot and the clock. *)
Definition propose (node : Node) (s : Snapshot) (clock : list Z)
  : outcome (gmap Hash Z * CacheRound * FinalRound * option error
             * Node * Snapshot * list Z) :=
  let s := clearConsensusSignatures node s in
  '(cache, final, s, clock) ← signSnapshot node s clock;
  if bool_decide (sNodeId s ≠ nIdForNetwork node)
     || (1 <? len (sSignatures s))
  then
    '(links, cache, final, err, node, s) ← verifySnapshot node s;
    Returns (links, cache, final, err, node, s, clock)
  else Returns (∅, cache, final, None, node, s, clock).

(** The branch [if node.verifyFinalization(s) { ... }]. *)
Definition finalize (node : Node) (s : Snapshot) (links : gmap Hash Z)
  (cache : CacheRound) (final : FinalRound) : option error * Node :=
  let cache := setSnapshots cache (cSnapshots cache ++ [s]) in
  let cache := setEnd cache (sTimestamp s) in
  let next := TopoNext D (nTopoCounter node) in
  let node := setTopoCounter node next.2 in
  let topo := {| tSnapshot := s; tTopologicalOrder := next.1;
                 tRoundLinks := links |} in
  match SnapshotsWriteSnapshot store topo with
  | Some e => (Some e, node)
  | None => (None, commit node s cache final)
  end.

(** The statements after that branch. *)
Definition cosign (node : Node) (s : Snapshot) (cache : CacheRound)
  (final : FinalRound) (clock : list Z)
  : outcome (option error * Node * Snapshot * list Z) :=
  match LockInputs D s with
  | Some _ => Returns (None, node, s, clock)
  | None =>
      let '(node, s) := sign node s in
      if bool_decide (nIdForNetwork node = sNodeId s) then
        '(err, ccache, clock) ←
          sendToConsensus (nConsensusNodes node) s
            (nConsensusCache node) clock;
        let node := setConsensusCache node ccache in
        match err with
        | Some e => Returns (Some e, node, s, clock)
        | None => Returns (None, commit node s cache final, s, clock)
        end
      else
        match SendSnapshotMessage D (sNodeId s) s with
        | Some e => Returns (Some e, node, s, clock)
        | None => Returns (None, commit node s cache final, s, clock)
        end
  end.

(** The results are the returned error, then the node, the snapshot
    and the clock after the call. [defer node.Graph.UpdateFinalCache()]
    runs on every return that follows it. *)
Definition handleSnapshotInput (node : Node) (s : Snapshot)
  (clock : list Z) : outcome (option error * Node * Snapshot * list Z) :=
  match SnapshotsReadSnapshotByTransactionHash store
          (TransactionPayloadHash D (sTransaction s)) with
  | Err _ => Returns (None, node, s, clock)
  | Ok (Some _) => Returns (None, node, s, clock)
  | Ok None =>
      match Validate D (sTransaction s) with
      | Some _ => Returns (None, node, s, clock)
      | None =>
          '(err, node, s, clock) ←
            ('(links, cache, final, err, node, s, clock) ←
               propose node s clock;
             match err with
             | Some e => Returns (Some e, node, s, clock)
             | None =>
                 if verifyFinalization node s then
                   let r := finalize node s links cache final in
                   Returns (r.1, r.2, s, clock)
                 else cosign node s cache final clock
             end);
          Returns (err,
                   setGraph node
                     (UpdateFinalCache rangeFinal (nGraph node)),
                   s, clock)
      end
  end.

End Kernel.

(** ** Notions used to state the properties *)

(** What the kernel expects of the library on a slice of more than 12
    elements, for a [less] that is total and transitive as the one of
    [asFinal] is: the elements are permuted into ascending order. *)
Definition sortsLong (lib : GoSort) : Prop :=
  forall (A : Type) (less : A -> A -> bool) (data : list A),
    (forall a b, less a b = false -> less b a = true) ->
    (forall a b c, less a b = true -> less b c = true -> less a c = true) ->
    (12 < length data)%nat ->
    sortLong lib A less data ≡ₚ data /\
    StronglySorted (lessP less) (sortLong lib A less data).

(** [final] is the first entry of [finals] that belongs to another node
    than the producer of [s] and has the hash [ref1]. *)
Definition firstMatch (s : Snapshot) (ref1 : Hash)
  (finals : list (Hash * FinalRound)) (final : FinalRound) : Prop :=
  exists pre k post,
    finals = pre ++ (k, final) :: post /\
    Forall (fun kf => fNodeId kf.2 = sNodeId s \/ fHash kf.2 <> ref1) pre /\
    fNodeId final <> sNodeId s /\ fHash final = ref1.

(** A round link read from the store exceeds the link proposed for it:
    the link to the producer itself, or, when that one is in order, the
    link to [final]. *)
Definition linkRegresses (store : Store) (self : FinalRound) (s : Snapshot)
  (final : FinalRound) : Prop :=
  exists selfLink,
    SnapshotsReadRoundLink store (sNodeId s) (fNodeId self) = Ok selfLink /\
    (fNumber self < selfLink \/
     exists finalLink,
       SnapshotsReadRoundLink store (sNodeId s) (fNodeId final)
       = Ok finalLink /\
       fNumber final < finalLink).

(** The head round numbers that the store hands out are [uint64]
    values. *)
Definition storeInRange (store : Store) : Prop :=
  forall id number start,
    SnapshotsReadRoundMeta store id = Ok (number, start) -> u64 number.

(** The nodes that the kernel can be in: the graph has been loaded from a
    store, and snapshots have been handled one after the other. The
    store, the order of the ranges and the clock may differ from call to
    call. *)
Inductive Reachable (D : Deps) : Node -> Prop :=
| Reachable_load store rangeFinal graph node :
    storeInRange store ->
    LoadRoundGraph (NewHash D) (Payload D) store rangeFinal
    = Returns (Ok graph) ->
    nGraph node = graph ->
    Reachable D node
| Reachable_handle store rangeFinal node s clock err node' s' clock' :
    Reachable D node ->
    handleSnapshotInput D store rangeFinal node s clock
    = Returns (err, node', s', clock') ->
    Reachable D node'.

(** The cache round is the successor of the final round. *)
Definition paired (c : CacheRound) (f : FinalRound) : Prop :=
  u64 (fNumber f) /\ cNumber c = add64 (fNumber f) 1.

Definition graphPaired (g : RoundGraph) : Prop :=
  forall N,
    (is_Some (gCacheRound g !! N) <-> is_Some (gFinalRound g !! N)) /\
    forall c f,
      gCacheRound g !! N = Some c -> gFinalRound g !! N = Some f ->
      paired c f.

(** The number of the final round that [LoadRoundGraph] reads for a head
    round. *)
Definition finalNumberFor (cache : CacheRound) : Z :=
  if cNumber cache =? 0 then cNumber cache else sub64 (cNumber cache) 1.

(** ** Concrete instances *)

Module Sample.

(** A hash without collisions: the hashed bytes themselves. *)
Definition plainHash (b : list byte) : Hash := b.

(** A payload that carries the transaction and the timestamp. *)
Definition plainPayload (s : Snapshot) : list byte :=
  sTransaction s ++ PutUint64 (sTimestamp s).

(** A library of Go 1.19 or later; the slices of the samples are
    short, and a long one would be sorted by insertion as well. *)
Definition library : GoSort :=
  {| beforeGo119 := false;
     sortLong := fun A less data => insertionSort_func less data |}.

Definition idA : Hash := ["a"%byte].
Definition idB : Hash := ["b"%byte].
Definition idC : Hash := ["c"%byte].

Definition snap (id : Hash) (tx : byte) (number t : Z)
  (sigs : list Signature) : Snapshot :=
  {| sNodeId := id; sTransaction := [tx]; sReferences := ([], []);
     sRoundNumber := number; sTimestamp := t; sSignatures := sigs |}.

(** Two snapshots of one round with the same timestamp. *)
Definition tie1 : Snapshot := snap idA "1"%byte 3 7 [].
Definition tie2 : Snapshot := snap idA "2"%byte 3 7 [].

(** A snapshot of the same round with a later timestamp. *)
Definition later : Snapshot := snap idA "2"%byte 3 9 [].

Definition roundOf (l : list Snapshot) : CacheRound :=
  {| cNodeId := idA; cNumber := 3; cStart := 7; cEnd := 7;
     cSnapshots := l |}.

End Sample.

Module World.
Import Sample.

(** Signing with a key yields the key itself, and a signature verifies
    under the key it is equal to. *)
Definition deps : Deps :=
  {| sortPackage := library;
     NewHash := plainHash;
     Payload := plainPayload;
     PayloadHash := fun s => plainHash (plainPayload s);
     TransactionPayloadHash := fun tx => tx;
     Validate := fun _ => None;
     LockInputs := fun _ => None;
     Verify := fun key _ sig => bool_decide (sig = key);
     Sign := fun s key => setSignatures s (sSignatures s ++ [key]);
     ForNetwork := fun h id => h ++ id;
     SendSnapshotMessage := fun _ _ => None;
     TopoNext := fun n => (n, n + 1);
     SnapshotRoundGap := 10;
     zeroTime := -1000 |}.

Definition keyA : Key := ["A"%byte].
Definition keyB : Key := ["B"%byte].
Definition keyC : Key := ["C"%byte].

Definition genesisA : Snapshot := snap idA "g" 0 5 [keyA; keyB; keyC].
Definition genesisB : Snapshot := snap idB "h" 0 6 [keyA; keyB; keyC].
Definition firstB : Snapshot := snap idB "i" 1 12 [keyA; keyB; keyC].

(** A store in which [idA] never finalized a round and [idB] has
    its head at round 2; [write] is the answer to every write. *)
Definition storeWith (write : option error) : Store :=
  {| SnapshotsReadNodesList := Ok [idA; idB];
     SnapshotsReadRoundMeta := fun id =>
       if bool_decide (id = idB) then Ok (2, 30) else Ok (0, 0);
     SnapshotsReadSnapshotsForNodeRound := fun id number =>
       if bool_decide (id = idA) then
         if number =? 0 then Ok [genesisA] else Ok []
       else if bool_decide (id = idB) then
         if number =? 0 then Ok [genesisB]
         else if number =? 1 then Ok [firstB] else Ok []
       else Ok [];
     SnapshotsReadSnapshotByTransactionHash := fun _ => Ok None;
     SnapshotsReadRoundLink := fun _ _ => Ok 0;
     SnapshotsWriteSnapshot := fun _ => write |}.

Definition store : Store := storeWith None.

Definition range (m : gmap Hash FinalRound) : list (Hash * FinalRound) :=
  map_to_list m.

Definition consensus : list ConsensusNode :=
  [ {| cnIsAccepted := true; cnPublicSpendKey := keyA;
       cnIdForNetwork := idA |};
    {| cnIsAccepted := true; cnPublicSpendKey := keyB;
       cnIdForNetwork := idB |};
    {| cnIsAccepted := true; cnPublicSpendKey := keyC;
       cnIdForNetwork := idC |} ].

Definition nodeOn (g : RoundGraph) : Node :=
  {| nIdForNetwork := idA; nPrivateSpendKey := keyA;
     nConsensusNodes := consensus; nGraph := g;
     nSnapshotsPool := ∅; nConsensusCache := ∅; nTopoCounter := 0 |}.

Definition loaded (st : Store) : RoundGraph :=
  match LoadRoundGraph plainHash plainPayload st range with
  | Returns (Ok g) => g
  | _ => emptyGraph
  end.

End World.

Module Cases.
Import Sample World.

(** Two accepted consensus nodes with the same public spend key. *)
Definition twins : list ConsensusNode :=
  [ {| cnIsAccepted := true; cnPublicSpendKey := keyA;
       cnIdForNetwork := idA |};
    {| cnIsAccepted := true; cnPublicSpendKey := keyA;
       cnIdForNetwork := idB |} ].

(** One accepted consensus node among three. *)
Definition oneAccepted : list ConsensusNode :=
  [ {| cnIsAccepted := true; cnPublicSpendKey := keyA;
       cnIdForNetwork := idA |};
    {| cnIsAccepted := false; cnPublicSpendKey := keyB;
       cnIdForNetwork := idB |};
    {| cnIsAccepted := false; cnPublicSpendKey := keyC;
       cnIdForNetwork := idC |} ].

Definition nodeWith (cns : list ConsensusNode) : Node :=
  {| nIdForNetwork := idA; nPrivateSpendKey := keyA;
     nConsensusNodes := cns; nGraph := emptyGraph;
     nSnapshotsPool := ∅; nConsensusCache := ∅; nTopoCounter := 0 |}.

Definition signedOnce : Snapshot := snap idB "t" 1 40 [keyA].

End Cases.

Module Verifier.
Import Sample World.

Definition node : Node := nodeOn (loaded store).

Definition finalOf (id : Hash) : FinalRound :=
  default {| fNodeId := id; fNumber := 0; fStart := 0; fEnd := 0;
             fHash := zeroHash |}
    (gFinalRound (nGraph node) !! id).

(** A snapshot of [idB] for its round 2 that refers to the final
    rounds of [idB] and of [idA]. *)
Definition incoming (t : Z) (sigs : list Signature) : Snapshot :=
  {| sNodeId := idB; sTransaction := ["u"%byte];
     sReferences := (fHash (finalOf idB), fHash (finalOf idA));
     sRoundNumber := 2; sTimestamp := t; sSignatures := sigs |}.

(** The same snapshot announced for round 7. *)
Definition misaligned : Snapshot :=
  {| sNodeId := idB; sTransaction := ["u"%byte];
     sReferences := (fHash (finalOf idB), fHash (finalOf idA));
     sRoundNumber := 7; sTimestamp := 35; sSignatures := [keyB] |}.

End Verifier.

Module Bootstrap.
Import Sample.

(** A store with one validator that has no snapshot at all. *)
Definition storeNoGenesis : Store :=
  {| SnapshotsReadNodesList := Ok [idA];
     SnapshotsReadRoundMeta := fun _ => Ok (0, 0);
     SnapshotsReadSnapshotsForNodeRound := fun _ _ => Ok [];
     SnapshotsReadSnapshotByTransactionHash := fun _ => Ok None;
     SnapshotsReadRoundLink := fun _ _ => Ok 0;
     SnapshotsWriteSnapshot := fun _ => None |}.

End Bootstrap.

Module Handled.
Import Sample World.

(** A fresh snapshot produced by this node. *)
Definition fresh : Snapshot := snap idA "t" 0 0 [].

Definition clock : list Z :=
  [100; 101; 102; 103; 104; 105; 106; 107; 108; 109].

Definition before : Node := nodeOn (loaded store).

Definition after : Node :=
  match handleSnapshotInput deps store range before fresh clock with
  | Returns (_, node, _, _) => node
  | _ => before
  end.

(** A snapshot of [idB] that carries the three signatures, and a store
    that refuses the write. *)
Definition finalized : Snapshot :=
  Verifier.incoming 35 [keyA; keyB; keyC].

Definition failing : Store := storeWith (Some (ExternalError 5)).

End Handled.

(** ** [RoundGraph.Print] *)

(** The line feed that ends every line of the description. *)
Definition lineFeed : string := String (Ascii.ascii_of_N 10) EmptyString.

Section Print.

(** The verbs [%s] and [%d] of [fmt.Sprintf], for a hash and for a
    [uint64]. *)
Variable formatHash : Hash -> string.
Variable formatUint : Z -> string.

(** The loop [for _, id := range g.Nodes]; [final.Number] and
    [cache.Number] dereference the entry of the map, and a missing
    entry is a nil pointer. *)
Fixpoint printNodes (g : RoundGraph) (nodes : list Hash) (desc : string)
  : outcome string :=
  match nodes with
  | [] => Returns desc
  | id :: rest =>
      let desc := (desc ++ "NODE# " ++ formatHash id ++ lineFeed)%string in
      match gFinalRound g !! id with
      | None => Panics
      | Some final =>
          let desc :=
            (desc ++ "FINAL " ++ formatUint (fNumber final) ++ " "
             ++ formatUint (fStart final) ++ " "
             ++ formatHash (fHash final) ++ lineFeed)%string in
          match gCacheRound g !! id with
          | None => Panics
          | Some cache =>
              let desc :=
                (desc ++ "CACHE " ++ formatUint (cNumber cache) ++ " "
                 ++ formatUint (cStart cache) ++ lineFeed)%string in
              printNodes g rest desc
          end
      end
  end.

Definition Print (g : RoundGraph) : outcome string :=
  desc ← printNodes g (gNodes g) ("ROUND GRAPH BEGIN" ++ lineFeed)%string;
  Returns (desc ++ "ROUND GRAPH END")%string.

End Print.

(** ** Further notions used to state the properties *)

(** The accepted consensus nodes whose key verifies [sig] over [msg]. *)
Definition verifiers (D : Deps) (cns : list ConsensusNode)
  (msg : list byte) (sig : Signature) : list ConsensusNode :=
  filter (fun cn => cnIsAccepted cn = true /\
                    Verify D (cnPublicSpendKey cn) msg sig = true) cns.

(** Every round of the graph is stored under its own node id. *)
Definition graphKeyed (g : RoundGraph) : Prop :=
  forall N,
    (forall c, gCacheRound g !! N = Some c -> cNodeId c = N) /\
    (forall f, gFinalRound g !! N = Some f -> fNodeId f = N).

(** The entry of [FinalCache] made for a final round. *)
Definition finalCacheEntry (f : FinalRound) : FinalRound :=
  {| fNodeId := fNodeId f; fNumber := fNumber f; fStart := fStart f;
     fEnd := 0; fHash := zeroHash |}.

(** An error that the store or the peer has returned. *)
Definition fromCollaborator (D : Deps) (store : Store) (e : error) : Prop :=
  (exists from to, SnapshotsReadRoundLink store from to = Err e) \/
  (exists topo, SnapshotsWriteSnapshot store topo = Some e) \/
  (exists peer s, SendSnapshotMessage D peer s = Some e).

(** An error that a read of the store has returned while loading. *)
Definition fromStoreRead (store : Store) (e : error) : Prop :=
  SnapshotsReadNodesList store = Err e \/
  (exists id, SnapshotsReadRoundMeta store id = Err e) \/
  (exists id number,
      SnapshotsReadSnapshotsForNodeRound store id number = Err e).

(** The identity of a node: the fields that no call writes. *)
Definition sameIdentity (node node' : Node) : Prop :=
  nIdForNetwork node' = nIdForNetwork node /\
  nPrivateSpendKey node' = nPrivateSpendKey node /\
  nConsensusNodes node' = nConsensusNodes node.


(** The signatures of [input] in the order of their first occurrence,
    without those of [filter]: the signatures for which the outer loop
    of [clearConsensusSignatures] runs its body. *)
Fixpoint firstOccurrences (input : list Signature) (filter : gset Signature)
  : list Signature :=
  match input with
  | [] => []
  | sig :: rest =>
      if decide (sig ∈ filter) then firstOccurrences rest filter
      else sig :: firstOccurrences rest ({[sig]} ∪ filter)
  end.

(** The copies of [sig] that one run of the inner loop of
    [clearConsensusSignatures] appends. *)
Definition copies (D : Deps) (cns : list ConsensusNode) (msg : list byte)
  (sig : Signature) : list Signature :=
  replicate (length (verifiers D cns msg sig)) sig.

Module More.
Import Sample World.

(** Two snapshots of round 2 of [idB]. *)
Definition secondB : Snapshot := snap idB "j" 2 31 [keyA; keyB; keyC].
Definition thirdB : Snapshot := snap idB "k" 2 33 [keyA; keyB; keyC].

(** The sample store with these two snapshots in the head round of
    [idB]. *)
Definition storeHead : Store :=
  {| SnapshotsReadNodesList := Ok [idA; idB];
     SnapshotsReadRoundMeta := SnapshotsReadRoundMeta store;
     SnapshotsReadSnapshotsForNodeRound := fun id number =>
       if bool_decide (id = idB) && (number =? 2)
       then Ok [secondB; thirdB]
       else SnapshotsReadSnapshotsForNodeRound store id number;
     SnapshotsReadSnapshotByTransactionHash := fun _ => Ok None;
     SnapshotsReadRoundLink := fun _ _ => Ok 0;
     SnapshotsWriteSnapshot := fun _ => None |}.

(** A store that hands out, for every round, the snapshots of a cache
    round in the order in which [asFinal] leaves them. *)
Definition sealedRound : CacheRound := roundOf [later; tie1].

Definition storeSealed : Store :=
  {| SnapshotsReadNodesList := Ok [idA];
     SnapshotsReadRoundMeta := fun _ => Ok (4, 20);
     SnapshotsReadSnapshotsForNodeRound := fun _ _ =>
       Ok (cSnapshots
             (asFinal library plainHash plainPayload sealedRound).1);
     SnapshotsReadSnapshotByTransactionHash := fun _ => Ok None;
     SnapshotsReadRoundLink := fun _ _ => Ok 0;
     SnapshotsWriteSnapshot := fun _ => None |}.

(** A store that cannot list its nodes. *)
Definition storeNoList : Store :=
  {| SnapshotsReadNodesList := Err (ExternalError 7);
     SnapshotsReadRoundMeta := fun _ => Ok (0, 0);
     SnapshotsReadSnapshotsForNodeRound := fun _ _ => Ok [];
     SnapshotsReadSnapshotByTransactionHash := fun _ => Ok None;
     SnapshotsReadRoundLink := fun _ _ => Ok 0;
     SnapshotsWriteSnapshot := fun _ => None |}.

Definition formatHash (h : Hash) : string := "h".
Definition formatUint (z : Z) : string := "n".

(** A snapshot that carries a signature twice. *)
Definition repeated : Snapshot := snap idB "t" 1 40 [keyA; keyB; keyA].

(** The loaded node with two signatures in its pool for the snapshot
    [Verifier.incoming 35 _], which arrives with two signatures. *)
Definition pooled : Node :=
  setSnapshotsPool Handled.before
    {[ PayloadHash deps (Verifier.incoming 35 []) := [keyC; keyA] ]}.

Definition arriving : Snapshot := Verifier.incoming 35 [keyA; keyB].

(** The parts of what [handleSnapshotInput] returns; a call that does
    not return yields the node and the snapshot it was given. *)
Definition handled (st : Store) (node : Node) (s : Snapshot)
  : outcome (option error * Node * Snapshot * list Z) :=
  handleSnapshotInput deps st range node s Handled.clock.

Definition errorOf (r : outcome (option error * Node * Snapshot * list Z))
  : option error :=
  match r with Returns (e, _, _, _) => e | _ => None end.

Definition nodeOf (r : outcome (option error * Node * Snapshot * list Z))
  (node : Node) : Node :=
  match r with Returns (_, n, _, _) => n | _ => node end.

Definition snapshotOf
  (r : outcome (option error * Node * Snapshot * list Z)) (s : Snapshot)
  : Snapshot :=
  match r with Returns (_, _, x, _) => x | _ => s end.

Definition clockOf (r : outcome (option error * Node * Snapshot * list Z))
  : list Z :=
  match r with Returns (_, _, _, c) => c | _ => [] end.

(** The parts of what [propose] returns for [Handled.finalized]. *)
Definition proposal
  : outcome (gmap Hash Z * CacheRound * FinalRound * option error
             * Node * Snapshot * list Z) :=
  propose deps store range Handled.before Handled.finalized Handled.clock.

Definition proposedLinks : gmap Hash Z :=
  match proposal with Returns (l, _, _, _, _, _, _) => l | _ => ∅ end.

Definition proposedCache : CacheRound :=
  match proposal with
  | Returns (_, c, _, _, _, _, _) => c
  | _ => emptyCacheRound idB
  end.

Definition proposedFinal : FinalRound :=
  match proposal with
  | Returns (_, _, f, _, _, _, _) => f
  | _ => Verifier.finalOf idB
  end.

Definition proposedNode : Node :=
  match proposal with
  | Returns (_, _, _, _, n, _, _) => n
  | _ => Handled.before
  end.

Definition proposedSnapshot : Snapshot :=
  match proposal with
  | Returns (_, _, _, _, _, x, _) => x
  | _ => Handled.finalized
  end.

Definition proposedClock : list Z :=
  match proposal with Returns (_, _, _, _, _, _, c) => c | _ => [] end.

(** The cache round of [idB] in the loaded graph, and what
    [verifyReferences] answers for the arriving snapshot. *)
Definition cacheB : CacheRound :=
  {| cNodeId := idB; cNumber := 2; cStart := 30; cEnd := 0;
     cSnapshots := [] |}.

Definition arrivingLinks : gmap Hash Z :=
  match verifyReferences store range pooled (Verifier.finalOf idB)
          arriving with
  | Returns (l, _, _) => l
  | _ => ∅
  end.

(** What [verifySnapshot] returns for the arriving snapshot. *)
Definition verified
  : outcome (gmap Hash Z * CacheRound * FinalRound * option error
             * Node * Snapshot) :=
  verifySnapshot deps store range pooled arriving.

Definition verifiedNode : Node :=
  match verified with Returns (_, _, _, _, n, _) => n | _ => pooled end.

Definition verifiedSnapshot : Snapshot :=
  match verified with Returns (_, _, _, _, _, x) => x | _ => arriving end.

Definition verifiedError : option error :=
  match verified with Returns (_, _, _, e, _, _) => e | _ => None end.

(** The node loaded from the store whose head round of [idB] holds
    two finalized snapshots, and a snapshot of [idB] that still names
    round 2 and arrives after the round gap has passed. *)
Definition sealing : Node := nodeOn (loaded storeHead).

Definition stale : Snapshot :=
  {| sNodeId := idB; sTransaction := ["u"%byte];
     sReferences := (fHash (Verifier.finalOf idB),
                     fHash (Verifier.finalOf idA));
     sRoundNumber := 2; sTimestamp := 45; sSignatures := [keyB] |}.

(** The rounds of [idB] in that node, and the rounds after the round
    advance for [stale]. *)
Definition headB : CacheRound :=
  {| cNodeId := idB; cNumber := 2; cStart := 30; cEnd := 33;
     cSnapshots := [secondB; thirdB] |}.

Definition openedB : CacheRound :=
  {| cNodeId := idB; cNumber := 3; cStart := 45; cEnd := 45;
     cSnapshots := [] |}.

Definition sealedB : FinalRound :=
  (asFinal library plainHash plainPayload headB).2.

Definition staleHandled
  : outcome (option error * Node * Snapshot * list Z) :=
  handleSnapshotInput deps storeHead range sealing stale Handled.clock.

End More.

(** * Properties *)

Lemma swap_perm {A} (i j : nat) (data : list A) : swap i j data ≡ₚ data.
Proof.
  unfold swap.
  destruct (data !! i) as [x|] eqn:Hi; [|done].
  destruct (data !! j) as [y|] eqn:Hj; [|done].
  assert (forall (l : list A) k a b,
             l !! k = Some b -> b :: <[k := a]> l ≡ₚ a :: l) as Hone.
  { induction l as [|c l IH]; intros k a b Hk; [done|].
    destruct k as [|k]; simpl in *.
    - injection Hk as ->. apply perm_swap.
    - rewrite perm_swap, (IH k a b Hk). apply perm_swap. }
  revert i j Hi Hj.
  induction data as [|c l IH]; intros i j Hi Hj; [done|].
  destruct i as [|i], j as [|j]; simpl in *.
  - by injection Hi as ->; injection Hj as ->.
  - injection Hi as ->. by apply Hone.
  - injection Hj as ->. by apply Hone.
  - by rewrite IH.
Qed.

Lemma gapPass_perm {A} (less : A -> A -> bool) (a b : nat) (data : list A) :
  gapPass less a b data ≡ₚ data.
Proof.
  unfold gapPass. generalize (seq (a + 6) (b - (a + 6))). intros is_.
  revert data. induction is_ as [|i is_ IH]; intros data; simpl; [done|].
  rewrite IH. destruct (lessAt less data i (i - 6)); [|done].
  apply swap_perm.
Qed.

Section SortSlice.
Context {A : Type} (less : A -> A -> bool).

Lemma sift_perm x l : sift less x l ≡ₚ x :: l.
Proof.
  induction l as [|y ys IH]; simpl; [done|].
  destruct (less x y); [|done].
  rewrite IH. apply perm_swap.
Qed.

Lemma insertionSort_func_perm l : insertionSort_func less l ≡ₚ l.
Proof.
  unfold insertionSort_func.
  assert (forall acc, fold_left (fun left x => sift less x left) l acc
                      ≡ₚ rev l ++ acc) as H.
  { induction l as [|x xs IH]; intros acc; simpl; [done|].
    rewrite IH, sift_perm. by rewrite <- app_assoc. }
  rewrite <- Permutation_rev, H, app_nil_r.
  symmetry. apply Permutation_rev.
Qed.

Hypothesis less_total : forall a b, less a b = false -> less b a = true.
Hypothesis less_trans : forall a b c,
    less a b = true -> less b c = true -> less a c = true.

Lemma sift_sorted x l :
  StronglySorted (flip (lessP less)) l ->
  StronglySorted (flip (lessP less)) (sift less x l).
Proof.
  induction l as [|y ys IH]; simpl; intros Hs.
  { repeat constructor. }
  apply StronglySorted_inv in Hs as [Hys Hy].
  destruct (less x y) eqn:E.
  - constructor; [by apply IH|].
    rewrite sift_perm. constructor; [exact E|exact Hy].
  - constructor; [by constructor|].
    constructor; [by apply less_total|].
    eapply Forall_impl; [exact Hy|].
    intros z Hz. unfold flip, lessP in *. eapply less_trans; [exact Hz|].
    by apply less_total.
Qed.

Lemma StronglySorted_rev_flip (l : list A) :
  StronglySorted (flip (lessP less)) l -> StronglySorted (lessP less) (rev l).
Proof.
  induction 1 as [|x l Hl IH Hx]; simpl; [constructor|].
  apply StronglySorted_app_2; [|exact IH|repeat constructor].
  intros x1 x2 H1 H2. apply list_elem_of_singleton in H2 as ->.
  rewrite Forall_forall in Hx. apply Hx.
  apply list_elem_of_In. apply in_rev. by apply list_elem_of_In.
Qed.

Lemma insertionSort_func_sorted l :
  StronglySorted (lessP less) (insertionSort_func less l).
Proof.
  unfold insertionSort_func. apply StronglySorted_rev_flip.
  assert (forall acc, StronglySorted (flip (lessP less)) acc ->
            StronglySorted (flip (lessP less))
              (fold_left (fun left x => sift less x left) l acc)) as H.
  { induction l as [|x xs IH]; intros acc Hacc; simpl; [done|].
    apply IH. by apply sift_sorted. }
  apply H. constructor.
Qed.

(** Up to 12 elements [sort.Slice] sorts by insertion, whatever the
    release; beyond, it sorts when the library does. *)
Lemma sort_Slice_sorts lib l :
  ((12 < length l)%nat -> sortsLong lib) ->
  sort_Slice lib less l ≡ₚ l /\
  StronglySorted (lessP less) (sort_Slice lib less l).
Proof.
  intros Hlong. unfold sort_Slice.
  destruct (Nat.leb_spec (length l) 12) as [Hle|Hgt].
  - split; [|apply insertionSort_func_sorted].
    rewrite insertionSort_func_perm.
    destruct (beforeGo119 lib); [apply gapPass_perm|done].
  - by apply (Hlong Hgt).
Qed.
End SortSlice.

Lemma StronglySorted_mono {A} (R1 R2 : A -> A -> Prop) l :
  (forall a b, R1 a b -> R2 a b) -> StronglySorted R1 l -> StronglySorted R2 l.
Proof.
  intros HR. induction 1 as [|x l Hl IH Hx]; constructor; [done|].
  eapply Forall_impl; [exact Hx|]. intros; by apply HR.
Qed.

Lemma byTimestamp_total a b : byTimestamp a b = false -> byTimestamp b a = true.
Proof. unfold byTimestamp. rewrite Z.leb_gt, Z.leb_le. lia. Qed.

Lemma byTimestamp_trans a b c :
  byTimestamp a b = true -> byTimestamp b c = true -> byTimestamp a c = true.
Proof. unfold byTimestamp. rewrite !Z.leb_le. lia. Qed.

Lemma sort_byTimestamp_sorts lib l :
  ((12 < length l)%nat -> sortsLong lib) ->
  sort_Slice lib byTimestamp l ≡ₚ l /\
  StronglySorted (fun a b => sTimestamp a <= sTimestamp b)
    (sort_Slice lib byTimestamp l).
Proof.
  intros Hlong.
  destruct (sort_Slice_sorts byTimestamp byTimestamp_total
              byTimestamp_trans lib l Hlong) as [Hperm Hsorted].
  split; [exact Hperm|].
  eapply StronglySorted_mono; [|exact Hsorted].
  intros a b. unfold lessP, byTimestamp. by rewrite Z.leb_le.
Qed.

Lemma appendPayloadHashes_concat NewHash Payload l hashes :
  appendPayloadHashes NewHash Payload hashes l
  = hashes ++ concat (map (fun s => NewHash (Payload s)) l).
Proof.
  revert hashes. induction l as [|s l IH]; intros hashes; simpl.
  - by rewrite app_nil_r.
  - unfold appendPayloadHashes in *. simpl. by rewrite IH, <- app_assoc.
Qed.

Lemma CacheRound_Copy_id c : CacheRound_Copy c = c.
Proof. by destruct c. Qed.

(** C10. [asFinal] leaves the receiver's snapshot slice permuted into
    ascending order of timestamp; the receiver's [NodeId], [Number],
    [Start] and [End] are unchanged, and the returned round carries the
    same four values. For a round of more than 12 snapshots the order
    is the work of the library's quicksort, which is taken to sort. *)
Theorem asFinal_sorts_receiver_in_place lib NewHash Payload
  (c : CacheRound) :
  ((12 < length (cSnapshots c))%nat -> sortsLong lib) ->
  let r := asFinal lib NewHash Payload c in
  cSnapshots r.1 ≡ₚ cSnapshots c /\
  StronglySorted (fun a b => sTimestamp a <= sTimestamp b) (cSnapshots r.1) /\
  (cNodeId r.1 = cNodeId c /\ cNumber r.1 = cNumber c /\
   cStart r.1 = cStart c /\ cEnd r.1 = cEnd c) /\
  (fNodeId r.2 = cNodeId c /\ fNumber r.2 = cNumber c /\
   fStart r.2 = cStart c /\ fEnd r.2 = cEnd c).
Proof.
  intros Hlong. simpl.
  destruct (sort_byTimestamp_sorts lib (cSnapshots c) Hlong) as [Hp Hs].
  done.
Qed.

Lemma sorted_payloads_unique (Payload : Snapshot -> list byte)
  (l1 l2 : list Snapshot) :
  StronglySorted (fun a b => sTimestamp a <= sTimestamp b) l1 ->
  StronglySorted (fun a b => sTimestamp a <= sTimestamp b) l2 ->
  l1 ≡ₚ l2 ->
  (forall a b, a ∈ l1 -> b ∈ l1 -> sTimestamp a = sTimestamp b ->
               Payload a = Payload b) ->
  map Payload l1 = map Payload l2.
Proof.
  intros H1 H2 Hp Htie.
  set (g := fun s : Snapshot => (sTimestamp s, Payload s)).
  set (R := fun p q : Z * list byte => p.1 <= q.1).
  assert (g <$> l1 = g <$> l2) as Heq.
  { apply (StronglySorted_unique_strong R).
    - intros x1 x2 Hx1 Hx2 H12 H21.
      apply list_elem_of_fmap in Hx1 as (a & -> & Ha).
      apply list_elem_of_fmap in Hx2 as (b & -> & Hb).
      rewrite <- Hp in Hb. unfold R, g in *; simpl in *.
      f_equal; [lia|]. apply Htie; [done..|lia].
    - eapply StronglySorted_fmap; [|exact H1]. by intros.
    - eapply StronglySorted_fmap; [|exact H2]. by intros.
    - by apply fmap_Permutation. }
  apply (f_equal (fmap snd)) in Heq.
  rewrite <- !list_fmap_compose in Heq. exact Heq.
Qed.

(** A round of two snapshots, the later one inserted first. *)
Lemma asFinal_sorts_receiver_in_place_witness :
  cSnapshots (asFinal Sample.library Sample.plainHash Sample.plainPayload
                (Sample.roundOf [Sample.later; Sample.tie1])).1
  ≡ₚ [Sample.later; Sample.tie1] /\
  StronglySorted (fun a b => sTimestamp a <= sTimestamp b)
    (cSnapshots (asFinal Sample.library Sample.plainHash
                   Sample.plainPayload
                   (Sample.roundOf [Sample.later; Sample.tie1])).1).
Proof.
  destruct (asFinal_sorts_receiver_in_place Sample.library
              Sample.plainHash Sample.plainPayload
              (Sample.roundOf [Sample.later; Sample.tie1]))
    as (Hperm & Hsorted & _).
  - simpl. lia.
  - split; [exact Hperm|exact Hsorted].
Defined.

(** C1, as amended. Two cache rounds with the same [NodeId] and [Number]
    whose snapshot lists are permutations of one another, and in which
    snapshots of equal timestamp have equal payloads, are sealed by
    [asFinal] into the same hash: the snapshots are put in ascending
    order of timestamp and the hash is taken over
    [NodeId ‖ BE64(Number) ‖ H(payload)...] in that order. Up to 12
    snapshots the order is the work of the insertion sort of
    [sort.Slice]; beyond, of the library's quicksort, which is taken to
    sort. *)
Theorem asFinal_hash_deterministic lib NewHash Payload
  (c1 c2 : CacheRound) :
  ((12 < length (cSnapshots c1))%nat -> sortsLong lib) ->
  cNodeId c1 = cNodeId c2 ->
  cNumber c1 = cNumber c2 ->
  cSnapshots c1 ≡ₚ cSnapshots c2 ->
  (forall a b, a ∈ cSnapshots c1 -> b ∈ cSnapshots c1 ->
               sTimestamp a = sTimestamp b -> Payload a = Payload b) ->
  let r1 := asFinal lib NewHash Payload c1 in
  let r2 := asFinal lib NewHash Payload c2 in
  StronglySorted (fun a b => sTimestamp a <= sTimestamp b) (cSnapshots r1.1) /\
  cSnapshots r1.1 ≡ₚ cSnapshots c1 /\
  fHash r1.2
  = NewHash (cNodeId c1 ++ PutUint64 (cNumber c1)
             ++ concat (map (fun s => NewHash (Payload s))
                          (cSnapshots r1.1))) /\
  fHash r1.2 = fHash r2.2.
Proof.
  intros Hlong Hid Hnum Hperm Htie. simpl.
  destruct (sort_byTimestamp_sorts lib (cSnapshots c1) Hlong) as [Hp1 Hs1].
  destruct (sort_byTimestamp_sorts lib (cSnapshots c2)) as [Hp2 Hs2].
  { rewrite <- Hperm. exact Hlong. }
  split; [exact Hs1|]. split; [exact Hp1|].
  rewrite !appendPayloadHashes_concat, <- !app_assoc.
  split; [done|].
  rewrite <- Hid, <- Hnum. do 3 f_equal.
  assert (map Payload (sort_Slice lib byTimestamp (cSnapshots c1))
          = map Payload (sort_Slice lib byTimestamp (cSnapshots c2)))
    as Heq.
  { apply sorted_payloads_unique; [exact Hs1|exact Hs2|..].
    - by rewrite Hp1, Hp2.
    - intros a b. rewrite !Hp1. apply Htie. }
  apply (f_equal (map NewHash)) in Heq.
  rewrite !map_map in Heq. by rewrite Heq.
Qed.

(** Two snapshots with the timestamps 7 and 9, inserted in both
    orders. *)
Lemma asFinal_hash_deterministic_witness :
  fHash (asFinal Sample.library Sample.plainHash Sample.plainPayload
           (Sample.roundOf [Sample.tie1; Sample.later])).2
  = fHash (asFinal Sample.library Sample.plainHash Sample.plainPayload
             (Sample.roundOf [Sample.later; Sample.tie1])).2.
Proof.
  apply (asFinal_hash_deterministic Sample.library Sample.plainHash
           Sample.plainPayload
           (Sample.roundOf [Sample.tie1; Sample.later])
           (Sample.roundOf [Sample.later; Sample.tie1]));
    [simpl; lia | reflexivity | reflexivity | apply perm_swap |].
  intros a b Ha Hb. simpl in Ha, Hb.
  apply list_elem_of_In in Ha, Hb. simpl in Ha, Hb.
  destruct Ha as [<-|[<-|[]]], Hb as [<-|[<-|[]]]; simpl; intros;
    try lia; reflexivity.
Defined.

(** C1, as stated, fails: two snapshots with the same timestamp are
    hashed in an order that depends on the order of insertion (the sort
    even exchanges them), so the same multiset gives two hashes. *)
Lemma asFinal_hash_depends_on_insertion_order :
  cNodeId (Sample.roundOf [Sample.tie1; Sample.tie2])
  = cNodeId (Sample.roundOf [Sample.tie2; Sample.tie1]) /\
  cNumber (Sample.roundOf [Sample.tie1; Sample.tie2])
  = cNumber (Sample.roundOf [Sample.tie2; Sample.tie1]) /\
  cSnapshots (Sample.roundOf [Sample.tie1; Sample.tie2])
  ≡ₚ cSnapshots (Sample.roundOf [Sample.tie2; Sample.tie1]) /\
  cSnapshots (asFinal Sample.library Sample.plainHash Sample.plainPayload
                (Sample.roundOf [Sample.tie1; Sample.tie2])).1
  = [Sample.tie2; Sample.tie1] /\
  fHash (asFinal Sample.library Sample.plainHash Sample.plainPayload
           (Sample.roundOf [Sample.tie1; Sample.tie2])).2
  <> fHash (asFinal Sample.library Sample.plainHash Sample.plainPayload
              (Sample.roundOf [Sample.tie2; Sample.tie1])).2.
Proof.
  split; [reflexivity|]. split; [reflexivity|].
  split; [apply perm_swap|]. split; [reflexivity|].
  vm_compute. discriminate.
Qed.

(** C5 fails on the code: the loop over the consensus nodes does not
    stop at the first key that verifies a signature, so a signature that
    verifies under the keys of two accepted nodes is kept twice. *)
Theorem clearConsensusSignatures_keeps_a_signature_twice :
  sSignatures Cases.signedOnce = [World.keyA] /\
  sSignatures
    (clearConsensusSignatures World.deps (Cases.nodeWith Cases.twins)
       Cases.signedOnce)
  = [World.keyA; World.keyA].
Proof. split; vm_compute; reflexivity. Qed.

(** C6, as amended. [verifyFinalization] answers [true] exactly when the
    number of signatures of [s] exceeds [2·n/3] in integer arithmetic,
    where [n] counts every consensus node of the node, accepted or not;
    that is, exactly when three times the number of signatures exceeds
    twice [n]. *)
Theorem verifyFinalization_threshold (node : Node) (s : Snapshot) :
  (verifyFinalization node s = true
   <-> len (nConsensusNodes node) * 2 / 3 < len (sSignatures s)) /\
  (verifyFinalization node s = true
   <-> 2 * len (nConsensusNodes node) < 3 * len (sSignatures s)).
Proof.
  unfold verifyFinalization. rewrite Z.ltb_lt. split; [done|].
  unfold len.
  set (n := Z.of_nat (length (nConsensusNodes node))).
  set (k := Z.of_nat (length (sSignatures s))).
  pose proof (Z.div_mod (n * 2) 3 ltac:(lia)) as Hd.
  pose proof (Z.mod_pos_bound (n * 2) 3 ltac:(lia)) as Hm.
  lia.
Qed.

(** C6, as stated, fails: with one accepted consensus node out of three
    and one signature, the signatures exceed two thirds of the accepted
    set, and [verifyFinalization] answers [false]. *)
Lemma verifyFinalization_counts_nodes_that_are_not_accepted :
  2 * len (filter (fun cn => cnIsAccepted cn = true)
             (nConsensusNodes (Cases.nodeWith Cases.oneAccepted))) / 3
  < len (sSignatures Cases.signedOnce) /\
  verifyFinalization (Cases.nodeWith Cases.oneAccepted) Cases.signedOnce
  = false.
Proof. split; vm_compute; reflexivity. Qed.

Section ClearSignatures.
Variable D : Deps.

Lemma appendVerified_elem cns msg sig sigs x :
  x ∈ appendVerified D cns msg sig sigs ->
  x ∈ sigs \/
  (x = sig /\
   exists cn, cn ∈ cns /\ cnIsAccepted cn = true /\
              Verify D (cnPublicSpendKey cn) msg sig = true).
Proof.
  revert sigs. induction cns as [|cn rest IH]; intros sigs H; simpl in H;
    [by left|].
  destruct (cnIsAccepted cn) eqn:Ea; simpl in H.
  - destruct (Verify D (cnPublicSpendKey cn) msg sig) eqn:Ev.
    + destruct (IH _ H) as [Hx|(-> & cn' & Hin & Ha & Hv)].
      * apply elem_of_app in Hx as [Hx|Hx]; [by left|].
        apply list_elem_of_singleton in Hx as ->. right. split; [done|].
        exists cn. split_and!; [by left|done..].
      * right. split; [done|]. exists cn'. split_and!; [by right|done..].
    + destruct (IH _ H) as [Hx|(-> & cn' & Hin & Ha & Hv)]; [by left|].
      right. split; [done|]. exists cn'. split_and!; [by right|done..].
  - destruct (IH _ H) as [Hx|(-> & cn' & Hin & Ha & Hv)]; [by left|].
    right. split; [done|]. exists cn'. split_and!; [by right|done..].
Qed.

Lemma clearLoop_elem cns msg input filter sigs x :
  x ∈ clearLoop D cns msg input filter sigs ->
  x ∈ sigs \/
  (x ∈ input /\
   exists cn, cn ∈ cns /\ cnIsAccepted cn = true /\
              Verify D (cnPublicSpendKey cn) msg x = true).
Proof.
  revert filter sigs.
  induction input as [|sig rest IH]; intros filter sigs H; simpl in H;
    [by left|].
  destruct (decide (sig ∈ filter)).
  - destruct (IH _ _ H) as [Hx|[Hx Hcn]]; [by left|].
    right. split; [by right|done].
  - destruct (IH _ _ H) as [Hx|[Hx Hcn]].
    + apply appendVerified_elem in Hx as [Hx|[-> Hcn]]; [by left|].
      right. split; [by left|done].
    + right. split; [by right|done].
Qed.

(** What [clearConsensusSignatures] does keep: only signatures of the
    input that verify against the payload under the key of an accepted
    consensus node; the other fields of the snapshot stay. *)
Lemma clearConsensusSignatures_keeps_verified node s x :
  x ∈ sSignatures (clearConsensusSignatures D node s) ->
  x ∈ sSignatures s /\
  exists cn, cn ∈ nConsensusNodes node /\ cnIsAccepted cn = true /\
             Verify D (cnPublicSpendKey cn) (Payload D s) x = true.
Proof.
  unfold clearConsensusSignatures. simpl. intros H.
  apply clearLoop_elem in H as [H|H]; [|done].
  by apply elem_of_nil in H.
Qed.
End ClearSignatures.

Section VerifyReferences.
Variable D : Deps.
Variable store : Store.
Variable rangeFinal : gmap Hash FinalRound -> list (Hash * FinalRound).

(** What the loop of [verifyReferences] does: it answers for the first
    final round, in the order of the range, that belongs to another
    node and has the hash [ref1]. *)
Lemma scanFinals_first self s ref1 finals :
  (Forall (fun kf => fNodeId kf.2 = sNodeId s \/ fHash kf.2 <> ref1) finals
   /\ scanFinals store self s ref1 finals = (∅, true, Some InvalidReferences))
  \/ (exists pre kf post,
        finals = pre ++ kf :: post /\
        Forall (fun kf => fNodeId kf.2 = sNodeId s \/ fHash kf.2 <> ref1) pre /\
        fNodeId kf.2 <> sNodeId s /\ fHash kf.2 = ref1 /\
        scanFinals store self s ref1 finals = checkLinks store self s kf.2).
Proof.
  induction finals as [|kf rest IH]; simpl.
  { left. split; [constructor|done]. }
  destruct (bool_decide (fNodeId kf.2 = sNodeId s)) eqn:E1; simpl.
  { apply bool_decide_eq_true in E1.
    destruct IH as [[Hall Hr]|(pre & kf' & post & -> & Hpre & Hn & Hh & Hr)].
    - left. split; [constructor; [by left|done]|done].
    - right. exists (kf :: pre), kf', post.
      split_and!; try done. constructor; [by left|done]. }
  apply bool_decide_eq_false in E1.
  destruct (bool_decide (fHash kf.2 ≠ ref1)) eqn:E2; simpl.
  { apply bool_decide_eq_true in E2.
    destruct IH as [[Hall Hr]|(pre & kf' & post & -> & Hpre & Hn & Hh & Hr)].
    - left. split; [constructor; [by right|done]|done].
    - right. exists (kf :: pre), kf', post.
      split_and!; try done. constructor; [by right|done]. }
  apply bool_decide_eq_false in E2.
  right. exists [], kf, rest. split_and!; try done.
  by destruct (decide (fHash kf.2 = ref1)).
Qed.

Lemma linkAt_proposed (self final : FinalRound) :
  fNodeId final <> fNodeId self ->
  linkAt (<[fNodeId final := fNumber final]>
            (<[fNodeId self := fNumber self]> (∅ : gmap Hash Z)))
    (fNodeId self) = fNumber self /\
  linkAt (<[fNodeId final := fNumber final]>
            (<[fNodeId self := fNumber self]> (∅ : gmap Hash Z)))
    (fNodeId final) = fNumber final.
Proof.
  intros Hne. unfold linkAt.
  rewrite lookup_insert_ne, !lookup_insert_eq by done. done.
Qed.
End VerifyReferences.

Lemma firstMatch_unique s ref1 finals f1 f2 :
  firstMatch s ref1 finals f1 -> firstMatch s ref1 finals f2 -> f1 = f2.
Proof.
  intros (pre1 & k1 & post1 & -> & Hp1 & Hn1 & Hh1)
         (pre2 & k2 & post2 & Heq & Hp2 & Hn2 & Hh2).
  revert pre2 Heq Hp2.
  induction pre1 as [|x pre1 IH]; intros [|y pre2] Heq Hp2; simpl in *.
  - by injection Heq as ->.
  - injection Heq as <- _. apply Forall_inv in Hp2. simpl in Hp2. tauto.
  - injection Heq as -> _. apply Forall_inv in Hp1. simpl in Hp1. tauto.
  - injection Heq as -> Heq.
    apply (IH (Forall_inv_tail Hp1) pre2 Heq (Forall_inv_tail Hp2)).
Qed.

(** C3. Given that the snapshot belongs to the node of [self] (otherwise
    the call panics), [verifyReferences] returns. It returns an error
    with [handled = true] exactly when the references are not two, or
    are equal, or the first differs from the hash of [self], or no final
    round of another node has the second as its hash, or a round link
    read from the store exceeds the link proposed for it. It returns
    [handled = false] only with the error of a failed read of a round
    link. Without an error, [handled] is [true] and the links map the
    node of [self] to its number and the node of the matched final round
    to its number. *)
Theorem verifyReferences_handled_exactly store rangeFinal
  (node : Node) (self : FinalRound) (s : Snapshot) :
  sNodeId s = fNodeId self ->
  rangeFinal (gFinalRound (nGraph node))
  ≡ₚ map_to_list (gFinalRound (nGraph node)) ->
  exists links handled err,
    verifyReferences store rangeFinal node self s
    = Returns (links, handled, err) /\
    ((handled = true /\ err <> None) <->
     (lenReferences (sReferences s) <> 2 \/
      (sReferences s).1 = (sReferences s).2 \/
      (sReferences s).1 <> fHash self \/
      (forall k f, gFinalRound (nGraph node) !! k = Some f ->
                   fNodeId f = sNodeId s \/ fHash f <> (sReferences s).2) \/
      (exists final,
          firstMatch s (sReferences s).2
            (rangeFinal (gFinalRound (nGraph node))) final /\
          linkRegresses store self s final))) /\
    (handled = false ->
     exists e to,
       err = Some e /\
       SnapshotsReadRoundLink store (sNodeId s) to = Err e) /\
    (err = None ->
     handled = true /\
     exists k final,
       gFinalRound (nGraph node) !! k = Some final /\
       fNodeId final <> sNodeId s /\
       fHash final = (sReferences s).2 /\
       links = <[fNodeId final := fNumber final]>
                 (<[fNodeId self := fNumber self]> ∅) /\
       links !! fNodeId self = Some (fNumber self) /\
       links !! fNodeId final = Some (fNumber final)).
Proof.
  intros Hid Hperm. unfold verifyReferences. simpl.
  destruct (bool_decide ((sReferences s).1 = (sReferences s).2)) eqn:E1.
  { apply bool_decide_eq_true in E1. eexists _, _, _. split; [done|].
    split_and!; [|done|done]. split; [tauto|done]. }
  apply bool_decide_eq_false in E1.
  destruct (bool_decide ((sReferences s).1 ≠ fHash self)) eqn:E2.
  { apply bool_decide_eq_true in E2. eexists _, _, _. split; [done|].
    split_and!; [|done|done]. split; [tauto|done]. }
  apply bool_decide_eq_false in E2.
  assert ((sReferences s).1 = fHash self) as E2'
      by (by destruct (decide ((sReferences s).1 = fHash self))).
  rewrite bool_decide_eq_false_2 by (intros H; by apply H).
  set (m := gFinalRound (nGraph node)) in *.
  set (ref1 := (sReferences s).2) in *.
  assert (forall k f, (k, f) ∈ rangeFinal m <-> m !! k = Some f) as Hin.
  { intros k f. rewrite Hperm. apply elem_of_map_to_list. }
  destruct (scanFinals_first store self s ref1 (rangeFinal m))
    as [[Hall Hr]|(pre & [k final] & post & Hdec & Hpre & Hn & Hh & Hr)];
    rewrite Hr.
  { eexists _, _, _. split; [done|]. split_and!; [|done|done].
    split; [intros _|done]. right; right; right; left.
    intros k f Hkf. apply Hin in Hkf.
    rewrite Forall_forall in Hall. apply (Hall _ Hkf). }
  simpl in Hn, Hh.
  assert (firstMatch s ref1 (rangeFinal m) final) as Hfirst
      by (by exists pre, k, post).
  assert (m !! k = Some final) as Hk.
  { apply Hin. rewrite Hdec. apply elem_of_app. right. by left. }
  assert (fNodeId final <> fNodeId self) as Hne by (by rewrite <- Hid).
  destruct (linkAt_proposed self final Hne) as [Ls Lf].
  assert (forall P : Prop,
             (lenReferences (sReferences s) <> 2 \/
              (sReferences s).1 = ref1 \/
              (sReferences s).1 <> fHash self \/
              (forall k f, m !! k = Some f ->
                           fNodeId f = sNodeId s \/ fHash f <> ref1) \/
              (exists final', firstMatch s ref1 (rangeFinal m) final' /\
                              linkRegresses store self s final')) ->
             (linkRegresses store self s final -> P) -> P) as Hcases.
  { intros P [H|[H|[H|[H|(final' & Hf' & Hreg)]]]] HP.
    - by destruct H.
    - done.
    - done.
    - destruct (H k final Hk); done.
    - apply HP. by rewrite (firstMatch_unique _ _ _ _ _ Hfirst Hf'). }
  unfold checkLinks. simpl. rewrite Ls, Lf.
  destruct (SnapshotsReadRoundLink store (sNodeId s) (fNodeId self))
    as [selfLink|e] eqn:Rs.
  2:{ eexists _, _, _. split; [done|]. split_and!.
      - split; [by intros [? _]|]. intros H. apply (Hcases _ H).
        intros (v & Hv & _). congruence.
      - intros _. by exists e, (fNodeId self).
      - done. }
  destruct (fNumber self <? selfLink) eqn:Cs.
  { apply Z.ltb_lt in Cs. eexists _, _, _. split; [done|].
    split_and!; [|done|done]. split; [intros _|done].
    do 4 right. exists final. split; [done|]. exists selfLink. tauto. }
  apply Z.ltb_ge in Cs.
  destruct (SnapshotsReadRoundLink store (sNodeId s) (fNodeId final))
    as [finalLink|e] eqn:Rf.
  2:{ eexists _, _, _. split; [done|]. split_and!.
      - split; [by intros [? _]|]. intros H. apply (Hcases _ H).
        intros (v & Hv & [Hlt|(w & Hw & _)]); [|congruence].
        assert (v = selfLink) by congruence. lia.
      - intros _. by exists e, (fNodeId final).
      - done. }
  destruct (fNumber final <? finalLink) eqn:Cf.
  { apply Z.ltb_lt in Cf. eexists _, _, _. split; [done|].
    split_and!; [|done|done]. split; [intros _|done].
    do 4 right. exists final. split; [done|]. exists selfLink.
    split; [done|]. right. by exists finalLink. }
  apply Z.ltb_ge in Cf.
  eexists _, _, _. split; [done|]. split_and!.
  - split; [by intros [_ ?]|]. intros H. apply (Hcases _ H).
    intros (v & Hv & [Hlt|(w & Hw & Hlt)]).
    + assert (v = selfLink) by congruence. lia.
    + assert (w = finalLink) by congruence. lia.
  - done.
  - intros _. split; [done|]. exists k, final. split_and!; try done.
    + by rewrite lookup_insert_ne, lookup_insert_eq.
    + by rewrite lookup_insert_eq.
Qed.

(** A snapshot of [idB] that refers to the final rounds of [idB] and of
    [idA] in the graph loaded from the sample store. *)
Lemma verifyReferences_handled_exactly_witness :
  sNodeId (Verifier.incoming 35 [World.keyB])
  = fNodeId (Verifier.finalOf Sample.idB) /\
  World.range (gFinalRound (nGraph Verifier.node))
  ≡ₚ map_to_list (gFinalRound (nGraph Verifier.node)) /\
  exists links handled err,
    verifyReferences World.store World.range Verifier.node
      (Verifier.finalOf Sample.idB) (Verifier.incoming 35 [World.keyB])
    = Returns (links, handled, err).
Proof.
  split; [reflexivity|]. split; [reflexivity|].
  destruct (verifyReferences_handled_exactly World.store World.range
              Verifier.node (Verifier.finalOf Sample.idB)
              (Verifier.incoming 35 [World.keyB]) eq_refl
              (reflexivity _))
    as (links & handled & err & H & _).
  exists links, handled, err. exact H.
Defined.

Section Clock.

Lemma waitTimestamp_returns end_ clock t clock' :
  waitTimestamp end_ clock = Returns (t, clock') ->
  end_ < t /\
  exists pre x, clock = pre ++ x :: clock' /\ t = wrap64 x /\
                Forall (fun y => wrap64 y <= end_) pre.
Proof.
  revert t clock'. induction clock as [|x clock IH]; intros t clock' H;
    simpl in H; [done|].
  destruct (end_ <? wrap64 x) eqn:E.
  - injection H as <- <-. apply Z.ltb_lt in E. split; [done|].
    by exists [], x.
  - apply Z.ltb_ge in E.
    destruct (IH _ _ H) as (Hlt & pre & y & -> & -> & Hpre).
    split; [done|]. exists (x :: pre), y. split_and!; try done.
    by constructor.
Qed.

Lemma waitTimestamp_total end_ pre x post :
  Forall (fun y => wrap64 y <= end_) pre ->
  end_ < wrap64 x ->
  waitTimestamp end_ (pre ++ x :: post) = Returns (wrap64 x, post).
Proof.
  induction 1 as [|y pre Hy Hpre IH]; intros Hx; simpl.
  - apply Z.ltb_lt in Hx. by rewrite Hx.
  - apply Z.ltb_ge in Hy. rewrite Hy. by apply IH.
Qed.

Lemma chooseBest_returns id finals best0 clock best clock' :
  chooseBest id finals best0 clock = Returns (best, clock') ->
  exists used,
    clock = used ++ clock' /\
    fStart best0 <= fStart best /\
    (best = best0 \/
     (exists k, (k, best) ∈ finals) /\ fNodeId best <> id /\
     exists now, now ∈ used /\ fEnd best < wrap64 now) /\
    (forall kr, kr ∈ finals -> fNodeId kr.2 <> id ->
                (forall now, now ∈ used -> fEnd kr.2 < wrap64 now) ->
                fStart kr.2 <= fStart best).
Proof.
  revert best0 clock.
  induction finals as [|[k r] rest IH]; intros best0 clock H; simpl in H.
  { injection H as <- <-. exists []. split_and!; [done|lia|by left|].
    intros kr Hkr. by apply elem_of_nil in Hkr. }
  destruct (bool_decide (fNodeId r ≠ id) && (fStart best0 <=? fStart r))
    eqn:E.
  - apply andb_true_iff in E as [E1 E2].
    apply bool_decide_eq_true in E1. apply Z.leb_le in E2.
    destruct clock as [|t clock]; [done|]. simpl in H.
    destruct (fEnd r <? wrap64 t) eqn:E3.
    + apply Z.ltb_lt in E3.
      destruct (IH _ _ H) as (used & -> & Hs & Hb & Hmax).
      exists (t :: used). split_and!; [done|lia| |].
      * right. destruct Hb as [->|((k' & Hk') & Hn & now & Hnow & Hlt)].
        -- split_and!; [exists k; by left|done|].
           exists t. split; [by left|done].
        -- split_and!; [exists k'; by right|done|].
           exists now. split; [by right|done].
      * intros kr Hkr Hn Hall. apply elem_of_cons in Hkr as [->|Hkr].
        -- done.
        -- apply Hmax; [done..|]. intros now Hnow. apply Hall. by right.
    + apply Z.ltb_ge in E3.
      destruct (IH _ _ H) as (used & -> & Hs & Hb & Hmax).
      exists (t :: used). split_and!; [done|lia| |].
      * destruct Hb as [->|((k' & Hk') & Hn & now & Hnow & Hlt)];
          [by left|right].
        split_and!; [exists k'; by right|done|].
        exists now. split; [by right|done].
      * intros kr Hkr Hn Hall. apply elem_of_cons in Hkr as [->|Hkr].
        -- simpl in *. specialize (Hall t ltac:(by left)). lia.
        -- apply Hmax; [done..|]. intros now Hnow. apply Hall. by right.
  - destruct (IH _ _ H) as (used & -> & Hs & Hb & Hmax).
    exists used. split_and!; [done|lia| |].
    + destruct Hb as [->|((k' & Hk') & Hn & now & Hnow & Hlt)];
        [by left|right].
      split_and!; [exists k'; by right|done|by exists now].
    + intros kr Hkr Hn Hall. apply elem_of_cons in Hkr as [->|Hkr].
      * simpl in *. apply andb_false_iff in E as [E|E].
        -- apply bool_decide_eq_false in E. by destruct E.
        -- apply Z.leb_gt in E. lia.
      * by apply Hmax.
Qed.

Lemma chooseBest_total id finals best0 clock :
  (length finals <= length clock)%nat ->
  exists best clock', chooseBest id finals best0 clock
                      = Returns (best, clock').
Proof.
  revert best0 clock.
  induction finals as [|[k r] rest IH]; intros best0 clock Hlen; simpl.
  { by eexists _, _. }
  simpl in Hlen.
  destruct (bool_decide (fNodeId r ≠ id) && (fStart best0 <=? fStart r)).
  - destruct clock as [|t clock]; simpl in *; [lia|].
    destruct (fEnd r <? wrap64 t); apply IH; lia.
  - apply IH. lia.
Qed.

Lemma chooseBest_keeps_other id finals best0 clock best clock' :
  fNodeId best0 <> id ->
  chooseBest id finals best0 clock = Returns (best, clock') ->
  fNodeId best <> id.
Proof.
  intros Hn H. destruct (chooseBest_returns _ _ _ _ _ _ H)
    as (used & _ & _ & [->|(_ & Hb & _)] & _); done.
Qed.

Lemma chooseBest_finds id finals best0 clock best clock' kr :
  kr ∈ finals ->
  fNodeId kr.2 <> id ->
  (forall now, now ∈ clock -> fEnd kr.2 < wrap64 now) ->
  fStart best0 <= fStart kr.2 \/ fNodeId best0 <> id ->
  chooseBest id finals best0 clock = Returns (best, clock') ->
  fNodeId best <> id.
Proof.
  revert best0 clock.
  induction finals as [|[k r] rest IH]; intros best0 clock Hin Hn Hall H0 H;
    [by apply elem_of_nil in Hin|].
  simpl in H.
  destruct (bool_decide (fNodeId r ≠ id) && (fStart best0 <=? fStart r))
    eqn:E.
  - apply andb_true_iff in E as [E1 E2].
    apply bool_decide_eq_true in E1.
    destruct clock as [|t clock]; [done|]. simpl in H.
    destruct (fEnd r <? wrap64 t) eqn:E3.
    + by apply (chooseBest_keeps_other _ _ _ _ _ _ E1 H).
    + apply Z.ltb_ge in E3. apply elem_of_cons in Hin as [->|Hin].
      * simpl in *. specialize (Hall t ltac:(by left)). lia.
      * apply (IH best0 clock); try done.
        intros now Hnow. apply Hall. by right.
  - apply elem_of_cons in Hin as [->|Hin].
    + simpl in *. apply andb_false_iff in E as [E|E].
      * apply bool_decide_eq_false in E. by destruct E.
      * apply Z.leb_gt in E. destruct H0 as [H0|H0]; [lia|].
        by apply (chooseBest_keeps_other _ _ _ _ _ _ H0 H).
    + by apply (IH best0 clock).
Qed.

End Clock.

Lemma advanceRound_final_node D node s end_ c f c1 f1 :
  advanceRound D node s end_ c f = Returns (c1, f1) ->
  fNodeId f1 = fNodeId f \/ fNodeId f1 = cNodeId c.
Proof.
  unfold advanceRound. intros H.
  destruct (add64 (SnapshotRoundGap D) (cStart c) <=? sTimestamp s);
    [|injection H as <- <-; by left].
  destruct (len (cSnapshots c) =? 0); [injection H as <- <-; by left|].
  destruct (forallb (verifyFinalization node) (cSnapshots c)); [|done].
  injection H as <- <-. by right.
Qed.

(** C7. [signSnapshot] acts only on a snapshot of this node that has no
    signature and the timestamp zero; on any other it returns the cache
    and the final round of the graph as they are. When it acts and
    returns, the snapshot has a timestamp above the end of the cache,
    the round number of the cache after the round advance, the hash of
    the final round after the round advance as first reference, and as
    second reference the hash of [best]: a final round of another node
    whose end is below the clock reading taken for it, with the largest
    start among the final rounds of other nodes whose end is below the
    readings taken during the choice. Once the clock has passed the end
    of the cache and the round advance has returned, the call panics
    when no final round of another node has its end below a reading, and
    returns when one has it below every reading. *)
Theorem signSnapshot_signs_fresh_snapshot D rangeFinal
  (node : Node) (s : Snapshot) (clock : list Z)
  (c : CacheRound) (f : FinalRound) :
  gCacheRound (nGraph node) !! sNodeId s = Some c ->
  gFinalRound (nGraph node) !! sNodeId s = Some f ->
  rangeFinal (gFinalRound (nGraph node))
  ≡ₚ map_to_list (gFinalRound (nGraph node)) ->
  ((sNodeId s <> nIdForNetwork node \/ sSignatures s <> []
    \/ sTimestamp s <> 0) ->
   signSnapshot D rangeFinal node s clock = Returns (c, f, s, clock)) /\
  (sNodeId s = nIdForNetwork node -> sSignatures s = [] ->
   sTimestamp s = 0 ->
   (forall cache' final' s' clock',
       signSnapshot D rangeFinal node s clock
       = Returns (cache', final', s', clock') ->
       exists cache1 best used,
         cEnd c < sTimestamp s' /\
         advanceRound D node (setTimestamp s (sTimestamp s')) 0 c f
         = Returns (cache1, final') /\
         cache' = setEnd cache1 (sTimestamp s') /\
         sRoundNumber s' = cNumber cache' /\
         sReferences s' = (fHash final', fHash best) /\
         (exists k, gFinalRound (nGraph node) !! k = Some best) /\
         fNodeId best <> sNodeId s /\
         (exists now, now ∈ used /\ fEnd best < wrap64 now) /\
         (forall k r,
             gFinalRound (nGraph node) !! k = Some r ->
             fNodeId r <> sNodeId s ->
             (forall now, now ∈ used -> fEnd r < wrap64 now) ->
             fStart r <= fStart best) /\
         (exists waited, clock = waited ++ used ++ clock')) /\
   (forall pre x post cache1 final1,
       clock = pre ++ x :: post ->
       Forall (fun y => wrap64 y <= cEnd c) pre ->
       cEnd c < wrap64 x ->
       advanceRound D node (setTimestamp s (wrap64 x)) 0 c f
       = Returns (cache1, final1) ->
       (size (gFinalRound (nGraph node)) <= length post)%nat ->
       ((forall k r now,
            gFinalRound (nGraph node) !! k = Some r ->
            fNodeId r <> sNodeId s -> now ∈ post -> wrap64 now <= fEnd r) ->
        signSnapshot D rangeFinal node s clock = Panics) /\
       ((exists k r,
            gFinalRound (nGraph node) !! k = Some r /\
            fNodeId r <> sNodeId s /\ 0 <= fStart r /\
            forall now, now ∈ post -> fEnd r < wrap64 now) ->
        fNodeId f = sNodeId s -> cNodeId c = sNodeId s ->
        exists cache' final' s' clock',
          signSnapshot D rangeFinal node s clock
          = Returns (cache', final', s', clock')))).
Proof.
  intros Hc Hf Hperm.
  unfold signSnapshot. rewrite Hc, Hf.
  set (m := gFinalRound (nGraph node)) in *.
  assert (forall k r, (k, r) ∈ rangeFinal m <-> m !! k = Some r) as Hin.
  { intros k r. rewrite Hperm. apply elem_of_map_to_list. }
  rewrite CacheRound_Copy_id. unfold FinalRound_Copy.
  split.
  { intros Hno.
    assert (bool_decide (sNodeId s ≠ nIdForNetwork node)
            || negb (len (sSignatures s) =? 0)
            || negb (sTimestamp s =? 0) = true) as ->; [|done].
    destruct Hno as [H|[H|H]].
    - by rewrite bool_decide_eq_true_2.
    - destruct (sSignatures s); [done|]. by rewrite orb_true_r.
    - apply Z.eqb_neq in H. rewrite H. by rewrite orb_true_r. }
  intros Hid Hsig Hts.
  rewrite bool_decide_eq_false_2 by (intros H; by apply H).
  rewrite Hsig, Hts. simpl.
  split.
  - intros cache' final' s' clock' H.
    destruct (waitTimestamp (cEnd c) clock) as [[t clock1]| |] eqn:Ew;
      [|done..].
    simpl in H.
    destruct (waitTimestamp_returns _ _ _ _ Ew)
      as (Hlt & pre & x & Hclock & Ht & Hpre).
    destruct (advanceRound D node (setTimestamp s t) 0 c f)
      as [[cache1 final1]| |] eqn:Ea; [|done..].
    simpl in H.
    destruct (chooseBest (sNodeId s) (rangeFinal m) _ clock1)
      as [[best clock2]| |] eqn:Eb; [|done..].
    simpl in H.
    destruct (bool_decide (fNodeId best = fNodeId final1)) eqn:Ep; [done|].
    apply bool_decide_eq_false in Ep.
    injection H as <- <- <- <-. simpl.
    destruct (chooseBest_returns _ _ _ _ _ _ Eb)
      as (used & Hused & _ & Hb & Hmax).
    destruct Hb as [->|((k & Hk) & Hn & Hnow)]; [done|].
    exists cache1, best, used. split_and!; try done.
    + exists k. by apply Hin.
    + intros k' r Hr Hne Hall. apply (Hmax (k', r)); [by apply Hin|done..].
    + exists (pre ++ [x]). rewrite <- Hused, <- app_assoc. done.
  - intros pre x post cache1 final1 Hclock Hpre Hx Ha Hsize.
    rewrite Hclock, (waitTimestamp_total _ _ _ _ Hpre Hx). simpl.
    rewrite Ha. simpl.
    assert (length (rangeFinal m) <= length post)%nat as Hlen.
    { rewrite Hperm, length_map_to_list. exact Hsize. }
    destruct (chooseBest_total (sNodeId s) (rangeFinal m)
                {| fNodeId := fNodeId final1; fNumber := 0; fStart := 0;
                   fEnd := 0; fHash := zeroHash |} post Hlen)
      as (best & clock2 & Eb).
    rewrite Eb. simpl.
    destruct (chooseBest_returns _ _ _ _ _ _ Eb)
      as (used & Hused & _ & Hb & _).
    split.
    + intros Hnone.
      destruct Hb as [->|((k & Hk) & Hn & now & Hnow & Hlt)].
      * simpl. by rewrite bool_decide_eq_true_2.
      * exfalso. apply Hin in Hk.
        assert (now ∈ post) as Hp.
        { rewrite Hused. apply elem_of_app. by left. }
        specialize (Hnone k best now Hk Hn Hp). lia.
    + intros (k & r & Hr & Hn & H0 & Hall) Hfid Hcid.
      assert (fNodeId best <> sNodeId s) as Hbest.
      { eapply (chooseBest_finds _ _ _ _ _ _ (k, r)); [| | |left|exact Eb];
          [by apply Hin|done|done|exact H0]. }
      assert (fNodeId final1 = sNodeId s) as Hfinal.
      { destruct (advanceRound_final_node _ _ _ _ _ _ _ _ Ha); congruence. }
      rewrite bool_decide_eq_false_2 by congruence.
      by eexists _, _, _, _.
Qed.

(** A fresh snapshot of this node, signed in the graph loaded from the
    sample store with the clock at 100. *)
Lemma signSnapshot_signs_fresh_snapshot_witness :
  exists cache' final' s' clock',
    signSnapshot World.deps World.range Handled.before Handled.fresh
      Handled.clock = Returns (cache', final', s', clock') /\
    cEnd (emptyCacheRound Sample.idA) < sTimestamp s' /\
    sRoundNumber s' = cNumber cache' /\
    (sReferences s').1 = fHash final'.
Proof.
  assert (gCacheRound (nGraph Handled.before) !! sNodeId Handled.fresh
          = Some (emptyCacheRound Sample.idA)) as Hc
      by (vm_compute; reflexivity).
  assert (gFinalRound (nGraph Handled.before) !! sNodeId Handled.fresh
          = Some (Verifier.finalOf Sample.idA)) as Hf
      by (vm_compute; reflexivity).
  destruct (signSnapshot_signs_fresh_snapshot World.deps World.range
              Handled.before Handled.fresh Handled.clock
              (emptyCacheRound Sample.idA) (Verifier.finalOf Sample.idA)
              Hc Hf (reflexivity _)) as [_ Hact].
  destruct (Hact eq_refl eq_refl eq_refl) as [Hret Hrun].
  assert (exists cache1 final1,
             advanceRound World.deps Handled.before
               (setTimestamp Handled.fresh (wrap64 100)) 0
               (emptyCacheRound Sample.idA) (Verifier.finalOf Sample.idA)
             = Returns (cache1, final1)) as (cache1 & final1 & Ha).
  { eexists _, _. vm_compute. reflexivity. }
  destruct (Hrun [] 100 [101; 102; 103; 104; 105; 106; 107; 108; 109]
              cache1 final1 eq_refl (Forall_nil_2 _)
              ltac:(vm_compute; reflexivity) Ha
              ltac:(vm_compute; lia)) as [_ Hsome].
  destruct Hsome as (cache' & final' & s' & clock' & Hs).
  - exists Sample.idB, (Verifier.finalOf Sample.idB).
    split; [vm_compute; reflexivity|].
    split; [vm_compute; discriminate|].
    split; [vm_compute; discriminate|].
    intros now Hnow. apply list_elem_of_In in Hnow. simpl in Hnow.
    repeat (destruct Hnow as [<-|Hnow]; [vm_compute; reflexivity|]).
    destruct Hnow.
  - vm_compute. reflexivity.
  - reflexivity.
  - exists cache', final', s', clock'. split; [exact Hs|].
    destruct (Hret _ _ _ _ Hs)
      as (c1 & best & used & Hlt & _ & _ & Hnum & Href & _).
    split; [exact Hlt|]. split; [exact Hnum|]. by rewrite Href.
Defined.

Section Load.
Variable NewHash : list byte -> Hash.
Variable Payload : Snapshot -> list byte.
Variable store : Store.

Lemma loadHeadRoundForNode_returns id cache :
  loadHeadRoundForNode store id = Returns (Ok cache) ->
  exists start snapshots,
    SnapshotsReadRoundMeta store id = Ok (cNumber cache, start) /\
    SnapshotsReadSnapshotsForNodeRound store id (cNumber cache)
    = Ok snapshots /\
    cNodeId cache = id /\ cStart cache = start /\
    cSnapshots cache = snapshots.
Proof.
  unfold loadHeadRoundForNode. intros H.
  destruct (SnapshotsReadRoundMeta store id) as [[number start]|e] eqn:Em;
    [|done].
  simpl in H.
  destruct (SnapshotsReadSnapshotsForNodeRound store id number)
    as [snapshots|e] eqn:Es; [|done].
  destruct (headRoundEnd start snapshots 0) as [end_| |]; [|done..].
  simpl in H. injection H as <-. simpl. by exists start, snapshots.
Qed.

Lemma finalRoundHashes_returns start end_ snapshots hashes hashes' :
  finalRoundHashes NewHash Payload start end_ snapshots hashes
  = Returns hashes' ->
  hashes' = hashes ++ concat (map (fun s => NewHash (Payload s)) snapshots).
Proof.
  revert hashes. induction snapshots as [|s rest IH]; intros hashes H;
    simpl in *.
  - injection H as <-. by rewrite app_nil_r.
  - destruct (sTimestamp s <? start); [done|].
    destruct (end_ <? sTimestamp s); [done|].
    rewrite (IH _ H). by rewrite <- app_assoc.
Qed.

Lemma loadFinalRoundForNode_returns id number final :
  loadFinalRoundForNode NewHash Payload store id number
  = Returns (Ok final) ->
  exists first rest,
    SnapshotsReadSnapshotsForNodeRound store id number
    = Ok (first :: rest) /\
    final = {| fNodeId := id; fNumber := number;
               fStart := sTimestamp first;
               fEnd := sTimestamp (List.last (first :: rest) first);
               fHash := NewHash
                          (id ++ PutUint64 number
                           ++ concat (map (fun s => NewHash (Payload s))
                                        (first :: rest))) |}.
Proof.
  unfold loadFinalRoundForNode. intros H.
  destruct (SnapshotsReadSnapshotsForNodeRound store id number)
    as [[|first rest]|e] eqn:Es; [done| |done].
  destruct (finalRoundHashes _ _ _ _ _ _) as [hashes| |] eqn:Eh; [|done..].
  simpl in H. injection H as <-.
  apply finalRoundHashes_returns in Eh. rewrite Eh, <- app_assoc.
  by exists first, rest.
Qed.

Lemma loadNodes_lookup nodes g g' id :
  loadNodes NewHash Payload store nodes g = Returns (Ok g') ->
  (id ∈ nodes ->
   exists cache final,
     loadHeadRoundForNode store id = Returns (Ok cache) /\
     loadFinalRoundForNode NewHash Payload store id (finalNumberFor cache)
     = Returns (Ok final) /\
     gCacheRound g' !! id
     = Some (if cNumber cache =? 0 then emptyCacheRound id else cache) /\
     gFinalRound g' !! id = Some final) /\
  (id ∉ nodes ->
   gCacheRound g' !! id = gCacheRound g !! id /\
   gFinalRound g' !! id = gFinalRound g !! id).
Proof.
  revert g. induction nodes as [|x rest IH]; intros g H; simpl in H.
  { injection H as <-. split; [|done].
    intros Hin. by apply elem_of_nil in Hin. }
  destruct (loadHeadRoundForNode store x) as [[cache|e]| |] eqn:Eh;
    [|done..].
  simpl in H.
  destruct (loadHeadRoundForNode_returns _ _ Eh)
    as (start & snapshots & _ & _ & Hcid & _ & _).
  set (g1 := if cNumber cache =? 0
             then setCacheRound
                    (setCacheRound (setNodes g (gNodes g ++ [x]))
                       (cNodeId cache) cache) x (emptyCacheRound x)
             else setCacheRound (setNodes g (gNodes g ++ [x]))
                    (cNodeId cache) cache).
  assert (exists final,
             loadFinalRoundForNode NewHash Payload store x
               (finalNumberFor cache) = Returns (Ok final) /\
             loadNodes NewHash Payload store rest
               (setFinalRound g1 (fNodeId final) final)
             = Returns (Ok g')) as (final & Ef & Hrest).
  { unfold finalNumberFor, g1.
    destruct (cNumber cache =? 0); simpl in H;
      (destruct (loadFinalRoundForNode _ _ _ _ _) as [[final|e]| |];
       [|done..]); by exists final. }
  destruct (loadFinalRoundForNode_returns _ _ _ Ef)
    as (first & rest' & _ & Hfinal).
  assert (fNodeId final = x) as Hfid by (by rewrite Hfinal).
  assert (gCacheRound (setFinalRound g1 (fNodeId final) final) !! x
          = Some (if cNumber cache =? 0 then emptyCacheRound x else cache))
    as Hcx.
  { unfold g1. destruct (cNumber cache =? 0); simpl.
    - by rewrite lookup_insert_eq.
    - by rewrite Hcid, lookup_insert_eq. }
  assert (gFinalRound (setFinalRound g1 (fNodeId final) final) !! x
          = Some final) as Hfx.
  { simpl. by rewrite Hfid, lookup_insert_eq. }
  assert (forall y, y <> x ->
             gCacheRound (setFinalRound g1 (fNodeId final) final) !! y
             = gCacheRound g !! y /\
             gFinalRound (setFinalRound g1 (fNodeId final) final) !! y
             = gFinalRound g !! y) as Hother.
  { intros y Hy. unfold g1. rewrite Hfid, Hcid.
    destruct (cNumber cache =? 0); simpl;
      by rewrite ?lookup_insert_ne by done. }
  destruct (IH _ Hrest) as [Hin Hout].
  split.
  - intros Hid. destruct (decide (id ∈ rest)) as [Hr|Hr]; [by apply Hin|].
    apply elem_of_cons in Hid as [->|Hid]; [|done].
    destruct (Hout Hr) as [-> ->]. by exists cache, final.
  - intros Hid. apply not_elem_of_cons in Hid as [Hne Hr].
    destruct (Hout Hr) as [-> ->]. by apply Hother.
Qed.

End Load.

Lemma LoadRoundGraph_returns NewHash Payload store rangeFinal graph :
  LoadRoundGraph NewHash Payload store rangeFinal = Returns (Ok graph) ->
  exists nodes g,
    SnapshotsReadNodesList store = Ok nodes /\
    loadNodes NewHash Payload store nodes emptyGraph = Returns (Ok g) /\
    gCacheRound graph = gCacheRound g /\ gFinalRound graph = gFinalRound g.
Proof.
  unfold LoadRoundGraph. intros H.
  destruct (SnapshotsReadNodesList store) as [nodes|e]; [|done].
  destruct (loadNodes _ _ _ _ _) as [[g|e]| |] eqn:El; [|done..].
  simpl in H. injection H as <-. by exists nodes, g.
Qed.

(** C8, as amended. For a validator whose stored head round number is 0,
    a [LoadRoundGraph] that succeeds leaves an empty cache round at
    number 1 (start and end 0), and as final round the round 0 that it
    reads from the store: the start is the timestamp of the first
    snapshot of that round, the end the timestamp of the last one, and
    the hash is taken over the node id, the number 0 and the payload
    hashes of those snapshots. *)
Theorem LoadRoundGraph_bootstrap NewHash Payload store rangeFinal
  (nodes : list Hash) (graph : RoundGraph) (id : Hash) (start : Z) :
  SnapshotsReadNodesList store = Ok nodes ->
  id ∈ nodes ->
  SnapshotsReadRoundMeta store id = Ok (0, start) ->
  LoadRoundGraph NewHash Payload store rangeFinal = Returns (Ok graph) ->
  gCacheRound graph !! id
  = Some {| cNodeId := id; cNumber := 1; cStart := 0; cEnd := 0;
            cSnapshots := [] |} /\
  exists first rest,
    SnapshotsReadSnapshotsForNodeRound store id 0 = Ok (first :: rest) /\
    gFinalRound graph !! id
    = Some {| fNodeId := id; fNumber := 0; fStart := sTimestamp first;
              fEnd := sTimestamp (List.last (first :: rest) first);
              fHash := NewHash
                         (id ++ PutUint64 0
                          ++ concat (map (fun s => NewHash (Payload s))
                                       (first :: rest))) |}.
Proof.
  intros Hnodes Hin Hmeta Hload.
  destruct (LoadRoundGraph_returns _ _ _ _ _ Hload)
    as (nodes' & g & Hnodes' & Hg & -> & ->).
  assert (nodes' = nodes) as -> by congruence.
  destruct (loadNodes_lookup _ _ _ _ _ _ id Hg) as [Hl _].
  destruct (Hl Hin) as (cache & final & Hh & Hf & Hc & Hfl).
  destruct (loadHeadRoundForNode_returns _ _ _ Hh)
    as (start' & snapshots & Hmeta' & _).
  assert (cNumber cache = 0) as Hzero by congruence.
  unfold finalNumberFor in Hf. rewrite Hzero in *. simpl in *.
  split; [exact Hc|].
  destruct (loadFinalRoundForNode_returns _ _ _ _ _ _ Hf)
    as (first & rest & Hs & ->).
  by exists first, rest.
Qed.

(** The validator [idA] of the sample store has its head at round 0. *)
Lemma LoadRoundGraph_bootstrap_witness :
  gCacheRound (World.loaded World.store) !! Sample.idA
  = Some {| cNodeId := Sample.idA; cNumber := 1; cStart := 0; cEnd := 0;
            cSnapshots := [] |}.
Proof.
  apply (LoadRoundGraph_bootstrap Sample.plainHash Sample.plainPayload
           World.store World.range [Sample.idA; Sample.idB]
           (World.loaded World.store) Sample.idA 0).
  - reflexivity.
  - by left.
  - reflexivity.
  - vm_compute. reflexivity.
Defined.

(** C8, as stated, fails: the final round of a validator whose head
    round number is 0 is read from the store, so its start and end are
    the timestamps of the stored snapshots of round 0 and its hash
    covers them; and when the store holds no snapshot of round 0 the
    load panics. *)
Lemma LoadRoundGraph_bootstrap_round_is_not_synthetic :
  SnapshotsReadRoundMeta World.store Sample.idA = Ok (0, 0) /\
  (exists graph f,
      LoadRoundGraph Sample.plainHash Sample.plainPayload World.store
        World.range = Returns (Ok graph) /\
      gFinalRound graph !! Sample.idA = Some f /\
      fStart f = 5 /\ fEnd f = 5 /\
      fHash f <> Sample.plainHash (Sample.idA ++ PutUint64 0)) /\
  LoadRoundGraph Sample.plainHash Sample.plainPayload Bootstrap.storeNoGenesis
    World.range = Panics.
Proof.
  split; [reflexivity|]. split.
  - eexists _, _. split; [vm_compute; reflexivity|].
    split; [vm_compute; reflexivity|].
    split; [reflexivity|]. split; [reflexivity|]. vm_compute. discriminate.
  - vm_compute. reflexivity.
Qed.

Lemma add64_in_range a b : u64 (add64 a b).
Proof. unfold u64, add64, wrap64. apply Z.mod_pos_bound. lia. Qed.

Lemma add64_sub64_one n : u64 n -> n <> 0 -> add64 (sub64 n 1) 1 = n.
Proof.
  unfold u64, add64, sub64, wrap64. intros Hn H0.
  rewrite (Z.mod_small (n - 1)) by lia.
  rewrite Z.mod_small by lia. lia.
Qed.

Section Paired.
Variable D : Deps.
Variable store : Store.
Variable rangeFinal : gmap Hash FinalRound -> list (Hash * FinalRound).

Lemma advanceRound_paired node s end_ c f c1 f1 :
  advanceRound D node s end_ c f = Returns (c1, f1) ->
  paired c f -> paired c1 f1.
Proof.
  unfold advanceRound, paired. intros H [Hu Hn].
  destruct (add64 (SnapshotRoundGap D) (cStart c) <=? sTimestamp s);
    [|by injection H as <- <-].
  destruct (len (cSnapshots c) =? 0); [by injection H as <- <-|].
  destruct (forallb (verifyFinalization node) (cSnapshots c)); [|done].
  injection H as <- <-. simpl. split; [|done].
  rewrite Hn. apply add64_in_range.
Qed.

Lemma graphPaired_lookup g N c f :
  graphPaired g -> gCacheRound g !! N = Some c ->
  gFinalRound g !! N = Some f -> paired c f.
Proof. intros Hg. by apply Hg. Qed.

Lemma signSnapshot_paired node s clock cache final s' clock' :
  graphPaired (nGraph node) ->
  signSnapshot D rangeFinal node s clock
  = Returns (cache, final, s', clock') ->
  paired cache final /\ sNodeId s' = sNodeId s.
Proof.
  intros Hg. unfold signSnapshot.
  destruct (gCacheRound (nGraph node) !! sNodeId s) as [c|] eqn:Hc; [|done].
  destruct (gFinalRound (nGraph node) !! sNodeId s) as [f|] eqn:Hf; [|done].
  pose proof (graphPaired_lookup _ _ _ _ Hg Hc Hf) as Hp.
  rewrite CacheRound_Copy_id. unfold FinalRound_Copy.
  destruct (_ || _ || _); [intros H; by injection H as <- <- <- <-|].
  destruct (waitTimestamp (cEnd c) clock) as [[t clock1]| |]; [|done..].
  simpl.
  destruct (advanceRound D node (setTimestamp s t) 0 c f)
    as [[cache1 final1]| |] eqn:Ea; [|done..].
  simpl.
  destruct (chooseBest _ _ _ _) as [[best clock2]| |]; [|done..].
  simpl. destruct (bool_decide _); [done|].
  intros H. injection H as <- <- <- <-. split; [|done].
  apply (advanceRound_paired _ _ _ _ _ _ _ Ea) in Hp.
  exact Hp.
Qed.

Lemma verifySnapshot_paired node s links cache final err node' s' :
  graphPaired (nGraph node) ->
  verifySnapshot D store rangeFinal node s
  = Returns (links, cache, final, err, node', s') ->
  paired cache final /\ nGraph node' = nGraph node /\
  sNodeId s' = sNodeId s.
Proof.
  intros Hg. unfold verifySnapshot.
  destruct (gCacheRound (nGraph node) !! sNodeId s) as [c|] eqn:Hc; [|done].
  destruct (gFinalRound (nGraph node) !! sNodeId s) as [f|] eqn:Hf; [|done].
  pose proof (graphPaired_lookup _ _ _ _ Hg Hc Hf) as Hp.
  rewrite CacheRound_Copy_id. unfold FinalRound_Copy.
  destruct (_ || _).
  - destruct (verifyReferences store rangeFinal node f s)
      as [[[links0 handled] err0]| |]; [|done..].
    simpl. destruct err0; intros H; by injection H as <- <- <- <- <- <-.
  - destruct (advanceRound D node s (sTimestamp s) c f)
      as [[cache1 final1]| |] eqn:Ea; [|done..].
    apply (advanceRound_paired _ _ _ _ _ _ _ Ea) in Hp.
    simpl. destruct (_ || _).
    + intros H; by injection H as <- <- <- <- <- <-.
    + destruct (verifyReferences store rangeFinal node final1 s)
        as [[[links0 handled] err0]| |]; [|done..].
      simpl. intros H; by injection H as <- <- <- <- <- <-.
Qed.

Lemma propose_paired node s clock links cache final err node' s' clock' :
  graphPaired (nGraph node) ->
  propose D store rangeFinal node s clock
  = Returns (links, cache, final, err, node', s', clock') ->
  paired cache final /\ nGraph node' = nGraph node.
Proof.
  intros Hg. unfold propose.
  destruct (signSnapshot D rangeFinal node _ clock)
    as [[[[cache0 final0] s0] clock0]| |] eqn:Es; [|done..].
  simpl. apply (signSnapshot_paired _ _ _ _ _ _ _ Hg) in Es as [Hp _].
  destruct (_ || _).
  - destruct (verifySnapshot D store rangeFinal node s0)
      as [[[[[[links1 cache1] final1] err1] node1] s1]| |] eqn:Ev;
      [|done..].
    simpl. apply (verifySnapshot_paired _ _ _ _ _ _ _ _ Hg) in Ev
      as (Hp1 & Hg1 & _).
    intros H. by injection H as <- <- <- <- <- <- <-.
  - intros H. by injection H as <- <- <- <- <- <- <-.
Qed.

Lemma graphPaired_commit node s cache final :
  graphPaired (nGraph node) -> paired cache final ->
  graphPaired (nGraph (commit node s cache final)).
Proof.
  intros Hg Hp N. simpl. destruct (decide (N = sNodeId s)) as [->|Hne].
  - rewrite !lookup_insert_eq. split; [by split; eauto|].
    intros c f Hc Hf. by injection Hc as <-; injection Hf as <-.
  - rewrite !lookup_insert_ne by done. apply Hg.
Qed.

Lemma graphPaired_UpdateFinalCache g :
  graphPaired g -> graphPaired (UpdateFinalCache rangeFinal g).
Proof. intros Hg N. apply Hg. Qed.

Lemma sign_graph node s : nGraph (sign D node s).1 = nGraph node.
Proof. done. Qed.

Lemma cosign_paired node s cache final clock err node' s' clock' :
  graphPaired (nGraph node) -> paired cache final ->
  cosign D node s cache final clock = Returns (err, node', s', clock') ->
  graphPaired (nGraph node').
Proof.
  intros Hg Hp. unfold cosign.
  destruct (LockInputs D s); [intros H; by injection H as <- <- <- <-|].
  destruct (sign D node s) as [node1 s1] eqn:Esign.
  assert (nGraph node1 = nGraph node) as Hg1.
  { by rewrite <- (sign_graph node s), Esign. }
  assert (graphPaired (nGraph node1)) as Hg1' by (by rewrite Hg1).
  destruct (bool_decide _).
  - destruct (sendToConsensus _ _ _ _ _)
      as [[[err0 ccache] clock0]| |]; [|done..].
    simpl. destruct err0; intros H; injection H as <- <- <- <-.
    + done.
    + by apply (graphPaired_commit (setConsensusCache node1 ccache)).
  - destruct (SendSnapshotMessage D _ _); intros H;
      injection H as <- <- <- <-; [done|].
    by apply graphPaired_commit.
Qed.

Lemma finalize_paired node s links cache final :
  graphPaired (nGraph node) -> paired cache final ->
  graphPaired (nGraph (finalize D store node s links cache final).2).
Proof.
  intros Hg Hp. unfold finalize.
  destruct (SnapshotsWriteSnapshot store _); simpl; [done|].
  by apply (graphPaired_commit
              (setTopoCounter node (TopoNext D (nTopoCounter node)).2)).
Qed.

Lemma handleSnapshotInput_paired node s clock err node' s' clock' :
  graphPaired (nGraph node) ->
  handleSnapshotInput D store rangeFinal node s clock
  = Returns (err, node', s', clock') ->
  graphPaired (nGraph node').
Proof.
  intros Hg. unfold handleSnapshotInput.
  destruct (SnapshotsReadSnapshotByTransactionHash store _) as [[o|]|e];
    [intros H; by injection H as <- <- <- <-| |
     intros H; by injection H as <- <- <- <-].
  destruct (Validate D _); [intros H; by injection H as <- <- <- <-|].
  destruct (propose D store rangeFinal node s clock)
    as [[[[[[[links cache] final] err1] node1] s1] clock1]| |] eqn:Ep;
    [|done..].
  apply (propose_paired _ _ _ _ _ _ _ _ _ _ Hg) in Ep as [Hp Hg1].
  assert (graphPaired (nGraph node1)) as Hg1' by (by rewrite Hg1).
  simpl. destruct err1 as [e|].
  { simpl. intros H. injection H as <- <- <- <-.
    by apply graphPaired_UpdateFinalCache. }
  destruct (verifyFinalization node1 s1).
  - simpl. intros H. injection H as <- <- <- <-.
    apply graphPaired_UpdateFinalCache. by apply finalize_paired.
  - destruct (cosign D node1 s1 cache final clock1)
      as [[[[err2 node2] s2] clock2]| |] eqn:Ec; [|done..].
    simpl. intros H. injection H as <- <- <- <-.
    apply graphPaired_UpdateFinalCache.
    by apply (cosign_paired _ _ _ _ _ _ _ _ _ Hg1' Hp Ec).
Qed.

End Paired.

Lemma LoadRoundGraph_paired NewHash Payload store rangeFinal graph :
  storeInRange store ->
  LoadRoundGraph NewHash Payload store rangeFinal = Returns (Ok graph) ->
  graphPaired graph.
Proof.
  intros Hstore Hload N.
  destruct (LoadRoundGraph_returns _ _ _ _ _ Hload)
    as (nodes & g & Hnodes & Hg & -> & ->).
  destruct (loadNodes_lookup _ _ _ _ _ _ N Hg) as [Hin Hout].
  destruct (decide (N ∈ nodes)) as [HN|HN].
  - destruct (Hin HN) as (cache & final & Hh & Hf & -> & ->).
    split; [by split; eauto|].
    intros c f Hc Hfl. injection Hc as <-. injection Hfl as <-.
    destruct (loadHeadRoundForNode_returns _ _ _ Hh)
      as (start & snapshots & Hmeta & _).
    apply Hstore in Hmeta. unfold finalNumberFor in Hf.
    destruct (loadFinalRoundForNode_returns _ _ _ _ _ _ Hf)
      as (first & rest & _ & ->).
    unfold paired. simpl.
    destruct (cNumber cache =? 0) eqn:E.
    + apply Z.eqb_eq in E. rewrite E. simpl. split; [|done].
      unfold u64. lia.
    + apply Z.eqb_neq in E. split.
      * unfold sub64, wrap64, u64. apply Z.mod_pos_bound. lia.
      * by rewrite add64_sub64_one.
  - destruct (Hout HN) as [-> ->]. simpl. rewrite !lookup_empty.
    split; [done|]. by intros.
Qed.

(** C2. In every node that the kernel can be in, after the round graph
    has been loaded and after every call of [handleSnapshotInput] that
    returns, a validator has a cache round exactly when it has a final
    round, and the number of the cache round is the number of the final
    round plus one in [uint64] arithmetic: the sum itself unless the
    final round has the largest [uint64] as its number. *)
Theorem cache_round_follows_final_round D (node : Node) :
  Reachable D node ->
  forall N,
    (is_Some (gCacheRound (nGraph node) !! N)
     <-> is_Some (gFinalRound (nGraph node) !! N)) /\
    forall c f,
      gCacheRound (nGraph node) !! N = Some c ->
      gFinalRound (nGraph node) !! N = Some f ->
      cNumber c = add64 (fNumber f) 1 /\
      (fNumber f < 2 ^ 64 - 1 -> cNumber c = fNumber f + 1).
Proof.
  intros Hreach.
  assert (graphPaired (nGraph node)) as Hg.
  { induction Hreach as [store rangeFinal graph node Hstore Hload Hgraph
                        |store rangeFinal node s clock err node' s' clock'
                           Hreach IH Hstep].
    - rewrite Hgraph. by apply (LoadRoundGraph_paired _ _ _ _ _ Hstore Hload).
    - by apply (handleSnapshotInput_paired _ _ _ _ _ _ _ _ _ _ IH Hstep). }
  intros N. destruct (Hg N) as [Hdom Hp]. split; [exact Hdom|].
  intros c f Hc Hf. destruct (Hp c f Hc Hf) as [[H0 H1] Hn].
  split; [exact Hn|]. intros Hlt. rewrite Hn.
  unfold add64, wrap64. rewrite Z.mod_small; lia.
Qed.

(** The node after the sample store has been loaded and a fresh
    snapshot has been handled. *)
Lemma cache_round_follows_final_round_witness :
  exists c f,
    gCacheRound (nGraph Handled.after) !! Sample.idA = Some c /\
    gFinalRound (nGraph Handled.after) !! Sample.idA = Some f /\
    cNumber c = add64 (fNumber f) 1.
Proof.
  assert (storeInRange World.store) as Hstore.
  { intros id number start H. simpl in H.
    destruct (bool_decide (id = Sample.idB)); injection H as <- _;
      unfold u64; lia. }
  assert (Reachable World.deps Handled.before) as Hbefore.
  { apply (Reachable_load World.deps World.store World.range
             (World.loaded World.store) Handled.before Hstore);
      [vm_compute; reflexivity|reflexivity]. }
  assert (exists err s' clock',
             handleSnapshotInput World.deps World.store World.range
               Handled.before Handled.fresh Handled.clock
             = Returns (err, Handled.after, s', clock'))
    as (err & s' & clock' & Hstep).
  { eexists _, _, _. vm_compute. reflexivity. }
  pose proof (Reachable_handle World.deps World.store World.range
                Handled.before Handled.fresh Handled.clock err
                Handled.after s' clock' Hbefore Hstep) as Hafter.
  destruct (gCacheRound (nGraph Handled.after) !! Sample.idA) as [c|] eqn:Hc;
    [|vm_compute in Hc; discriminate].
  destruct (gFinalRound (nGraph Handled.after) !! Sample.idA) as [f|] eqn:Hf;
    [|vm_compute in Hf; discriminate].
  exists c, f. split; [reflexivity|]. split; [reflexivity|].
  exact (proj1 (proj2 (cache_round_follows_final_round World.deps
                         Handled.after Hafter Sample.idA) c f Hc Hf)).
Defined.

Lemma propose_graph D store rangeFinal node s clock
  links cache final err node' s' clock' :
  propose D store rangeFinal node s clock
  = Returns (links, cache, final, err, node', s', clock') ->
  nGraph node' = nGraph node.
Proof.
  unfold propose.
  destruct (signSnapshot D rangeFinal node _ clock)
    as [[[[cache0 final0] s0] clock0]| |]; [|done..].
  simpl. destruct (_ || _).
  - unfold verifySnapshot.
    destruct (gCacheRound (nGraph node) !! sNodeId s0); [|done].
    destruct (gFinalRound (nGraph node) !! sNodeId s0); [|done].
    destruct (_ || _).
    + destruct (verifyReferences _ _ _ _ _) as [[[l h] [e|]]| |];
        simpl; try done; intros H; by injection H as <- <- <- <- <- <- <-.
    + destruct (advanceRound _ _ _ _ _ _) as [[c1 f1]| |]; [|done..].
      simpl. destruct (_ || _); simpl.
      * intros H; by injection H as <- <- <- <- <- <- <-.
      * destruct (verifyReferences _ _ _ _ _) as [[[l h] e]| |];
          simpl; try done; intros H; by injection H as <- <- <- <- <- <- <-.
  - intros H. by injection H as <- <- <- <- <- <- <-.
Qed.

(** C9. On the finalization path of [handleSnapshotInput] (the snapshot
    is new, its transaction is valid, the rounds have been proposed
    without error and the snapshot is finalized), when the store refuses
    the write of the snapshot with its topological order, the call
    returns the error of the store and the maps of cache rounds and of
    final rounds of the graph are the ones before the call. *)
Theorem handleSnapshotInput_write_failure (D : Deps) (store : Store)
  (rangeFinal : gmap Hash FinalRound -> list (Hash * FinalRound))
  (node : Node) (s : Snapshot) (clock : list Z)
  (links : gmap Hash Z) (cache : CacheRound) (final : FinalRound)
  (node1 : Node) (s1 : Snapshot) (clock1 : list Z) (e : error) :
  SnapshotsReadSnapshotByTransactionHash store
    (TransactionPayloadHash D (sTransaction s)) = Ok None ->
  Validate D (sTransaction s) = None ->
  propose D store rangeFinal node s clock
  = Returns (links, cache, final, None, node1, s1, clock1) ->
  verifyFinalization node1 s1 = true ->
  SnapshotsWriteSnapshot store
    {| tSnapshot := s1;
       tTopologicalOrder := (TopoNext D (nTopoCounter node1)).1;
       tRoundLinks := links |} = Some e ->
  exists node2,
    handleSnapshotInput D store rangeFinal node s clock
    = Returns (Some e, node2, s1, clock1) /\
    gCacheRound (nGraph node2) = gCacheRound (nGraph node) /\
    gFinalRound (nGraph node2) = gFinalRound (nGraph node) /\
    gCacheRound (nGraph node2) !! sNodeId s
    = gCacheRound (nGraph node) !! sNodeId s /\
    gFinalRound (nGraph node2) !! sNodeId s
    = gFinalRound (nGraph node) !! sNodeId s.
Proof.
  intros Hdup Hvalid Hprop Hfin Hwrite.
  unfold handleSnapshotInput. rewrite Hdup, Hvalid, Hprop. simpl.
  rewrite Hfin. unfold finalize. rewrite Hwrite. simpl.
  eexists. split; [reflexivity|]. simpl.
  rewrite (propose_graph _ _ _ _ _ _ _ _ _ _ _ _ _ Hprop). done.
Qed.

(** A snapshot of [idB] with three signatures, handled over a store that
    refuses the write. *)
Lemma handleSnapshotInput_write_failure_witness :
  exists node2 s1 clock1,
    handleSnapshotInput World.deps Handled.failing World.range
      Handled.before Handled.finalized Handled.clock
    = Returns (Some (ExternalError 5), node2, s1, clock1) /\
    gCacheRound (nGraph node2) = gCacheRound (nGraph Handled.before).
Proof.
  assert (exists links cache final node1 s1 clock1,
             propose World.deps Handled.failing World.range Handled.before
               Handled.finalized Handled.clock
             = Returns (links, cache, final, None, node1, s1, clock1) /\
             verifyFinalization node1 s1 = true)
    as (links & cache & final & node1 & s1 & clock1 & Hprop & Hfin).
  { eexists _, _, _, _, _, _.
    split; [vm_compute; reflexivity|vm_compute; reflexivity]. }
  destruct (handleSnapshotInput_write_failure World.deps Handled.failing
              World.range Handled.before Handled.finalized Handled.clock
              links cache final node1 s1 clock1 (ExternalError 5)
              eq_refl eq_refl Hprop Hfin eq_refl)
    as (node2 & Hret & Hc & _).
  exists node2, s1, clock1. split; [exact Hret|exact Hc].
Defined.

(** C4, as amended. On the round-advance path of [verifySnapshot] (the
    pool holds no signature for the snapshot and the snapshot is not
    finalized), when the round advance ends with [cache'] and [final']
    and the snapshot has another round number than [cache'] or a
    timestamp below the end of [cache'], the call returns no error and
    empty links and leaves the node and the snapshot as they were; but
    the rounds it returns are [cache'] and [final'], and the handler,
    which receives no error, goes on as for an accepted snapshot of
    another node: when the inputs are locked and the send succeeds, it
    returns the snapshot with its own signature and the graph holds
    [cache'] and [final'] for the producer. *)
Theorem verifySnapshot_misaligned_is_committed (D : Deps) (store : Store)
  (rangeFinal : gmap Hash FinalRound -> list (Hash * FinalRound))
  (node : Node) (s : Snapshot) (c : CacheRound) (f : FinalRound)
  (cache' : CacheRound) (final' : FinalRound) :
  gCacheRound (nGraph node) !! sNodeId s = Some c ->
  gFinalRound (nGraph node) !! sNodeId s = Some f ->
  len (default [] (nSnapshotsPool node !! PayloadHash D s)) = 0 ->
  verifyFinalization node s = false ->
  advanceRound D node s (sTimestamp s) (CacheRound_Copy c)
    (FinalRound_Copy f) = Returns (cache', final') ->
  sRoundNumber s <> cNumber cache' \/ sTimestamp s < cEnd cache' ->
  verifySnapshot D store rangeFinal node s
  = Returns (∅, cache', final', None, node, s) /\
  forall (input : Snapshot) (clock : list Z),
    clearConsensusSignatures D node input = s ->
    sNodeId s <> nIdForNetwork node ->
    SnapshotsReadSnapshotByTransactionHash store
      (TransactionPayloadHash D (sTransaction input)) = Ok None ->
    Validate D (sTransaction input) = None ->
    LockInputs D s = None ->
    (forall x key, sNodeId (Sign D x key) = sNodeId x) ->
    SendSnapshotMessage D (sNodeId s) (sign D node s).2 = None ->
    exists node',
      handleSnapshotInput D store rangeFinal node input clock
      = Returns (None, node', (sign D node s).2, clock) /\
      gCacheRound (nGraph node') !! sNodeId s = Some cache' /\
      gFinalRound (nGraph node') !! sNodeId s = Some final'.
Proof.
  intros Hc Hf Hpool Hfin Hadv Hmis.
  assert (verifySnapshot D store rangeFinal node s
          = Returns (∅, cache', final', None, node, s)) as Hverify.
  { unfold verifySnapshot.
    rewrite Hc, Hf, Hpool, Hfin, Hadv. simpl.
    destruct Hmis as [Hn|Ht].
    - by rewrite bool_decide_eq_true_2.
    - apply Z.ltb_lt in Ht. rewrite Ht. by rewrite orb_true_r. }
  split; [exact Hverify|].
  intros input clock Hclear Hforeign Hdup Hvalid Hlock Hsign Hsend.
  assert (sNodeId (sign D node s).2 = sNodeId s) as Hid.
  { unfold sign. simpl. apply Hsign. }
  assert (sTransaction input = sTransaction s) as Htx.
  { by rewrite <- Hclear. }
  unfold handleSnapshotInput. rewrite Hdup, Hvalid.
  unfold propose. rewrite Hclear.
  unfold signSnapshot. rewrite Hc, Hf.
  rewrite (bool_decide_eq_true_2 (sNodeId s ≠ nIdForNetwork node) Hforeign).
  simpl.
  rewrite (bool_decide_eq_true_2 (sNodeId s ≠ nIdForNetwork node) Hforeign).
  simpl. rewrite Hverify. simpl. rewrite Hfin.
  unfold cosign. rewrite Hlock. unfold sign in *. simpl in *.
  rewrite bool_decide_eq_false_2 by (rewrite Hid; congruence).
  rewrite Hid, Hsend. simpl.
  eexists. split; [reflexivity|]. simpl.
  by rewrite Hid, !lookup_insert_eq.
Qed.

(** The node whose cache round 2 of [idB] holds two finalized snapshots
    receives a snapshot of [idB] that names round 2 after the round gap
    has passed. *)
Lemma verifySnapshot_misaligned_is_committed_witness :
  verifySnapshot World.deps More.storeHead World.range More.sealing
    More.stale
  = Returns (∅, More.openedB, More.sealedB, None, More.sealing,
             More.stale) /\
  exists node',
    More.staleHandled
    = Returns (None, node', (sign World.deps More.sealing More.stale).2,
               Handled.clock) /\
    gCacheRound (nGraph node') !! Sample.idB = Some More.openedB /\
    gFinalRound (nGraph node') !! Sample.idB = Some More.sealedB.
Proof.
  destruct (verifySnapshot_misaligned_is_committed World.deps
              More.storeHead World.range More.sealing More.stale
              More.headB (Verifier.finalOf Sample.idB)
              More.openedB More.sealedB) as [Hverify Hhandler].
  - vm_compute. reflexivity.
  - vm_compute. reflexivity.
  - reflexivity.
  - reflexivity.
  - reflexivity.
  - left. vm_compute. discriminate.
  - split; [exact Hverify|].
    apply (Hhandler More.stale Handled.clock).
    + reflexivity.
    + vm_compute. discriminate.
    + reflexivity.
    + reflexivity.
    + reflexivity.
    + reflexivity.
    + reflexivity.
Defined.

(** C4, as stated, fails: the snapshot names round 2 while the round
    advance has opened round 3, so [verifySnapshot] takes the exit for a
    snapshot out of line; yet after the call of the handler, which
    returns no error, the graph holds for the producer the cache round 3
    and the final round 2 where it held the cache round 2 and the final
    round 1, and the snapshot carries the signature of this node. *)
Lemma misaligned_snapshot_advances_the_round :
  verifySnapshot World.deps More.storeHead World.range More.sealing
    More.stale
  = Returns (∅, More.openedB, More.sealedB, None, More.sealing,
             More.stale) /\
  sRoundNumber More.stale <> cNumber More.openedB /\
  cNumber <$> gCacheRound (nGraph More.sealing) !! Sample.idB = Some 2 /\
  fNumber <$> gFinalRound (nGraph More.sealing) !! Sample.idB = Some 1 /\
  More.errorOf More.staleHandled = None /\
  cNumber <$> gCacheRound
                (nGraph (More.nodeOf More.staleHandled More.sealing))
              !! Sample.idB = Some 3 /\
  fNumber <$> gFinalRound
                (nGraph (More.nodeOf More.staleHandled More.sealing))
              !! Sample.idB = Some 2 /\
  sSignatures (More.snapshotOf More.staleHandled More.stale)
  = [World.keyB; World.keyA].
Proof.
  split; [vm_compute; reflexivity|].
  split; [vm_compute; discriminate|].
  split; [vm_compute; reflexivity|].
  split; [vm_compute; reflexivity|].
  split; [vm_compute; reflexivity|].
  split; [vm_compute; reflexivity|].
  split; [vm_compute; reflexivity|].
  vm_compute. reflexivity.
Qed.

Lemma headRoundEnd_returns start snapshots e0 :
  Forall (fun s => start <= sTimestamp s) snapshots ->
  exists e,
    headRoundEnd start snapshots e0 = Returns e /\
    e0 <= e /\
    Forall (fun s => sTimestamp s <= e) snapshots /\
    (e = e0 \/ exists s, s ∈ snapshots /\ e = sTimestamp s).
Proof.
  intros H. revert e0.
  induction H as [|s rest Hs Hrest IH]; intros e0; simpl.
  { exists e0. split_and!; [done|lia|constructor|by left]. }
  apply Z.ltb_ge in Hs. rewrite Hs.
  destruct (e0 <? sTimestamp s) eqn:E.
  - apply Z.ltb_lt in E.
    destruct (IH (sTimestamp s)) as (e & -> & Hle & Hall & Hmax).
    exists e. split_and!; [done|lia|by constructor|].
    right. destruct Hmax as [->|(s' & Hin & ->)].
    + exists s. split; [by left|done].
    + exists s'. split; [by right|done].
  - apply Z.ltb_ge in E.
    destruct (IH e0) as (e & -> & Hle & Hall & Hmax).
    exists e. split_and!; [done|done|constructor; [lia|done]|].
    destruct Hmax as [->|(s' & Hin & ->)]; [by left|right].
    exists s'. split; [by right|done].
Qed.

Lemma headRoundEnd_panics start snapshots e0 :
  Exists (fun s => sTimestamp s < start) snapshots ->
  headRoundEnd start snapshots e0 = Panics.
Proof.
  revert e0. induction snapshots as [|s rest IH]; intros e0 H; simpl.
  { by apply Exists_nil in H. }
  destruct (sTimestamp s <? start) eqn:E; [done|].
  apply Z.ltb_ge in E. apply Exists_cons in H as [H|H]; [lia|].
  by apply IH.
Qed.

(** X1. When the store hands out the head round of a node,
    [loadHeadRoundForNode] panics if a snapshot of the round has a
    timestamp below the start of the round; otherwise it returns the
    round with every snapshot between its start and its end, where the
    end is zero or the timestamp of one of the snapshots. *)
Theorem loadHeadRoundForNode_outcome (store : Store) (id : Hash)
  (number start : Z) (snapshots : list Snapshot) :
  SnapshotsReadRoundMeta store id = Ok (number, start) ->
  SnapshotsReadSnapshotsForNodeRound store id number = Ok snapshots ->
  (Exists (fun s => sTimestamp s < start) snapshots ->
   loadHeadRoundForNode store id = Panics) /\
  (Forall (fun s => start <= sTimestamp s) snapshots ->
   exists end_,
     loadHeadRoundForNode store id
     = Returns (Ok {| cNodeId := id; cNumber := number; cStart := start;
                      cEnd := end_; cSnapshots := snapshots |}) /\
     0 <= end_ /\
     Forall (fun s => start <= sTimestamp s <= end_) snapshots /\
     (end_ = 0 \/ exists s, s ∈ snapshots /\ end_ = sTimestamp s)).
Proof.
  intros Hmeta Hsnap. unfold loadHeadRoundForNode. rewrite Hmeta. simpl.
  rewrite Hsnap. split.
  - intros H. by rewrite (headRoundEnd_panics _ _ _ H).
  - intros H. destruct (headRoundEnd_returns start snapshots 0 H)
      as (e & -> & Hle & Hall & Hmax).
    exists e. split_and!; [done|done| |done].
    rewrite Forall_forall in *. intros s Hs. split; [by apply H|by apply Hall].
Qed.

Lemma finalRoundHashes_in_range NewHash Payload start end_ snapshots hashes :
  Forall (fun s => start <= sTimestamp s <= end_) snapshots ->
  finalRoundHashes NewHash Payload start end_ snapshots hashes
  = Returns (hashes ++ concat (map (fun s => NewHash (Payload s)) snapshots)).
Proof.
  intros H. revert hashes.
  induction H as [|s rest [Hs He] Hrest IH]; intros hashes; simpl.
  { by rewrite app_nil_r. }
  apply Z.ltb_ge in Hs, He. rewrite Hs, He, IH. by rewrite <- app_assoc.
Qed.

Lemma finalRoundHashes_out_of_range NewHash Payload start end_ snapshots
  hashes :
  Exists (fun s => sTimestamp s < start \/ end_ < sTimestamp s) snapshots ->
  finalRoundHashes NewHash Payload start end_ snapshots hashes = Panics.
Proof.
  revert hashes. induction snapshots as [|s rest IH]; intros hashes H; simpl.
  { by apply Exists_nil in H. }
  destruct (sTimestamp s <? start) eqn:E1; [done|].
  destruct (end_ <? sTimestamp s) eqn:E2; [done|].
  apply Z.ltb_ge in E1, E2. apply Exists_cons in H as [H|H]; [lia|].
  by apply IH.
Qed.

(** X2. When the store hands out the snapshots of a round,
    [loadFinalRoundForNode] panics if there is none, or if one has a
    timestamp below that of the first or above that of the last;
    otherwise it returns the round that starts at the first timestamp,
    ends at the last and is hashed over the node id, the number and the
    payload hashes in the order of the store. *)
Theorem loadFinalRoundForNode_outcome NewHash Payload (store : Store)
  (id : Hash) (number : Z) (snapshots : list Snapshot) :
  SnapshotsReadSnapshotsForNodeRound store id number = Ok snapshots ->
  (snapshots = [] ->
   loadFinalRoundForNode NewHash Payload store id number = Panics) /\
  (forall first rest,
      snapshots = first :: rest ->
      (Exists (fun s => sTimestamp s < sTimestamp first \/
                        sTimestamp (List.last snapshots first) < sTimestamp s)
         snapshots ->
       loadFinalRoundForNode NewHash Payload store id number = Panics) /\
      (Forall (fun s => sTimestamp first <= sTimestamp s
                        <= sTimestamp (List.last snapshots first))
         snapshots ->
       loadFinalRoundForNode NewHash Payload store id number
       = Returns (Ok {| fNodeId := id; fNumber := number;
                        fStart := sTimestamp first;
                        fEnd := sTimestamp (List.last snapshots first);
                        fHash := NewHash
                                   (id ++ PutUint64 number
                                    ++ concat
                                         (map (fun s => NewHash (Payload s))
                                            snapshots)) |}))).
Proof.
  intros Hread. unfold loadFinalRoundForNode. rewrite Hread. split.
  { by intros ->. }
  intros first rest ->. split.
  - intros H. by rewrite (finalRoundHashes_out_of_range _ _ _ _ _ _ H).
  - intros H. rewrite (finalRoundHashes_in_range _ _ _ _ _ _ H). simpl.
    by rewrite <- app_assoc.
Qed.

Lemma sorted_between_first_and_last (first : Snapshot) rest :
  StronglySorted (fun a b => sTimestamp a <= sTimestamp b) (first :: rest) ->
  Forall (fun s => sTimestamp first <= sTimestamp s
                   <= sTimestamp (List.last (first :: rest) first))
    (first :: rest).
Proof.
  intros Hs.
  assert (forall l d,
             StronglySorted (fun a b => sTimestamp a <= sTimestamp b) l ->
             Forall (fun s => sTimestamp s <= sTimestamp (List.last l d)) l)
    as Hlast.
  { induction l as [|x l IH]; intros d Hl; [constructor|].
    apply StronglySorted_inv in Hl as [Hl Hx].
    destruct l as [|y l]; [repeat constructor; simpl; lia|].
    specialize (IH d Hl). change (List.last (x :: y :: l) d)
      with (List.last (y :: l) d).
    constructor; [|done].
    apply Forall_inv in Hx. apply Forall_inv in IH. lia. }
  specialize (Hlast _ first Hs).
  apply StronglySorted_inv in Hs as [_ Hfirst].
  rewrite Forall_forall in *. intros s Hin. split; [|by apply Hlast].
  apply elem_of_cons in Hin as [->|Hin]; [lia|by apply Hfirst].
Qed.

(** X3. A round that [asFinal] has sealed is loaded again with the same
    hash: when the store hands out, for the node and the number of a
    cache round that is not empty, the snapshots in the order in which
    [asFinal] left them, [loadFinalRoundForNode] returns a final round
    with the node id, the number and the hash that [asFinal] returned.
    For a round of more than 12 snapshots the library's quicksort is
    taken to sort. *)
Theorem loadFinalRoundForNode_reloads_sealed_round lib NewHash Payload
  (store : Store) (c : CacheRound) :
  ((12 < length (cSnapshots c))%nat -> sortsLong lib) ->
  cSnapshots c <> [] ->
  SnapshotsReadSnapshotsForNodeRound store (cNodeId c) (cNumber c)
  = Ok (cSnapshots (asFinal lib NewHash Payload c).1) ->
  exists f,
    loadFinalRoundForNode NewHash Payload store (cNodeId c) (cNumber c)
    = Returns (Ok f) /\
    fNodeId f = fNodeId (asFinal lib NewHash Payload c).2 /\
    fNumber f = fNumber (asFinal lib NewHash Payload c).2 /\
    fHash f = fHash (asFinal lib NewHash Payload c).2.
Proof.
  intros Hlong Hne Hread. simpl in Hread.
  destruct (sort_byTimestamp_sorts lib (cSnapshots c) Hlong)
    as [Hperm Hsorted].
  destruct (sort_Slice lib byTimestamp (cSnapshots c))
    as [|first rest] eqn:E.
  { apply Permutation_nil in Hperm. done. }
  unfold loadFinalRoundForNode. rewrite Hread.
  rewrite (finalRoundHashes_in_range _ _ _ _ _ _
             (sorted_between_first_and_last _ _ Hsorted)).
  eexists. split; [done|]. simpl. split_and!; [done|done|].
  by rewrite E, appendPayloadHashes_concat.
Qed.

Section LoadMore.
Variable NewHash : list byte -> Hash.
Variable Payload : Snapshot -> list byte.
Variable store : Store.

Lemma loadNodes_nodes nodes g g' :
  loadNodes NewHash Payload store nodes g = Returns (Ok g') ->
  gNodes g' = gNodes g ++ nodes.
Proof.
  revert g. induction nodes as [|x rest IH]; intros g H; simpl in H.
  { injection H as <-. by rewrite app_nil_r. }
  destruct (loadHeadRoundForNode store x) as [[cache|e]| |]; [|done..].
  simpl in H.
  destruct (cNumber cache =? 0); simpl in H;
    (destruct (loadFinalRoundForNode _ _ _ _ _) as [[final|e]| |];
     [|done..]);
    simpl in H; rewrite (IH _ H); simpl; by rewrite <- app_assoc.
Qed.

Lemma loadHeadRoundForNode_error id e :
  loadHeadRoundForNode store id = Returns (Err e) ->
  fromStoreRead store e.
Proof.
  unfold loadHeadRoundForNode. intros H.
  destruct (SnapshotsReadRoundMeta store id) as [[number start]|e'] eqn:Em.
  - simpl in H.
    destruct (SnapshotsReadSnapshotsForNodeRound store id number)
      as [snapshots|e''] eqn:Es.
    + by destruct (headRoundEnd start snapshots 0).
    + injection H as ->. right; right. by exists id, number.
  - injection H as ->. right; left. by exists id.
Qed.

Lemma loadFinalRoundForNode_error id number e :
  loadFinalRoundForNode NewHash Payload store id number
  = Returns (Err e) ->
  fromStoreRead store e.
Proof.
  unfold loadFinalRoundForNode. intros H.
  destruct (SnapshotsReadSnapshotsForNodeRound store id number)
    as [[|first rest]|e'] eqn:Es.
  - done.
  - by destruct (finalRoundHashes _ _ _ _ _ _).
  - injection H as ->. right; right. by exists id, number.
Qed.

Lemma loadNodes_error nodes g e :
  loadNodes NewHash Payload store nodes g = Returns (Err e) ->
  fromStoreRead store e.
Proof.
  revert g. induction nodes as [|x rest IH]; intros g H; simpl in H;
    [done|].
  destruct (loadHeadRoundForNode store x) as [[cache|e']| |] eqn:Eh;
    [| |done..].
  2:{ injection H as ->. by apply (loadHeadRoundForNode_error x). }
  simpl in H.
  destruct (cNumber cache =? 0); simpl in H;
    (destruct (loadFinalRoundForNode _ _ _ _ _) as [[final|e']| |] eqn:Ef;
     [| |done..]);
    simpl in H;
    try (by apply (IH _ H));
    injection H as ->; by apply (loadFinalRoundForNode_error _ _ _ Ef).
Qed.

End LoadMore.

(** X4. A [LoadRoundGraph] that succeeds records the validators in the
    order of the store, duplicates included, and holds a cache round and
    a final round for exactly these validators, each stored under its
    own node id. *)
Theorem LoadRoundGraph_registers_validators NewHash Payload (store : Store)
  rangeFinal (nodes : list Hash) (graph : RoundGraph) :
  SnapshotsReadNodesList store = Ok nodes ->
  LoadRoundGraph NewHash Payload store rangeFinal = Returns (Ok graph) ->
  gNodes graph = nodes /\
  graphKeyed graph /\
  forall N,
    (N ∈ nodes <-> is_Some (gCacheRound graph !! N)) /\
    (N ∈ nodes <-> is_Some (gFinalRound graph !! N)).
Proof.
  intros Hnodes Hload. unfold LoadRoundGraph in Hload. rewrite Hnodes in Hload.
  destruct (loadNodes _ _ _ _ _) as [[g|e]| |] eqn:El; [|done..].
  simpl in Hload. injection Hload as <-. simpl.
  split; [by rewrite (loadNodes_nodes _ _ _ _ _ _ El)|].
  assert (forall N,
             (N ∈ nodes ->
              exists c f, gCacheRound g !! N = Some c /\ cNodeId c = N /\
                          gFinalRound g !! N = Some f /\ fNodeId f = N) /\
             (N ∉ nodes -> gCacheRound g !! N = None /\
                           gFinalRound g !! N = None)) as Hall.
  { intros N. destruct (loadNodes_lookup _ _ _ _ _ _ N El) as [Hin Hout].
    split.
    - intros HN. destruct (Hin HN) as (cache & final & Hh & Hf & Hc & Hfl).
      destruct (loadHeadRoundForNode_returns _ _ _ Hh)
        as (start & snapshots & _ & _ & Hcid & _).
      destruct (loadFinalRoundForNode_returns _ _ _ _ _ _ Hf)
        as (first & rest & _ & Hfinal).
      eexists _, final. split; [exact Hc|].
      split; [by destruct (cNumber cache =? 0)|].
      split; [exact Hfl|]. by rewrite Hfinal.
    - intros HN. destruct (Hout HN) as [-> ->]. simpl.
      by rewrite !lookup_empty. }
  split.
  - intros N. simpl. destruct (Hall N) as [Hin Hout].
    destruct (decide (N ∈ nodes)) as [HN|HN].
    + destruct (Hin HN) as (c & f & Hc & Hcid & Hf & Hfid).
      split; intros ? H; congruence.
    + destruct (Hout HN) as [Hc Hf]. split; intros ? H; congruence.
  - intros N. destruct (Hall N) as [Hin Hout].
    destruct (decide (N ∈ nodes)) as [HN|HN].
    + destruct (Hin HN) as (c & f & Hc & _ & Hf & _).
      rewrite Hc, Hf. by split; split.
    + destruct (Hout HN) as [Hc Hf]. rewrite Hc, Hf.
      split; split; try done; by intros [].
Qed.

(** X5. For a validator whose stored head round number is not 0, a
    [LoadRoundGraph] that succeeds keeps the head round as cache round,
    with the start of the store, the snapshots of the store (none below
    the start, none above the end) and as final round the round with the
    number before it. *)
Theorem LoadRoundGraph_head_round NewHash Payload (store : Store) rangeFinal
  (nodes : list Hash) (graph : RoundGraph) (id : Hash) (number start : Z) :
  SnapshotsReadNodesList store = Ok nodes ->
  id ∈ nodes ->
  SnapshotsReadRoundMeta store id = Ok (number, start) ->
  number <> 0 ->
  LoadRoundGraph NewHash Payload store rangeFinal = Returns (Ok graph) ->
  exists c f,
    gCacheRound graph !! id = Some c /\
    gFinalRound graph !! id = Some f /\
    cNodeId c = id /\ cNumber c = number /\ cStart c = start /\
    SnapshotsReadSnapshotsForNodeRound store id number
    = Ok (cSnapshots c) /\
    Forall (fun s => start <= sTimestamp s <= cEnd c) (cSnapshots c) /\
    fNodeId f = id /\ fNumber f = sub64 number 1.
Proof.
  intros Hnodes Hin Hmeta Hnz Hload.
  destruct (LoadRoundGraph_returns _ _ _ _ _ Hload)
    as (nodes' & g & Hnodes' & Hg & -> & ->).
  assert (nodes' = nodes) as -> by congruence.
  destruct (loadNodes_lookup _ _ _ _ _ _ id Hg) as [Hl _].
  destruct (Hl Hin) as (cache & final & Hh & Hf & Hc & Hfl).
  destruct (loadHeadRoundForNode_returns _ _ _ Hh)
    as (start' & snapshots & Hmeta' & Hsnap & Hcid & Hstart & Hsnaps).
  assert (cNumber cache = number /\ start' = start) as [Hn ->]
      by (split; congruence).
  apply Z.eqb_neq in Hnz. unfold finalNumberFor in Hf.
  rewrite Hn, Hnz in *.
  destruct (loadFinalRoundForNode_returns _ _ _ _ _ _ Hf)
    as (first & rest & _ & Hfinal).
  exists cache, final. split_and!; try done.
  - by rewrite Hsnaps.
  - rewrite Hsnaps.
    assert (Forall (fun s => start <= sTimestamp s) snapshots) as Hlow.
    { apply Forall_forall. intros s Hs.
      destruct (Z_lt_le_dec (sTimestamp s) start) as [Hlt|]; [|done].
      exfalso. unfold loadHeadRoundForNode in Hh.
      rewrite Hmeta in Hh. simpl in Hh. rewrite Hsnap in Hh.
      rewrite (headRoundEnd_panics start snapshots 0) in Hh; [done|].
      apply Exists_exists. by exists s. }
    destruct (headRoundEnd_returns start snapshots 0 Hlow)
      as (e & He & _ & Hall & _).
    unfold loadHeadRoundForNode in Hh.
    rewrite Hmeta in Hh. simpl in Hh. rewrite Hsnap, He in Hh.
    simpl in Hh. injection Hh as <-. simpl.
    rewrite Forall_forall in *. intros s Hs. split; [by apply Hlow|].
    by apply Hall.
  - by rewrite Hfinal.
  - by rewrite Hfinal.
Qed.

(** X6. [LoadRoundGraph] returns an error only when a read of the store
    has returned that error: the list of nodes, the meta data of a round
    or the snapshots of a round. *)
Theorem LoadRoundGraph_error_from_store NewHash Payload (store : Store)
  rangeFinal (e : error) :
  LoadRoundGraph NewHash Payload store rangeFinal = Returns (Err e) ->
  fromStoreRead store e.
Proof.
  unfold LoadRoundGraph. intros H.
  destruct (SnapshotsReadNodesList store) as [nodes|e'] eqn:En.
  - destruct (loadNodes _ _ _ _ _) as [[g|e']| |] eqn:El; [done| |done..].
    simpl in H. injection H as ->. by apply (loadNodes_error _ _ _ _ _ _ El).
  - injection H as ->. by left.
Qed.

Lemma UpdateFinalCache_entries rangeFinal g :
  gFinalCache (UpdateFinalCache rangeFinal g)
  = map (fun kf => finalCacheEntry kf.2) (rangeFinal (gFinalRound g)).
Proof.
  unfold UpdateFinalCache. simpl.
  assert (forall l acc,
             fold_left
               (fun finals (kf : Hash * FinalRound) =>
                  finals ++ [ {| fNodeId := fNodeId kf.2;
                                 fNumber := fNumber kf.2;
                                 fStart := fStart kf.2; fEnd := 0;
                                 fHash := zeroHash |} ]) l acc
             = acc ++ map (fun kf => finalCacheEntry kf.2) l) as H.
  { induction l as [|kf l IH]; intros acc; simpl.
    - by rewrite app_nil_r.
    - rewrite IH, <- app_assoc. done. }
  apply H.
Qed.

(** X7. [UpdateFinalCache] leaves the nodes and the two maps of rounds as
    they are and replaces the final cache by one entry for every final
    round of the graph, with its node id, number and start, and with a
    zero end and a zero hash. *)
Theorem UpdateFinalCache_projects_final_rounds
  (rangeFinal : gmap Hash FinalRound -> list (Hash * FinalRound))
  (g : RoundGraph) :
  rangeFinal (gFinalRound g) ≡ₚ map_to_list (gFinalRound g) ->
  gNodes (UpdateFinalCache rangeFinal g) = gNodes g /\
  gCacheRound (UpdateFinalCache rangeFinal g) = gCacheRound g /\
  gFinalRound (UpdateFinalCache rangeFinal g) = gFinalRound g /\
  length (gFinalCache (UpdateFinalCache rangeFinal g))
  = size (gFinalRound g) /\
  forall x,
    x ∈ gFinalCache (UpdateFinalCache rangeFinal g) <->
    exists k f, gFinalRound g !! k = Some f /\
                x = {| fNodeId := fNodeId f; fNumber := fNumber f;
                       fStart := fStart f; fEnd := 0; fHash := zeroHash |}.
Proof.
  intros Hperm. split_and!; try done.
  - rewrite UpdateFinalCache_entries, length_map, Hperm.
    apply length_map_to_list.
  - intros x. rewrite UpdateFinalCache_entries. split.
    + intros Hx. apply list_elem_of_In, in_map_iff in Hx
        as ([k f] & <- & Hin).
      apply list_elem_of_In in Hin. rewrite Hperm in Hin.
      apply elem_of_map_to_list in Hin. by exists k, f.
    + intros (k & f & Hk & ->). apply list_elem_of_In, in_map_iff.
      exists (k, f). split; [done|]. apply list_elem_of_In.
      rewrite Hperm. by apply elem_of_map_to_list.
Qed.

(** The graph loaded from the sample store has two final rounds. *)
Lemma UpdateFinalCache_projects_final_rounds_witness :
  length (gFinalCache
            (UpdateFinalCache World.range (World.loaded World.store)))
  = size (gFinalRound (World.loaded World.store)).
Proof.
  exact (proj1 (proj2 (proj2 (proj2
           (UpdateFinalCache_projects_final_rounds World.range
              (World.loaded World.store) (reflexivity _)))))).
Defined.

Section PrintOutcome.
Variable formatHash : Hash -> string.
Variable formatUint : Z -> string.

Lemma printNodes_returns g nodes desc :
  (forall id, id ∈ nodes ->
              is_Some (gFinalRound g !! id) /\
              is_Some (gCacheRound g !! id)) ->
  exists d, printNodes formatHash formatUint g nodes desc = Returns d.
Proof.
  revert desc. induction nodes as [|id rest IH]; intros desc H; simpl.
  { by eexists. }
  destruct (H id ltac:(by left)) as [[f ->] [c ->]].
  apply IH. intros id' Hin. apply H. by right.
Qed.

Lemma printNodes_panics g nodes desc :
  (exists id, id ∈ nodes /\
              (gFinalRound g !! id = None \/
               gCacheRound g !! id = None)) ->
  printNodes formatHash formatUint g nodes desc = Panics.
Proof.
  revert desc. induction nodes as [|id rest IH]; intros desc
    (x & Hin & Hx).
  { by apply elem_of_nil in Hin. }
  simpl. destruct (gFinalRound g !! id) as [f|] eqn:Ef; [|done].
  destruct (gCacheRound g !! id) as [c|] eqn:Ec; [|done].
  apply IH. exists x. split; [|done].
  apply elem_of_cons in Hin as [->|Hin]; [|done].
  destruct Hx; congruence.
Qed.

End PrintOutcome.

(** X8. [Print] returns the description when every node of the graph has
    a final round and a cache round, and panics (a nil pointer) when a
    node of the list lacks one of them. *)
Theorem Print_outcome (formatHash : Hash -> string)
  (formatUint : Z -> string) (g : RoundGraph) :
  ((forall id, id ∈ gNodes g ->
               is_Some (gFinalRound g !! id) /\
               is_Some (gCacheRound g !! id)) ->
   exists desc, Print formatHash formatUint g = Returns desc) /\
  ((exists id, id ∈ gNodes g /\
               (gFinalRound g !! id = None \/
                gCacheRound g !! id = None)) ->
   Print formatHash formatUint g = Panics).
Proof.
  unfold Print. split.
  - intros H.
    destruct (printNodes_returns formatHash formatUint g (gNodes g)
                ("ROUND GRAPH BEGIN" ++ lineFeed)%string H) as (d & ->).
    by eexists.
  - intros H. by rewrite (printNodes_panics _ _ _ _ _ H).
Qed.

(** X9. The description of a graph that [LoadRoundGraph] has returned is
    printed without a panic: the call of [Print] in [LoadRoundGraph]
    finds both rounds of every node. *)
Theorem Print_of_loaded_graph NewHash Payload (store : Store) rangeFinal
  (formatHash : Hash -> string) (formatUint : Z -> string)
  (graph : RoundGraph) :
  LoadRoundGraph NewHash Payload store rangeFinal = Returns (Ok graph) ->
  exists desc, Print formatHash formatUint graph = Returns desc.
Proof.
  intros Hload.
  destruct (LoadRoundGraph_returns _ _ _ _ _ Hload)
    as (nodes & g & Hnodes & Hg & Hc & Hf).
  assert (gNodes graph = nodes) as Hn.
  { unfold LoadRoundGraph in Hload. rewrite Hnodes, Hg in Hload.
    simpl in Hload. injection Hload as <-. simpl.
    by rewrite (loadNodes_nodes _ _ _ _ _ _ Hg). }
  unfold Print.
  destruct (printNodes_returns formatHash formatUint graph (gNodes graph)
              ("ROUND GRAPH BEGIN" ++ lineFeed)%string) as (d & ->);
    [|by eexists].
  intros id Hin. rewrite Hn in Hin. rewrite Hc, Hf.
  destruct (loadNodes_lookup _ _ _ _ _ _ id Hg) as [Hl _].
  destruct (Hl Hin) as (cache & final & _ & _ & -> & ->). by split.
Qed.

Section ClearMore.
Variable D : Deps.

Lemma appendVerified_replicate cns msg sig sigs :
  appendVerified D cns msg sig sigs
  = sigs ++ replicate (length (verifiers D cns msg sig)) sig.
Proof.
  revert sigs. induction cns as [|cn rest IH]; intros sigs; simpl.
  { by rewrite app_nil_r. }
  unfold verifiers. rewrite filter_cons. fold (verifiers D rest msg sig).
  destruct (decide (cnIsAccepted cn = true /\
                    Verify D (cnPublicSpendKey cn) msg sig = true))
    as [[Ha Hv]|Hn].
  - rewrite Ha, Hv. simpl. rewrite IH, <- app_assoc. done.
  - destruct (cnIsAccepted cn); simpl; [|apply IH].
    destruct (Verify D (cnPublicSpendKey cn) msg sig); [|apply IH].
    by destruct Hn.
Qed.

Lemma verifiers_nonempty cns msg sig :
  (exists cn, cn ∈ cns /\ cnIsAccepted cn = true /\
              Verify D (cnPublicSpendKey cn) msg sig = true) ->
  (0 < length (verifiers D cns msg sig))%nat.
Proof.
  intros (cn & Hin & Ha & Hv).
  assert (cn ∈ verifiers D cns msg sig) as H.
  { unfold verifiers. apply list_elem_of_filter. done. }
  destruct (verifiers D cns msg sig); [by apply elem_of_nil in H|].
  simpl. lia.
Qed.

Lemma clearLoop_prefix cns msg input filter sigs :
  exists added, clearLoop D cns msg input filter sigs = sigs ++ added.
Proof.
  revert filter sigs. induction input as [|sig rest IH];
    intros filter sigs; simpl.
  { exists []. by rewrite app_nil_r. }
  destruct (decide (sig ∈ filter)); [apply IH|].
  destruct (IH ({[sig]} ∪ filter) (appendVerified D cns msg sig sigs))
    as (added & ->).
  rewrite appendVerified_replicate, <- app_assoc. by eexists.
Qed.

Lemma clearLoop_complete cns msg input filter sigs x :
  x ∈ input -> x ∉ filter ->
  (exists cn, cn ∈ cns /\ cnIsAccepted cn = true /\
              Verify D (cnPublicSpendKey cn) msg x = true) ->
  x ∈ clearLoop D cns msg input filter sigs.
Proof.
  revert filter sigs. induction input as [|sig rest IH];
    intros filter sigs Hin Hf Hcn; [by apply elem_of_nil in Hin|].
  simpl. destruct (decide (sig ∈ filter)) as [Hs|Hs].
  - apply elem_of_cons in Hin as [->|Hin]; [done|]. by apply IH.
  - destruct (decide (x = sig)) as [->|Hne].
    + destruct (clearLoop_prefix cns msg rest ({[sig]} ∪ filter)
                  (appendVerified D cns msg sig sigs)) as (added & ->).
      rewrite appendVerified_replicate. apply elem_of_app. left.
      apply elem_of_app. right.
      pose proof (verifiers_nonempty _ _ _ Hcn) as Hpos.
      destruct (length (verifiers D cns msg sig)); [lia|]. by left.
    + apply elem_of_cons in Hin as [->|Hin]; [done|].
      apply IH; [done| |done].
      intros Hx. apply elem_of_union in Hx as [Hx|Hx]; [|done].
      by apply elem_of_singleton in Hx.
Qed.

Lemma clearLoop_NoDup (cns : list ConsensusNode) (msg : list byte)
  (input : list Signature)
  (filter : gset Signature) (sigs : list Signature) :
  (forall sig, sig ∈ input ->
               (length (verifiers D cns msg sig) <= 1)%nat) ->
  NoDup sigs -> (forall y, y ∈ sigs -> y ∈ filter) ->
  NoDup (clearLoop D cns msg input filter sigs).
Proof.
  revert filter sigs. induction input as [|sig rest IH];
    intros filter sigs Hone Hnd Hsub; simpl; [done|].
  destruct (decide (sig ∈ filter)) as [Hs|Hs].
  - apply IH; [|done..]. intros y Hy. apply Hone. by right.
  - rewrite appendVerified_replicate.
    pose proof (Hone sig ltac:(by left)) as Hle.
    apply IH.
    + intros y Hy. apply Hone. by right.
    + destruct (length (verifiers D cns msg sig)) as [|[|n]]; simpl;
        [by rewrite app_nil_r| |lia].
      apply NoDup_app. split_and!; [done| |apply NoDup_singleton].
      intros y Hy Hy'. apply list_elem_of_singleton in Hy' as ->.
      by apply Hs, Hsub.
    + intros y Hy. apply elem_of_app in Hy as [Hy|Hy].
      * apply elem_of_union. right. by apply Hsub.
      * apply elem_of_replicate in Hy as [-> _]. set_solver.
Qed.

End ClearMore.

(** X10. [clearConsensusSignatures] keeps a signature exactly when it is
    one of the signatures of the snapshot and it verifies against the
    payload under the public spend key of an accepted consensus node; it
    changes no other field of the snapshot. *)
Theorem clearConsensusSignatures_keeps_exactly_verified (D : Deps)
  (node : Node) (s : Snapshot) :
  (forall x,
      x ∈ sSignatures (clearConsensusSignatures D node s) <->
      x ∈ sSignatures s /\
      exists cn, cn ∈ nConsensusNodes node /\ cnIsAccepted cn = true /\
                 Verify D (cnPublicSpendKey cn) (Payload D s) x = true) /\
  sNodeId (clearConsensusSignatures D node s) = sNodeId s /\
  sTransaction (clearConsensusSignatures D node s) = sTransaction s /\
  sReferences (clearConsensusSignatures D node s) = sReferences s /\
  sRoundNumber (clearConsensusSignatures D node s) = sRoundNumber s /\
  sTimestamp (clearConsensusSignatures D node s) = sTimestamp s.
Proof.
  split; [|done]. intros x. split.
  - unfold clearConsensusSignatures. simpl. intros H.
    apply clearLoop_elem in H as [H|H]; [|done].
    by apply elem_of_nil in H.
  - intros [Hin Hcn]. unfold clearConsensusSignatures. simpl.
    apply clearLoop_complete; [done|set_solver|done].
Qed.

(** X11. When every signature of the snapshot verifies under the key of
    at most one accepted consensus node, the signatures that
    [clearConsensusSignatures] leaves are pairwise distinct. *)
Theorem clearConsensusSignatures_distinct (D : Deps) (node : Node)
  (s : Snapshot) :
  (forall sig, sig ∈ sSignatures s ->
               (length (verifiers D (nConsensusNodes node) (Payload D s) sig)
                <= 1)%nat) ->
  NoDup (sSignatures (clearConsensusSignatures D node s)).
Proof.
  intros Hone. unfold clearConsensusSignatures. simpl.
  apply clearLoop_NoDup; [done|apply NoDup_nil_2|].
  intros y Hy. by apply elem_of_nil in Hy.
Qed.

Section Merge.

Lemma mergeSignatures_spec (osigs : list Signature)
  (filter : gset Signature) (sigs : list Signature) :
  (forall y, y ∈ sigs -> y ∈ filter) ->
  exists added,
    mergeSignatures osigs filter sigs = sigs ++ added /\
    NoDup added /\
    (forall x, x ∈ added <-> x ∈ osigs /\ x ∉ filter).
Proof.
  revert filter sigs. induction osigs as [|sig rest IH];
    intros filter sigs Hsub; simpl.
  { exists []. split_and!; [by rewrite app_nil_r|constructor|].
    intros x. split; [intros H|intros [H _]]; by apply elem_of_nil in H. }
  destruct (decide (sig ∈ filter)) as [Hs|Hs].
  - destruct (IH filter sigs Hsub) as (added & -> & Hnd & Hiff).
    exists added. split_and!; [done..|].
    intros x. rewrite Hiff, elem_of_cons. split; [tauto|].
    intros [[->|Hx] Hf]; done.
  - destruct (IH ({[sig]} ∪ filter) (sigs ++ [sig]))
      as (added & -> & Hnd & Hiff).
    { intros y Hy. apply elem_of_app in Hy as [Hy|Hy].
      - apply elem_of_union. right. by apply Hsub.
      - apply list_elem_of_singleton in Hy as ->.
        apply elem_of_union. left. by apply elem_of_singleton. }
    exists (sig :: added). split_and!.
    + by rewrite <- app_assoc.
    + constructor; [|done]. rewrite Hiff. intros [_ Hn]. apply Hn.
      apply elem_of_union. left. by apply elem_of_singleton.
    + intros x. rewrite !elem_of_cons, Hiff, not_elem_of_union,
        not_elem_of_singleton.
      destruct (decide (x = sig)) as [->|Hne]; [tauto|]. tauto.
Qed.

End Merge.

Section VerifierFrame.
Variable D : Deps.
Variable store : Store.
Variable rangeFinal : gmap Hash FinalRound -> list (Hash * FinalRound).

Lemma checkLinks_unhandled self s final links err :
  checkLinks store self s final = (links, false, err) ->
  exists e to, err = Some e /\
               SnapshotsReadRoundLink store (sNodeId s) to = Err e.
Proof.
  unfold checkLinks.
  destruct (SnapshotsReadRoundLink store (sNodeId s) (fNodeId self))
    as [selfLink|e] eqn:Es.
  2:{ intros H. injection H as _ <-. by exists e, (fNodeId self). }
  destruct (_ <? selfLink); [done|].
  destruct (SnapshotsReadRoundLink store (sNodeId s) (fNodeId final))
    as [finalLink|e] eqn:Ef.
  2:{ intros H. injection H as _ <-. by exists e, (fNodeId final). }
  by destruct (_ <? finalLink).
Qed.

Lemma verifyReferences_unhandled node self s links err :
  verifyReferences store rangeFinal node self s
  = Returns (links, false, err) ->
  exists e to, err = Some e /\
               SnapshotsReadRoundLink store (sNodeId s) to = Err e.
Proof.
  unfold verifyReferences. simpl.
  destruct (bool_decide _); [done|].
  destruct (bool_decide _); [done|].
  destruct (bool_decide _); [done|].
  intros H. injection H as H.
  destruct (scanFinals_first store self s (sReferences s).2
              (rangeFinal (gFinalRound (nGraph node))))
    as [[_ Hr]|(pre & kf & post & _ & _ & _ & _ & Hr)];
    rewrite Hr in H; [done|].
  by apply (checkLinks_unhandled self s kf.2 links).
Qed.

Lemma dropHandled_error err handled e :
  dropHandled err handled = Some e -> err = Some e /\ handled = false.
Proof.
  unfold dropHandled. destruct err as [e'|]; [|done].
  destruct handled; [done|]. simpl. intros H. by injection H as ->.
Qed.

Lemma verifySnapshot_error node s links cache final e node' s' :
  verifySnapshot D store rangeFinal node s
  = Returns (links, cache, final, Some e, node', s') ->
  exists from to, SnapshotsReadRoundLink store from to = Err e.
Proof.
  unfold verifySnapshot.
  destruct (gCacheRound (nGraph node) !! sNodeId s) as [c|]; [|done].
  destruct (gFinalRound (nGraph node) !! sNodeId s) as [f|]; [|done].
  destruct (_ || _).
  - destruct (verifyReferences store rangeFinal node _ s)
      as [[[links0 handled] err0]| |] eqn:Ev; [|done..].
    simpl. destruct err0 as [e0|]; [|done].
    intros H. injection H as _ _ _ H _ _.
    destruct handled; simpl in H; [done|]. injection H as ->.
    destruct (verifyReferences_unhandled _ _ _ _ _ Ev)
      as (e' & to & He & Hr).
    injection He as <-. by exists (sNodeId s), to.
  - destruct (advanceRound _ _ _ _ _ _) as [[c1 f1]| |]; [|done..].
    simpl. destruct (_ || _); [done|].
    destruct (verifyReferences store rangeFinal node f1 s)
      as [[[links0 handled] err0]| |] eqn:Ev; [|done..].
    simpl. intros H. injection H as _ _ _ H _ _.
    apply dropHandled_error in H as [-> ->].
    destruct (verifyReferences_unhandled _ _ _ _ _ Ev)
      as (e' & to & He & Hr).
    injection He as <-. by exists (sNodeId s), to.
Qed.

Lemma sendToConsensus_error cns s ccache clock e ccache' clock' :
  sendToConsensus D cns s ccache clock
  = Returns (Some e, ccache', clock') ->
  exists cn, cn ∈ cns /\ cnIsAccepted cn = true /\
             SendSnapshotMessage D (cnIdForNetwork cn) s = Some e.
Proof.
  revert ccache clock. induction cns as [|cn rest IH];
    intros ccache clock H; simpl in H; [done|].
  destruct (cnIsAccepted cn) eqn:Ea; simpl in H.
  2:{ destruct (IH _ _ H) as (cn' & Hin & Hacc & Hs).
      exists cn'. split; [by right|done]. }
  destruct clock as [|t clock]; [done|]. simpl in H.
  destruct (t <? _).
  { destruct (IH _ _ H) as (cn' & Hin & Hacc & Hs).
    exists cn'. split; [by right|done]. }
  destruct (SendSnapshotMessage D (cnIdForNetwork cn) s) as [e'|] eqn:Es.
  { injection H as -> _ _. exists cn. split; [by left|done]. }
  destruct clock as [|t' clock]; [done|]. simpl in H.
  destruct (IH _ _ H) as (cn' & Hin & Hacc & Hs).
  exists cn'. split; [by right|done].
Qed.

End VerifierFrame.

(** X12. On the signature-merge path of [verifySnapshot], when the
    references are accepted, the snapshot keeps its signatures and
    receives after them, each once, the signatures of the pool that it
    did not carry; the pool then holds exactly the signatures of the
    snapshot under its payload hash, and the rounds returned are the
    ones of the graph. *)
Theorem verifySnapshot_merges_pool (D : Deps) (store : Store)
  (rangeFinal : gmap Hash FinalRound -> list (Hash * FinalRound))
  (node : Node) (s : Snapshot) (c : CacheRound) (f : FinalRound)
  (links : gmap Hash Z) (handled : bool) :
  gCacheRound (nGraph node) !! sNodeId s = Some c ->
  gFinalRound (nGraph node) !! sNodeId s = Some f ->
  0 < len (default [] (nSnapshotsPool node !! PayloadHash D s))
  \/ verifyFinalization node s = true ->
  verifyReferences store rangeFinal node f s
  = Returns (links, handled, None) ->
  exists added,
    verifySnapshot D store rangeFinal node s
    = Returns (links, c, f, None,
               setSnapshotsPool node
                 (<[PayloadHash D (setSignatures s (sSignatures s ++ added))
                    := sSignatures s ++ added]> (nSnapshotsPool node)),
               setSignatures s (sSignatures s ++ added)) /\
    NoDup added /\
    forall x,
      x ∈ added <->
      x ∈ default [] (nSnapshotsPool node !! PayloadHash D s) /\
      x ∉ sSignatures s.
Proof.
  intros Hc Hf Hpath Hrefs. unfold verifySnapshot. rewrite Hc, Hf.
  rewrite CacheRound_Copy_id. unfold FinalRound_Copy.
  assert ((0 <? len (default [] (nSnapshotsPool node !! PayloadHash D s)))
          || verifyFinalization node s = true) as ->.
  { destruct Hpath as [H|H].
    - apply Z.ltb_lt in H. by rewrite H.
    - rewrite H. apply orb_true_r. }
  rewrite Hrefs. simpl.
  destruct (mergeSignatures_spec
              (default [] (nSnapshotsPool node !! PayloadHash D s))
              (list_to_set (sSignatures s)) (sSignatures s))
    as (added & Hm & Hnd & Hiff).
  { intros y Hy. by apply elem_of_list_to_set. }
  exists added. rewrite Hm. split_and!; [done|done|].
  intros x. rewrite Hiff. by rewrite elem_of_list_to_set.
Qed.

Section Frames.
Variable D : Deps.
Variable store : Store.
Variable rangeFinal : gmap Hash FinalRound -> list (Hash * FinalRound).

Lemma verifySnapshot_frame_aux node s links cache final err node' s' :
  verifySnapshot D store rangeFinal node s
  = Returns (links, cache, final, err, node', s') ->
  (exists added pool,
      s' = setSignatures s (sSignatures s ++ added) /\
      node' = setSnapshotsPool node pool /\
      forall k, k <> PayloadHash D s' ->
                pool !! k = nSnapshotsPool node !! k)
  \/ (s' = s /\ node' = node).
Proof.
  unfold verifySnapshot.
  destruct (gCacheRound (nGraph node) !! sNodeId s) as [c|]; [|done].
  destruct (gFinalRound (nGraph node) !! sNodeId s) as [f|]; [|done].
  destruct (_ || _).
  - destruct (verifyReferences store rangeFinal node _ s)
      as [[[links0 handled] err0]| |] eqn:Ev; [|done..].
    simpl. destruct err0 as [e0|].
    + intros H. injection H as _ _ _ _ <- <-. by right.
    + destruct (mergeSignatures_spec
                  (default [] (nSnapshotsPool node !! PayloadHash D s))
                  (list_to_set (sSignatures s)) (sSignatures s))
        as (added & Hm & _ & _).
      { intros y Hy. by apply elem_of_list_to_set. }
      rewrite Hm. intros H. injection H as _ _ _ _ <- <-.
      left. eexists added, _. split_and!; [done..|].
      intros k Hk. by rewrite lookup_insert_ne.
  - destruct (advanceRound _ _ _ _ _ _) as [[c1 f1]| |]; [|done..].
    simpl. destruct (_ || _).
    + intros H. injection H as _ _ _ _ <- <-. by right.
    + destruct (verifyReferences _ _ _ _ _) as [[[l h] e]| |];
        [|done..].
      simpl. intros H. injection H as _ _ _ _ <- <-. by right.
Qed.

Lemma signSnapshot_node_id node s clock cache final s' clock' :
  signSnapshot D rangeFinal node s clock
  = Returns (cache, final, s', clock') ->
  sNodeId s' = sNodeId s.
Proof.
  unfold signSnapshot.
  destruct (gCacheRound (nGraph node) !! sNodeId s) as [c|]; [|done].
  destruct (gFinalRound (nGraph node) !! sNodeId s) as [f|]; [|done].
  destruct (_ || _ || _); [intros H; by injection H as _ _ <- _|].
  destruct (waitTimestamp _ _) as [[t clock1]| |]; [|done..]. simpl.
  destruct (advanceRound _ _ _ _ _ _) as [[c1 f1]| |]; [|done..]. simpl.
  destruct (chooseBest _ _ _ _) as [[best clock2]| |]; [|done..]. simpl.
  destruct (bool_decide _); [done|].
  intros H. by injection H as _ _ <- _.
Qed.

Lemma propose_frame node s clock links cache final err node1 s1 clock1 :
  propose D store rangeFinal node s clock
  = Returns (links, cache, final, err, node1, s1, clock1) ->
  sameIdentity node node1 /\ nGraph node1 = nGraph node /\
  nTopoCounter node1 = nTopoCounter node /\
  nConsensusCache node1 = nConsensusCache node /\
  sNodeId s1 = sNodeId s.
Proof.
  unfold propose.
  destruct (signSnapshot D rangeFinal node _ clock)
    as [[[[cache0 final0] s0] clock0]| |] eqn:Es; [|done..].
  apply signSnapshot_node_id in Es. simpl in Es. simpl.
  destruct (_ || _).
  - destruct (verifySnapshot D store rangeFinal node s0)
      as [[[[[[links1 cache1] final1] err1] node2] s2]| |] eqn:Ev;
      [|done..].
    simpl. intros H. injection H as _ _ _ _ <- <- _.
    destruct (verifySnapshot_frame_aux _ _ _ _ _ _ _ _ Ev)
      as [(added & pool & -> & -> & _)|[-> ->]]; by repeat split.
  - intros H. injection H as _ _ _ _ <- <- _. by repeat split.
Qed.

Lemma advanceRound_keyed node s end_ c f c1 f1 :
  advanceRound D node s end_ c f = Returns (c1, f1) ->
  cNodeId c = sNodeId s -> fNodeId f = sNodeId s ->
  cNodeId c1 = sNodeId s /\ fNodeId f1 = sNodeId s.
Proof.
  unfold advanceRound. intros H Hc Hf.
  destruct (_ <=? _); [|by injection H as <- <-].
  destruct (_ =? 0); [by injection H as <- <-|].
  destruct (forallb _ _); [|done]. by injection H as <- <-.
Qed.

Lemma propose_keyed node s clock links cache final err node1 s1 clock1 :
  graphKeyed (nGraph node) ->
  propose D store rangeFinal node s clock
  = Returns (links, cache, final, err, node1, s1, clock1) ->
  cNodeId cache = sNodeId s /\ fNodeId final = sNodeId s.
Proof.
  intros Hg. unfold propose.
  set (s0 := clearConsensusSignatures D node s).
  assert (sNodeId s0 = sNodeId s) as Hs0 by done.
  destruct (signSnapshot D rangeFinal node s0 clock)
    as [[[[cache0 final0] s1'] clock0]| |] eqn:Es; [|done..].
  pose proof (signSnapshot_node_id _ _ _ _ _ _ _ Es) as Hid.
  assert (cNodeId cache0 = sNodeId s /\ fNodeId final0 = sNodeId s)
    as Hk0.
  { revert Es. unfold signSnapshot.
    destruct (gCacheRound (nGraph node) !! sNodeId s0) as [c|] eqn:Hc;
      [|done].
    destruct (gFinalRound (nGraph node) !! sNodeId s0) as [f|] eqn:Hf;
      [|done].
    apply Hg in Hc, Hf. rewrite CacheRound_Copy_id. unfold FinalRound_Copy.
    destruct (_ || _ || _);
      [intros H; injection H as <- <- _ _; by rewrite <- Hs0|].
    destruct (waitTimestamp _ _) as [[t clock1']| |]; [|done..]. simpl.
    destruct (advanceRound _ _ _ _ _ _) as [[c1 f1]| |] eqn:Ea; [|done..].
    simpl.
    destruct (chooseBest _ _ _ _) as [[best clock2]| |]; [|done..]. simpl.
    destruct (bool_decide _); [done|].
    intros H. injection H as <- <- _ _. simpl.
    rewrite <- Hs0. by apply (advanceRound_keyed _ _ _ _ _ _ _ Ea). }
  simpl. destruct (_ || _).
  - unfold verifySnapshot.
    destruct (gCacheRound (nGraph node) !! sNodeId s1') as [c|] eqn:Hc;
      [|done].
    destruct (gFinalRound (nGraph node) !! sNodeId s1') as [f|] eqn:Hf;
      [|done].
    apply Hg in Hc, Hf. rewrite CacheRound_Copy_id. unfold FinalRound_Copy.
    assert (sNodeId s1' = sNodeId s) as Hs1 by congruence.
    destruct (_ || _).
    + destruct (verifyReferences _ _ _ _ _) as [[[l h] [e|]]| |];
        simpl; try done; intros H; injection H as _ <- <- _ _ _ _;
        by rewrite <- Hs1.
    + destruct (advanceRound _ _ _ _ _ _) as [[c1 f1]| |] eqn:Ea;
        [|done..].
      apply (advanceRound_keyed _ _ _ _ _ _ _ Ea) in Hc; [|done].
      simpl. destruct (_ || _); simpl.
      * intros H. injection H as _ <- <- _ _ _ _. by rewrite <- Hs1.
      * destruct (verifyReferences _ _ _ _ _) as [[[l h] e]| |];
          simpl; try done; intros H; injection H as _ <- <- _ _ _ _;
          by rewrite <- Hs1.
  - intros H. by injection H as _ <- <- _ _ _ _.
Qed.

End Frames.

(** X13. Whatever [verifySnapshot] returns, it has left the round graph,
    the consensus nodes, the consensus cache and the topological counter
    of the node as they were; of the snapshot it has at most extended
    the signatures, and of the pool it has at most written the entry of
    the payload hash of the snapshot. *)
Theorem verifySnapshot_frame (D : Deps) (store : Store)
  (rangeFinal : gmap Hash FinalRound -> list (Hash * FinalRound))
  (node : Node) (s : Snapshot) (links : gmap Hash Z) (cache : CacheRound)
  (final : FinalRound) (err : option error) (node' : Node) (s' : Snapshot) :
  verifySnapshot D store rangeFinal node s
  = Returns (links, cache, final, err, node', s') ->
  nGraph node' = nGraph node /\
  nIdForNetwork node' = nIdForNetwork node /\
  nConsensusNodes node' = nConsensusNodes node /\
  nConsensusCache node' = nConsensusCache node /\
  nTopoCounter node' = nTopoCounter node /\
  (forall k, k <> PayloadHash D s' ->
             nSnapshotsPool node' !! k = nSnapshotsPool node !! k) /\
  (exists added, s' = setSignatures s (sSignatures s ++ added)).
Proof.
  intros H.
  destruct (verifySnapshot_frame_aux _ _ _ _ _ _ _ _ _ _ _ H)
    as [(added & pool & -> & -> & Hpool)|[-> ->]].
  - split_and!; try done. by exists added.
  - split_and!; try done. exists []. destruct s. simpl.
    by rewrite app_nil_r.
Qed.

Section HandlerMore.
Variable D : Deps.
Variable store : Store.
Variable rangeFinal : gmap Hash FinalRound -> list (Hash * FinalRound).

Lemma propose_error node s clock links cache final e node1 s1 clock1 :
  propose D store rangeFinal node s clock
  = Returns (links, cache, final, Some e, node1, s1, clock1) ->
  fromCollaborator D store e.
Proof.
  unfold propose.
  destruct (signSnapshot D rangeFinal node _ clock)
    as [[[[cache0 final0] s0] clock0]| |]; [|done..].
  simpl. destruct (_ || _); [|done].
  destruct (verifySnapshot D store rangeFinal node s0)
    as [[[[[[links1 cache1] final1] err1] node2] s2]| |] eqn:Ev; [|done..].
  simpl. intros H. injection H as _ _ _ -> _ _ _.
  left. by apply (verifySnapshot_error _ _ _ _ _ _ _ _ _ _ _ Ev).
Qed.

Lemma cosign_error node s cache final clock e node' s' clock' :
  cosign D node s cache final clock = Returns (Some e, node', s', clock') ->
  fromCollaborator D store e.
Proof.
  unfold cosign. destruct (LockInputs D s); [done|].
  destruct (sign D node s) as [node1 s1].
  destruct (bool_decide _).
  - destruct (sendToConsensus _ _ _ _ _)
      as [[[err0 ccache] clock0]| |] eqn:Es; [|done..].
    simpl. destruct err0 as [e0|]; [|done].
    intros H. injection H as -> _ _ _.
    destruct (sendToConsensus_error _ _ _ _ _ _ _ _ Es)
      as (cn & _ & _ & Hs).
    right; right. by eexists _, _.
  - destruct (SendSnapshotMessage D _ _) as [e0|] eqn:Es; [|done].
    intros H. injection H as -> _ _ _. right; right. by eexists _, _.
Qed.

Lemma cosign_frame node s cache final clock err node' s' clock' :
  cosign D node s cache final clock = Returns (err, node', s', clock') ->
  sameIdentity node node' /\
  gNodes (nGraph node') = gNodes (nGraph node) /\
  nTopoCounter node' = nTopoCounter node /\
  (forall N, N <> sNodeId s' ->
             gCacheRound (nGraph node') !! N
             = gCacheRound (nGraph node) !! N /\
             gFinalRound (nGraph node') !! N
             = gFinalRound (nGraph node) !! N) /\
  (s' = s \/
   s' = clearConsensusSignatures D node
          (Sign D s (nPrivateSpendKey node))) /\
  (gCacheRound (nGraph node') = gCacheRound (nGraph node) /\
   gFinalRound (nGraph node') = gFinalRound (nGraph node)
   \/ err = None /\
      gCacheRound (nGraph node') !! sNodeId s' = Some cache /\
      gFinalRound (nGraph node') !! sNodeId s' = Some final).
Proof.
  unfold cosign.
  destruct (LockInputs D s);
    [intros H; injection H as <- <- <- <-; split_and!; try done;
     [by left|by left]|].
  unfold sign.
  set (s1 := clearConsensusSignatures D node _).
  set (node1 := setSnapshotsPool node _).
  simpl.
  destruct (bool_decide _).
  - destruct (sendToConsensus _ _ _ _ _)
      as [[[err0 ccache] clock0]| |]; [|done..].
    simpl. destruct err0; intros H; injection H as <- <- <- <-.
    + split_and!; try done; [by right|by left].
    + split_and!; try done.
      * intros N HN. simpl. by rewrite !lookup_insert_ne.
      * by right.
      * right. simpl. by rewrite !lookup_insert_eq.
  - destruct (SendSnapshotMessage D _ _); intros H;
      injection H as <- <- <- <-.
    + split_and!; try done; [by right|by left].
    + split_and!; try done.
      * intros N HN. simpl. by rewrite !lookup_insert_ne.
      * by right.
      * right. simpl. by rewrite !lookup_insert_eq.
Qed.

End HandlerMore.

(** X14. [handleSnapshotInput] returns an error only when the store or
    the peer has returned that error: a failed read of a round link, a
    failed write of the snapshot, or a failed send. An error of
    [verifyReferences] about the references themselves is never
    returned. *)
Theorem handleSnapshotInput_error_from_collaborator (D : Deps)
  (store : Store)
  (rangeFinal : gmap Hash FinalRound -> list (Hash * FinalRound))
  (node : Node) (s : Snapshot) (clock : list Z) (e : error)
  (node' : Node) (s' : Snapshot) (clock' : list Z) :
  handleSnapshotInput D store rangeFinal node s clock
  = Returns (Some e, node', s', clock') ->
  (exists from to, SnapshotsReadRoundLink store from to = Err e) \/
  (exists topo, SnapshotsWriteSnapshot store topo = Some e) \/
  (exists peer snapshot, SendSnapshotMessage D peer snapshot = Some e).
Proof.
  unfold handleSnapshotInput.
  destruct (SnapshotsReadSnapshotByTransactionHash store _) as [[o|]|e0];
    [done| |done].
  destruct (Validate D _); [done|].
  destruct (propose D store rangeFinal node s clock)
    as [[[[[[[links cache] final] err1] node1] s1] clock1]| |] eqn:Ep;
    [|done..].
  simpl. destruct err1 as [e1|].
  { simpl. intros H. injection H as -> _ _ _.
    by apply (propose_error _ _ _ _ _ _ _ _ _ _ _ _ _ Ep). }
  destruct (verifyFinalization node1 s1).
  - simpl. unfold finalize.
    destruct (SnapshotsWriteSnapshot store _) as [e1|] eqn:Ew; [|done].
    simpl. intros H. injection H as -> _ _ _. right; left. by eexists.
  - destruct (cosign D node1 s1 cache final clock1)
      as [[[[err2 node2] s2] clock2]| |] eqn:Ec; [|done..].
    simpl. intros H. injection H as -> _ _ _.
    by apply (cosign_error _ store _ _ _ _ _ _ _ _ _ Ec).
Qed.

(** X15. A call of [handleSnapshotInput] that returns has left the list
    of nodes of the graph, the identity of the node and its consensus
    nodes as they were, and has not touched the cache round or the final
    round of any validator other than the producer of the snapshot it
    returns; that producer is the producer of the snapshot received when
    signing keeps the node id. *)
Theorem handleSnapshotInput_frame (D : Deps) (store : Store)
  (rangeFinal : gmap Hash FinalRound -> list (Hash * FinalRound))
  (node : Node) (s : Snapshot) (clock : list Z) (err : option error)
  (node' : Node) (s' : Snapshot) (clock' : list Z) :
  handleSnapshotInput D store rangeFinal node s clock
  = Returns (err, node', s', clock') ->
  gNodes (nGraph node') = gNodes (nGraph node) /\
  nIdForNetwork node' = nIdForNetwork node /\
  nConsensusNodes node' = nConsensusNodes node /\
  (forall N, N <> sNodeId s' ->
             gCacheRound (nGraph node') !! N
             = gCacheRound (nGraph node) !! N /\
             gFinalRound (nGraph node') !! N
             = gFinalRound (nGraph node) !! N) /\
  ((forall x key, sNodeId (Sign D x key) = sNodeId x) ->
   sNodeId s' = sNodeId s).
Proof.
  unfold handleSnapshotInput.
  destruct (SnapshotsReadSnapshotByTransactionHash store _) as [[o|]|e0];
    [intros H; by injection H as <- <- <- <-| |
     intros H; by injection H as <- <- <- <-].
  destruct (Validate D _); [intros H; by injection H as <- <- <- <-|].
  destruct (propose D store rangeFinal node s clock)
    as [[[[[[[links cache] final] err1] node1] s1] clock1]| |] eqn:Ep;
    [|done..].
  destruct (propose_frame _ _ _ _ _ _ _ _ _ _ _ _ _ Ep)
    as ((Hid & Hkey & Hcns) & Hg & Htopo & Hcc & Hs1).
  simpl. destruct err1 as [e1|].
  { simpl. intros H. injection H as <- <- <- <-. simpl.
    rewrite Hg. by split_and!. }
  destruct (verifyFinalization node1 s1).
  - simpl. unfold finalize.
    destruct (SnapshotsWriteSnapshot store _); simpl;
      intros H; injection H as <- <- <- <-; simpl; rewrite Hg;
      split_and!; try done.
    intros N HN. by rewrite !lookup_insert_ne.
  - destruct (cosign D node1 s1 cache final clock1)
      as [[[[err2 node2] s2] clock2]| |] eqn:Ec; [|done..].
    destruct (cosign_frame _ _ _ _ _ _ _ _ _ _ Ec)
      as ((Hid2 & Hkey2 & Hcns2) & Hn2 & _ & Hother & Hs2 & _).
    simpl. intros H. injection H as <- <- <- <-. simpl.
    split_and!; try congruence.
    + intros N HN. destruct (Hother N HN) as [-> ->]. by rewrite Hg.
    + intros Hsign. destruct Hs2 as [->| ->]; [done|].
      change (sNodeId (Sign D s1 (nPrivateSpendKey node1)) = sNodeId s).
      by rewrite Hsign.
Qed.

(** X16. On the finalization path of [handleSnapshotInput], when the
    store accepts the write, the call returns no error, and the graph
    then holds for the producer the proposed final round and the
    proposed cache round with the snapshot appended as its last snapshot
    and the timestamp of the snapshot as its end; the topological
    counter has advanced once. *)
Theorem handleSnapshotInput_persists_finalized (D : Deps) (store : Store)
  (rangeFinal : gmap Hash FinalRound -> list (Hash * FinalRound))
  (node : Node) (s : Snapshot) (clock : list Z)
  (links : gmap Hash Z) (cache : CacheRound) (final : FinalRound)
  (node1 : Node) (s1 : Snapshot) (clock1 : list Z) :
  SnapshotsReadSnapshotByTransactionHash store
    (TransactionPayloadHash D (sTransaction s)) = Ok None ->
  Validate D (sTransaction s) = None ->
  propose D store rangeFinal node s clock
  = Returns (links, cache, final, None, node1, s1, clock1) ->
  verifyFinalization node1 s1 = true ->
  SnapshotsWriteSnapshot store
    {| tSnapshot := s1;
       tTopologicalOrder := (TopoNext D (nTopoCounter node1)).1;
       tRoundLinks := links |} = None ->
  exists node2,
    handleSnapshotInput D store rangeFinal node s clock
    = Returns (None, node2, s1, clock1) /\
    gCacheRound (nGraph node2) !! sNodeId s1
    = Some {| cNodeId := cNodeId cache; cNumber := cNumber cache;
              cStart := cStart cache; cEnd := sTimestamp s1;
              cSnapshots := cSnapshots cache ++ [s1] |} /\
    gFinalRound (nGraph node2) !! sNodeId s1 = Some final /\
    nTopoCounter node2 = (TopoNext D (nTopoCounter node)).2 /\
    nSnapshotsPool node2 = nSnapshotsPool node1.
Proof.
  intros Hdup Hvalid Hprop Hfin Hwrite.
  destruct (propose_frame _ _ _ _ _ _ _ _ _ _ _ _ _ Hprop)
    as (_ & _ & Htopo & _ & _).
  unfold handleSnapshotInput. rewrite Hdup, Hvalid, Hprop. simpl.
  rewrite Hfin. unfold finalize. rewrite Hwrite. simpl.
  eexists. split; [reflexivity|]. simpl.
  rewrite !lookup_insert_eq, Htopo. done.
Qed.

Lemma LoadRoundGraph_keyed NewHash Payload store rangeFinal graph :
  LoadRoundGraph NewHash Payload store rangeFinal = Returns (Ok graph) ->
  graphKeyed graph.
Proof.
  intros Hload N.
  destruct (LoadRoundGraph_returns _ _ _ _ _ Hload)
    as (nodes & g & Hnodes & Hg & -> & ->).
  destruct (loadNodes_lookup _ _ _ _ _ _ N Hg) as [Hin Hout].
  destruct (decide (N ∈ nodes)) as [HN|HN].
  - destruct (Hin HN) as (cache & final & Hh & Hf & -> & ->).
    destruct (loadHeadRoundForNode_returns _ _ _ Hh)
      as (start & snapshots & _ & _ & Hcid & _).
    destruct (loadFinalRoundForNode_returns _ _ _ _ _ _ Hf)
      as (first & rest & _ & Hfinal).
    split; intros ? H; injection H as <-.
    + by destruct (cNumber cache =? 0).
    + by rewrite Hfinal.
  - destruct (Hout HN) as [-> ->]. simpl. rewrite !lookup_empty.
    by split.
Qed.

Lemma graphKeyed_commit node s cache final :
  graphKeyed (nGraph node) ->
  cNodeId cache = sNodeId s -> fNodeId final = sNodeId s ->
  graphKeyed (nGraph (commit node s cache final)).
Proof.
  intros Hg Hc Hf N. simpl. destruct (decide (N = sNodeId s)) as [->|Hne].
  - rewrite !lookup_insert_eq. split; intros ? H; by injection H as <-.
  - rewrite !lookup_insert_ne by done. apply Hg.
Qed.

Lemma handleSnapshotInput_keyed D store rangeFinal node s clock err node'
  s' clock' :
  (forall x key, sNodeId (Sign D x key) = sNodeId x) ->
  graphKeyed (nGraph node) ->
  handleSnapshotInput D store rangeFinal node s clock
  = Returns (err, node', s', clock') ->
  graphKeyed (nGraph node').
Proof.
  intros Hsign Hg. unfold handleSnapshotInput.
  destruct (SnapshotsReadSnapshotByTransactionHash store _) as [[o|]|e0];
    [intros H; by injection H as <- <- <- <-| |
     intros H; by injection H as <- <- <- <-].
  destruct (Validate D _); [intros H; by injection H as <- <- <- <-|].
  destruct (propose D store rangeFinal node s clock)
    as [[[[[[[links cache] final] err1] node1] s1] clock1]| |] eqn:Ep;
    [|done..].
  destruct (propose_frame _ _ _ _ _ _ _ _ _ _ _ _ _ Ep)
    as (_ & Hg1 & _ & _ & Hs1).
  destruct (propose_keyed _ _ _ _ _ _ _ _ _ _ _ _ _ Hg Ep) as [Hc Hf].
  assert (graphKeyed (nGraph node1)) as Hg1' by (by rewrite Hg1).
  simpl. destruct err1 as [e1|].
  { simpl. intros H. by injection H as <- <- <- <-. }
  destruct (verifyFinalization node1 s1).
  - simpl. unfold finalize.
    destruct (SnapshotsWriteSnapshot store _); simpl;
      intros H; injection H as <- <- <- <-; [done|].
    apply (graphKeyed_commit
             (setTopoCounter node1 (TopoNext D (nTopoCounter node1)).2));
      [done|simpl; congruence|congruence].
  - unfold cosign. destruct (LockInputs D s1); simpl;
      [intros H; by injection H as <- <- <- <-|].
    set (s2 := clearConsensusSignatures D node1 _).
    assert (sNodeId s2 = sNodeId s) as Hs2.
    { unfold s2. simpl. by rewrite Hsign. }
    destruct (bool_decide _).
    + destruct (sendToConsensus _ _ _ _ _)
        as [[[err0 ccache] clock0]| |]; [|done..].
      simpl. destruct err0; simpl; intros H; injection H as <- <- <- <-;
        [done|].
      apply (graphKeyed_commit (setConsensusCache _ ccache));
        [done|congruence..].
    + destruct (SendSnapshotMessage D _ _); simpl; intros H;
        injection H as <- <- <- <-; [done|].
      apply graphKeyed_commit; [done|congruence..].
Qed.

(** X17. When signing a snapshot keeps its node id, every node that the
    kernel can be in holds each cache round and each final round under
    the node id of the round itself, which is what [verifyReferences]
    relies on when it compares the node of the snapshot with the node of
    the final round. *)
Theorem rounds_are_stored_under_their_node (D : Deps) (node : Node) :
  (forall x key, sNodeId (Sign D x key) = sNodeId x) ->
  Reachable D node ->
  forall N,
    (forall c, gCacheRound (nGraph node) !! N = Some c -> cNodeId c = N) /\
    (forall f, gFinalRound (nGraph node) !! N = Some f -> fNodeId f = N).
Proof.
  intros Hsign Hreach.
  induction Hreach as [store rangeFinal graph node Hstore Hload Hgraph
                      |store rangeFinal node s clock err node' s' clock'
                         Hreach IH Hstep].
  - rewrite Hgraph. by apply (LoadRoundGraph_keyed _ _ _ _ _ Hload).
  - by apply (handleSnapshotInput_keyed _ _ _ _ _ _ _ _ _ _ Hsign IH Hstep).
Qed.

Section ClearTwice.
Variable D : Deps.
Variable cns : list ConsensusNode.
Variable msg : list byte.

Lemma clearLoop_firstOccurrences (input : list Signature)
  (filter : gset Signature) (sigs : list Signature) :
  clearLoop D cns msg input filter sigs
  = sigs ++ flat_map (copies D cns msg) (firstOccurrences input filter).
Proof.
  revert filter sigs. induction input as [|sig rest IH];
    intros filter sigs; simpl.
  { by rewrite app_nil_r. }
  destruct (decide (sig ∈ filter)); [apply IH|].
  simpl. rewrite IH, appendVerified_replicate, <- app_assoc. done.
Qed.

Lemma firstOccurrences_fresh (input : list Signature)
  (filter : gset Signature) :
  NoDup (firstOccurrences input filter) /\
  forall x, x ∈ firstOccurrences input filter -> x ∉ filter.
Proof.
  revert filter. induction input as [|sig rest IH]; intros filter; simpl.
  { split; [constructor|]. intros x Hx. by apply elem_of_nil in Hx. }
  destruct (decide (sig ∈ filter)) as [Hs|Hs]; [apply IH|].
  destruct (IH ({[sig]} ∪ filter)) as [Hnd Hout]. split.
  - constructor; [|done]. intros Hin. apply (Hout _ Hin).
    apply elem_of_union. left. by apply elem_of_singleton.
  - intros x Hx. apply elem_of_cons in Hx as [->|Hx]; [done|].
    intros Hf. apply (Hout _ Hx). apply elem_of_union. by right.
Qed.

Lemma firstOccurrences_skip (sig : Signature) (n : nat) (rest : list Signature)
  (filter : gset Signature) :
  sig ∈ filter ->
  firstOccurrences (replicate n sig ++ rest) filter
  = firstOccurrences rest filter.
Proof.
  intros Hs. induction n as [|n IH]; simpl; [done|].
  by rewrite decide_True.
Qed.

Lemma firstOccurrences_copies (l : list Signature)
  (filter : gset Signature) :
  NoDup l -> (forall x, x ∈ l -> x ∉ filter) ->
  flat_map (copies D cns msg)
    (firstOccurrences (flat_map (copies D cns msg) l) filter)
  = flat_map (copies D cns msg) l.
Proof.
  intros Hnd. revert filter.
  induction Hnd as [|x l Hx Hnd IH]; intros filter Hout; simpl; [done|].
  assert (copies D cns msg x
          = replicate (length (verifiers D cns msg x)) x) as Hc by done.
  destruct (length (verifiers D cns msg x)) as [|n]; rewrite Hc; simpl.
  { apply IH. intros y Hy. apply Hout. by right. }
  rewrite decide_False by (apply Hout; by left). simpl.
  rewrite firstOccurrences_skip
    by (apply elem_of_union; left; by apply elem_of_singleton).
  rewrite Hc. simpl. do 2 f_equal.
  apply IH. intros y Hy Hf. apply elem_of_union in Hf as [Hf|Hf].
  - apply elem_of_singleton in Hf as ->. done.
  - by apply (Hout y ltac:(by right)).
Qed.

Lemma clearLoop_twice (input : list Signature) :
  clearLoop D cns msg (clearLoop D cns msg input ∅ []) ∅ []
  = clearLoop D cns msg input ∅ [].
Proof.
  rewrite !clearLoop_firstOccurrences. simpl.
  destruct (firstOccurrences_fresh input ∅) as [Hnd Hout].
  by rewrite firstOccurrences_copies.
Qed.

End ClearTwice.

(** X18. When the payload of a snapshot does not depend on its
    signatures, [clearConsensusSignatures] applied a second time changes
    nothing. *)
Theorem clearConsensusSignatures_twice (D : Deps) (node : Node)
  (s : Snapshot) :
  (forall x sigs, Payload D (setSignatures x sigs) = Payload D x) ->
  clearConsensusSignatures D node (clearConsensusSignatures D node s)
  = clearConsensusSignatures D node s.
Proof.
  intros Hpayload. unfold clearConsensusSignatures at 1 3.
  unfold clearConsensusSignatures. rewrite Hpayload. simpl.
  by rewrite clearLoop_twice.
Qed.

(** The head round of [idB] in the sample store with two snapshots. *)
Lemma loadHeadRoundForNode_outcome_witness :
  exists end_,
    loadHeadRoundForNode More.storeHead Sample.idB
    = Returns (Ok {| cNodeId := Sample.idB; cNumber := 2; cStart := 30;
                     cEnd := end_;
                     cSnapshots := [More.secondB; More.thirdB] |}).
Proof.
  destruct (loadHeadRoundForNode_outcome More.storeHead Sample.idB 2 30
              [More.secondB; More.thirdB] eq_refl eq_refl) as [_ Hret].
  destruct Hret as (end_ & H & _).
  - repeat constructor; vm_compute; discriminate.
  - by exists end_.
Defined.

(** Round 1 of [idB] in the sample store. *)
Lemma loadFinalRoundForNode_outcome_witness :
  exists f,
    loadFinalRoundForNode Sample.plainHash Sample.plainPayload World.store
      Sample.idB 1 = Returns (Ok f).
Proof.
  destruct (loadFinalRoundForNode_outcome Sample.plainHash
              Sample.plainPayload World.store Sample.idB 1 [World.firstB]
              eq_refl) as [_ Hcons].
  destruct (Hcons World.firstB [] eq_refl) as [_ Hret].
  eexists. apply Hret.
  repeat constructor; vm_compute; discriminate.
Defined.

(** A round of two snapshots, sealed and read again. *)
Lemma loadFinalRoundForNode_reloads_sealed_round_witness :
  exists f,
    loadFinalRoundForNode Sample.plainHash Sample.plainPayload
      More.storeSealed (cNodeId More.sealedRound)
      (cNumber More.sealedRound) = Returns (Ok f) /\
    fHash f
    = fHash (asFinal Sample.library Sample.plainHash Sample.plainPayload
               More.sealedRound).2.
Proof.
  destruct (loadFinalRoundForNode_reloads_sealed_round Sample.library
              Sample.plainHash Sample.plainPayload More.storeSealed
              More.sealedRound)
    as (f & Hf & _ & _ & Hh).
  - simpl. lia.
  - discriminate.
  - reflexivity.
  - by exists f.
Defined.

(** The graph loaded from the sample store. *)
Lemma LoadRoundGraph_registers_validators_witness :
  gNodes (World.loaded World.store) = [Sample.idA; Sample.idB].
Proof.
  apply (LoadRoundGraph_registers_validators Sample.plainHash
           Sample.plainPayload World.store World.range
           [Sample.idA; Sample.idB] (World.loaded World.store)).
  - reflexivity.
  - vm_compute. reflexivity.
Defined.

(** The validator [idB] of the sample store has its head at round 2. *)
Lemma LoadRoundGraph_head_round_witness :
  exists c f,
    gCacheRound (World.loaded World.store) !! Sample.idB = Some c /\
    gFinalRound (World.loaded World.store) !! Sample.idB = Some f /\
    cNumber c = 2 /\ fNumber f = sub64 2 1.
Proof.
  destruct (LoadRoundGraph_head_round Sample.plainHash Sample.plainPayload
              World.store World.range [Sample.idA; Sample.idB]
              (World.loaded World.store) Sample.idB 2 30)
    as (c & f & Hc & Hf & _ & Hn & _ & _ & _ & _ & Hfn).
  - reflexivity.
  - right. by left.
  - reflexivity.
  - discriminate.
  - vm_compute. reflexivity.
  - by exists c, f.
Defined.

(** A store that cannot list its nodes. *)
Lemma LoadRoundGraph_error_from_store_witness :
  fromStoreRead More.storeNoList (ExternalError 7).
Proof.
  apply (LoadRoundGraph_error_from_store Sample.plainHash
           Sample.plainPayload More.storeNoList World.range).
  reflexivity.
Defined.

(** The graph loaded from the sample store is printed. *)
Lemma Print_of_loaded_graph_witness :
  exists desc,
    Print More.formatHash More.formatUint (World.loaded World.store)
    = Returns desc.
Proof.
  apply (Print_of_loaded_graph Sample.plainHash Sample.plainPayload
           World.store World.range).
  vm_compute. reflexivity.
Defined.

(** Three consensus nodes with three keys, and a snapshot that carries
    one signature twice. *)
Lemma clearConsensusSignatures_distinct_witness :
  NoDup (sSignatures
           (clearConsensusSignatures World.deps Handled.before
              More.repeated)).
Proof.
  apply clearConsensusSignatures_distinct.
  intros sig Hsig. apply list_elem_of_In in Hsig. simpl in Hsig.
  repeat (destruct Hsig as [<-|Hsig]; [vm_compute; lia|]). destruct Hsig.
Defined.

(** The payload of the sample world leaves the signatures out. *)
Lemma clearConsensusSignatures_twice_witness :
  clearConsensusSignatures World.deps Handled.before
    (clearConsensusSignatures World.deps Handled.before More.repeated)
  = clearConsensusSignatures World.deps Handled.before More.repeated.
Proof.
  apply clearConsensusSignatures_twice. intros x sigs. reflexivity.
Defined.

(** A snapshot with the signatures of [keyA] and [keyB] arrives while
    the pool holds those of [keyC] and [keyA]. *)
Lemma verifySnapshot_merges_pool_witness :
  exists added node' s',
    verifySnapshot World.deps World.store World.range More.pooled
      More.arriving
    = Returns (More.arrivingLinks, More.cacheB,
               Verifier.finalOf Sample.idB, None, node', s') /\
    sSignatures s' = sSignatures More.arriving ++ added /\
    NoDup added.
Proof.
  destruct (verifySnapshot_merges_pool World.deps World.store World.range
              More.pooled More.arriving More.cacheB
              (Verifier.finalOf Sample.idB) More.arrivingLinks true)
    as (added & Hret & Hnd & _).
  - vm_compute. reflexivity.
  - vm_compute. reflexivity.
  - left. vm_compute. reflexivity.
  - vm_compute. reflexivity.
  - exists added. eexists _, _. split; [exact Hret|].
    split; [reflexivity|exact Hnd].
Defined.

(** The same call leaves the graph of the node as it was. *)
Lemma verifySnapshot_frame_witness :
  nGraph More.verifiedNode = nGraph More.pooled /\
  nTopoCounter More.verifiedNode = nTopoCounter More.pooled.
Proof.
  destruct (verifySnapshot_frame World.deps World.store World.range
              More.pooled More.arriving More.arrivingLinks More.cacheB
              (Verifier.finalOf Sample.idB) More.verifiedError
              More.verifiedNode More.verifiedSnapshot)
    as (Hg & _ & _ & _ & Ht & _).
  - vm_compute. reflexivity.
  - by split.
Defined.

(** The store refuses the write of a finalized snapshot. *)
Lemma handleSnapshotInput_error_from_collaborator_witness :
  (exists from to,
      SnapshotsReadRoundLink Handled.failing from to
      = Err (ExternalError 5)) \/
  (exists topo,
      SnapshotsWriteSnapshot Handled.failing topo
      = Some (ExternalError 5)) \/
  (exists peer snapshot,
      SendSnapshotMessage World.deps peer snapshot
      = Some (ExternalError 5)).
Proof.
  apply (handleSnapshotInput_error_from_collaborator World.deps
           Handled.failing World.range Handled.before Handled.finalized
           Handled.clock (ExternalError 5)
           (More.nodeOf
              (More.handled Handled.failing Handled.before Handled.finalized)
              Handled.before)
           (More.snapshotOf
              (More.handled Handled.failing Handled.before Handled.finalized)
              Handled.finalized)
           (More.clockOf
              (More.handled Handled.failing Handled.before
                 Handled.finalized))).
  vm_compute. reflexivity.
Defined.

(** A fresh snapshot of [idA] is handled: the rounds of [idB] stay. *)
Lemma handleSnapshotInput_frame_witness :
  gCacheRound (nGraph Handled.after) !! Sample.idB
  = gCacheRound (nGraph Handled.before) !! Sample.idB.
Proof.
  destruct (handleSnapshotInput_frame World.deps World.store World.range
              Handled.before Handled.fresh Handled.clock
              (More.errorOf
                 (More.handled World.store Handled.before Handled.fresh))
              Handled.after
              (More.snapshotOf
                 (More.handled World.store Handled.before Handled.fresh)
                 Handled.fresh)
              (More.clockOf
                 (More.handled World.store Handled.before Handled.fresh)))
    as (_ & _ & _ & Hother & _).
  - vm_compute. reflexivity.
  - apply Hother. vm_compute. discriminate.
Defined.

(** A snapshot of [idB] with three signatures is persisted. *)
Lemma handleSnapshotInput_persists_finalized_witness :
  exists node2,
    handleSnapshotInput World.deps World.store World.range Handled.before
      Handled.finalized Handled.clock
    = Returns (None, node2, More.proposedSnapshot, More.proposedClock) /\
    nTopoCounter node2 = 1.
Proof.
  destruct (handleSnapshotInput_persists_finalized World.deps World.store
              World.range Handled.before Handled.finalized Handled.clock
              More.proposedLinks More.proposedCache More.proposedFinal
              More.proposedNode More.proposedSnapshot More.proposedClock)
    as (node2 & Hret & _ & _ & Ht & _).
  - reflexivity.
  - reflexivity.
  - vm_compute. reflexivity.
  - vm_compute. reflexivity.
  - reflexivity.
  - exists node2. split; [exact Hret|exact Ht].
Defined.

(** The node after the sample store has been loaded and a fresh
    snapshot has been handled; signing in the sample world appends a
    signature. *)
Lemma rounds_are_stored_under_their_node_witness :
  Reachable World.deps Handled.after /\
  exists c, gCacheRound (nGraph Handled.after) !! Sample.idA = Some c /\
            cNodeId c = Sample.idA.
Proof.
  assert (storeInRange World.store) as Hstore.
  { intros id number start H. simpl in H.
    destruct (bool_decide (id = Sample.idB)); injection H as <- _;
      unfold u64; lia. }
  assert (Reachable World.deps Handled.before) as Hbefore.
  { apply (Reachable_load World.deps World.store World.range
             (World.loaded World.store) Handled.before Hstore);
      [vm_compute; reflexivity|reflexivity]. }
  assert (handleSnapshotInput World.deps World.store World.range
            Handled.before Handled.fresh Handled.clock
          = Returns
              (More.errorOf
                 (More.handled World.store Handled.before Handled.fresh),
               Handled.after,
               More.snapshotOf
                 (More.handled World.store Handled.before Handled.fresh)
                 Handled.fresh,
               More.clockOf
                 (More.handled World.store Handled.before Handled.fresh)))
    as Hstep by (vm_compute; reflexivity).
  pose proof (Reachable_handle World.deps World.store World.range
                Handled.before Handled.fresh Handled.clock _
                Handled.after _ _ Hbefore Hstep) as Hafter.
  split; [exact Hafter|].
  assert (is_Some (gCacheRound (nGraph Handled.after) !! Sample.idA))
    as [c Hc] by (eexists; vm_compute; reflexivity).
  exists c. split; [exact Hc|].
  exact (proj1 (rounds_are_stored_under_their_node World.deps
                  Handled.after (fun x key => eq_refl) Hafter
                  Sample.idA) c Hc).
Defined.
